(** * pg_dump_sample: the dependency-ordered dump engine of [dump/dump.go]

    A shallow embedding of the package [dump]: the manifest model, the
    manifest iterator (the foreign-key dependency resolver) and the dump
    writer, and of the command of [main.go], followed by the properties of
    the resolver, of [MakeDump] and of the command.

    Conventions of the embedding.
    - Go strings are [string]; slices are lists; Go maps are [gmap].
    - A Go [error] is its message.  A call returning [(T, error)] returns a
      [result T].
    - [*pg.DB] is a record of the answers the server gives to the two
      catalogue queries of this package and to [CopyTo]; every use of the
      connection is appended to a call log, threaded through the code in the
      order in which the calls are made.
    - An [io.Writer] is a sink that takes of each write what its behaviour
      says: all of it, a part, or nothing.  The package discards what
      [fmt.Fprintf] returns, so that the model keeps of a write what was
      asked and what the sink holds, not the error.
    - [strconv.Quote] and [mustache.Render] are library functions and
      parameters of the writer.
    - [Next] is recursive and need not return; it takes a recursion budget
      and answers [None] when the budget is exhausted.  Go keeps a frame
      for each of these calls, so that [None] stands also for the process
      that ends because the stack is used up. *)

From Stdlib Require Import Ascii ZArith Lia.
From stdpp Require Import base gmap strings list fin_maps fin_sets relations sorting.
From stdpp Require Import pretty.

Local Open Scope Z_scope.
Local Open Scope nat_scope.

(** ** Errors and results *)

Definition error : Type := string.

Inductive result (A : Type) : Type :=
  | Ok (a : A)
  | Err (e : error).
Arguments Ok {A} a.
Arguments Err {A} e.

(** ** Manifest model (dump.go, lines 57-75) *)

Record ManifestItem : Type := mkItem {
  Table : string;
  Query : string;
  Columns : list string;
  PostActions : list string
}.

Record Manifest : Type := mkManifest {
  Vars : gmap string string;
  Tables : list ManifestItem
}.

Global Instance ManifestItem_eq_dec : EqDecision ManifestItem.
Proof. solve_decision. Defined.

(** The zero value of the struct, which a Go map read yields for a missing
    key. *)
Definition zero_item : ManifestItem := mkItem EmptyString EmptyString [] [].

(** [ManifestItem{Table: dep}] *)
Definition default_item (dep : string) : ManifestItem :=
  mkItem dep EmptyString [] [].

(** ** The database connection *)

Record DB : Type := mkDB {
  (* rows of the pg_attribute query of getTableCols, column colname *)
  query_columns : string -> result (list string);
  (* rows of the pg_constraint query of getTableDeps, column tablename *)
  query_constraints : string -> result (list string);
  (* CopyTo(w, sql): the text streamed to w, and the error if any *)
  CopyTo : string -> string * option error
}.

Inductive call : Type :=
  | CallDeps (table : string) (r : result (list string))
  | CallCols (table : string) (r : result (list string))
  | CallRender (template : string) (r : result string)
  | CallCopy (sql : string) (r : string * option error).

Definition call_error (c : call) : option error :=
  match c with
  | CallDeps _ (Err e) | CallCols _ (Err e) | CallRender _ (Err e) => Some e
  | CallCopy _ (_, Some e) => Some e
  | _ => None
  end.

(** [for _, v := range model { xs = append(xs, v.Field) }] *)
Definition collect (model : list string) : list string :=
  foldl (fun xs v => xs ++ [v]) [] model.

(** dump.go, lines 253-277 *)
Definition getTableCols (db : DB) (table : string) : result (list string) :=
  match query_columns db table with
  | Err e => Err e
  | Ok model => Ok (collect model)
  end.

(** dump.go, lines 279-301 *)
Definition getTableDeps (db : DB) (table : string) : result (list string) :=
  match query_constraints db table with
  | Err e => Err e
  | Ok model => Ok (collect model)
  end.

(** ** The manifest iterator (dump.go, lines 69-75, 145-160, 174-215)

    The fields [db] and [manifest] of the Go struct never change after
    construction; the connection is a parameter of [Next] and the manifest
    is consumed by [NewManifestIterator]. *)

Record ManifestIterator : Type := mkIter {
  todo : gmap string ManifestItem;
  done : gmap string ManifestItem;
  stack : list string
}.

Definition has_key (m : gmap string ManifestItem) (k : string) : bool :=
  bool_decide (is_Some (m !! k)).

(** dump.go, lines 154-157: the loop of [NewManifestIterator]. *)
Definition NewManifestIterator_loop
    (m : ManifestIterator) (items : list ManifestItem) : ManifestIterator :=
  foldl (fun m item =>
           mkIter (<[Table item := item]> (todo m)) (done m)
                  (stack m ++ [Table item]))
        m items.

Definition NewManifestIterator (manifest : Manifest) : ManifestIterator :=
  NewManifestIterator_loop (mkIter ∅ ∅ []) (Tables manifest).

(** dump.go, lines 191-203: the loop over [deps]; it updates [m.todo] and
    grows [todoDeps]. *)
Fixpoint scanDeps (table : string) (deps : list string)
    (todo0 done0 : gmap string ManifestItem) (todoDeps : list string)
    : gmap string ManifestItem * list string :=
  match deps with
  | [] => (todo0, todoDeps)
  | dep :: deps' =>
      let todo1 :=
        if negb (has_key todo0 dep) && negb (has_key done0 dep)
        then <[dep := default_item dep]> todo0
        else todo0 in
      let todoDeps1 :=
        if has_key todo1 dep && negb (bool_decide (table = dep))
        then todoDeps ++ [dep]
        else todoDeps in
      scanDeps table deps' todo1 done0 todoDeps1
  end.

(** dump.go, lines 174-215.  The result is [None] when the recursion budget
    runs out, and otherwise the iterator and the call log after the call
    together with the item pointer and the error that Go returns:
    [Ok None] is [nil, nil]. *)
Fixpoint Next (db : DB) (fuel : nat) (m : ManifestIterator) (log : list call)
    : option (ManifestIterator * list call * result (option ManifestItem)) :=
  match fuel with
  | O => None
  | S fuel' =>
      match stack m with
      | [] => Some (m, log, Ok None)
      | table :: rest =>
          let m1 := mkIter (todo m) (done m) rest in
          if negb (has_key (todo m1) table) then Next db fuel' m1 log
          else
            let r := getTableDeps db table in
            let log1 := log ++ [CallDeps table r] in
            match r with
            | Err e => Some (m1, log1, Err e)
            | Ok deps =>
                let '(todo2, todoDeps) :=
                  scanDeps table deps (todo m1) (done m1) [] in
                match todoDeps with
                | _ :: _ =>
                    Next db fuel'
                      (mkIter todo2 (done m1) (todoDeps ++ table :: rest)) log1
                | [] =>
                    let item := default zero_item (todo2 !! table) in
                    Some (mkIter (delete table todo2)
                                 (<[table := item]> (done m1)) rest,
                          log1, Ok (Some item))
                end
            end
      end
  end.

(** ** Successive calls to [Next]

    The caller's loop of dump.go, lines 81-88, without the writer: call
    [Next] until it returns [nil] or an error, at most [calls] times. *)

Inductive outcome : Type :=
  | Finished
  | Failed (e : error)
  | OutOfFuel.

Fixpoint drain (db : DB) (calls fuel : nat) (m : ManifestIterator)
    (log : list call)
    : list ManifestItem * ManifestIterator * list call * outcome :=
  match calls with
  | O => ([], m, log, OutOfFuel)
  | S calls' =>
      match Next db fuel m log with
      | None => ([], m, log, OutOfFuel)
      | Some (m', log', Err e) => ([], m', log', Failed e)
      | Some (m', log', Ok None) => ([], m', log', Finished)
      | Some (m', log', Ok (Some v)) =>
          let '(items, m'', log'', out) := drain db calls' fuel m' log' in
          (v :: items, m'', log'', out)
      end
  end.

(** ** Formatting (the parts of [fmt] and [strings] in use) *)

Definition dquote : ascii := "034"%char.

(** [fmt.Sprintf] for the verb [%s].  Every call of this package supplies as
    many operands as its format has verbs; a verb without operand prints
    Go's marker, other bytes are copied. *)
Fixpoint Sprintf (format : string) (args : list string) : string :=
  match format with
  | EmptyString => EmptyString
  | String "%" (String "s" rest) =>
      match args with
      | a :: args' => a +:+ Sprintf rest args'
      | [] => "%!s(MISSING)" +:+ Sprintf rest []
      end
  | String c rest => String c (Sprintf rest args)
  end.

(** ** The output sink

    An [io.Writer].  [held] is what the sink holds, [written] the writes
    asked of it so far, in their order, and [takes] its behaviour: the bytes
    that it takes of a write, given the writes asked of it before.  A sink
    that never fails takes every write whole; a sink that fails takes a part
    of the write, or nothing.  The count and the error that [Write] returns
    are not kept: no caller in this package looks at them. *)
Record Writer : Type := mkWriter {
  held : string;
  written : list string;
  takes : list string -> string -> string
}.

Definition Write (w : Writer) (p : string) : Writer :=
  mkWriter (held w +:+ takes w (written w) p) (written w ++ [p]) (takes w).

(** [fmt.Fprintf(w, format, args...)]: one write of the formatted text, its
    results discarded. *)
Definition Fprintf (w : Writer) (format : string) (args : list string)
    : Writer :=
  Write w (Sprintf format args).

(** [strings.Join] *)
Fixpoint Join (elems : list string) (sep : string) : string :=
  match elems with
  | [] => EmptyString
  | [x] => x
  | x :: rest => x +:+ sep +:+ Join rest sep
  end.

(** [strconv.Quote] is a function of Go's library and a parameter of the
    writer: [quote s] is [strconv.Quote(s)]. *)
Definition quoter : Type := string -> string.

(** ** The framing constants (dump.go, lines 16-55) *)

Definition BEGIN_DUMP : string := "
--
-- PostgreSQL database dump
--

BEGIN;

SET statement_timeout = 0;
SET lock_timeout = 0;
SET client_encoding = 'UTF8';
SET standard_conforming_strings = on;
SET check_function_bodies = false;
SET client_min_messages = warning;

SET search_path = public, pg_catalog;

".

Definition END_DUMP : string := "
COMMIT;

--
-- PostgreSQL database dump complete
--
".

Definition BEGIN_TABLE_DUMP : string := "
--
-- Data for Name: %s; Type: TABLE DATA
--

COPY %s (%s) FROM stdin;
".

Definition END_TABLE_DUMP : string := "\.
".

Definition SQL_CMD_DUMP : string := "
%s;
".

(** ** The dump writer (dump.go, lines 77-125 and 217-251) *)

Definition beginDump (w : Writer) : Writer := Fprintf w BEGIN_DUMP [].

Definition endDump (w : Writer) : Writer := Fprintf w END_DUMP [].

Definition beginTable (quote : quoter) (w : Writer) (table : string)
    (columns : list string) : Writer :=
  let quoted := foldl (fun quoted v => quoted ++ [quote v]) [] columns in
  let colstr := Join quoted ", " in
  Fprintf w BEGIN_TABLE_DUMP [table; table; colstr].

Definition endTable (w : Writer) : Writer := Fprintf w END_TABLE_DUMP [].

Definition dumpSqlCmd (w : Writer) (v : string) : Writer :=
  Fprintf w SQL_CMD_DUMP [v].

(** [db.CopyTo(w, sql)] is the library's: it writes to [w] the rows that the
    server streams, here by one write, and returns its error. *)
Definition dumpTable (db : DB) (w : Writer) (log : list call) (table : string)
    : Writer * list call * option error :=
  let sql := Sprintf "COPY %s TO STDOUT" [table] in
  let r := CopyTo db sql in
  (Write w r.1, log ++ [CallCopy sql r], r.2).

(** The templating engine is the library [mustache], a parameter of the
    writer: [render template vars] is [mustache.Render(template, vars)]. *)
Definition engine : Type := string -> gmap string string -> result string.

(** dump.go, lines 90-96: the columns of the entry [v], the explicit ones or
    else those of the schema. *)
Definition resolveColumns (db : DB) (v : ManifestItem) (log : list call)
    : result (list string) * list call :=
  let cols := Columns v in
  if length cols =? 0
  then let r := getTableCols db (Table v) in (r, log ++ [CallCols (Table v) r])
  else (Ok cols, log).

(** dump.go, lines 99-114: the rows of the table, or of the rendered query
    wrapped in parentheses. *)
Definition exportRows (render : engine) (db : DB) (manifest : Manifest)
    (v : ManifestItem) (w : Writer) (log : list call)
    : Writer * list call * option error :=
  if bool_decide (Query v = EmptyString)
  then dumpTable db w log (Table v)
  else
    let r := render (Query v) (Vars manifest) in
    let log1 := log ++ [CallRender (Query v) r] in
    match r with
    | Err e => (w, log1, Some e)
    | Ok query => dumpTable db w log1 (Sprintf "(%s)" [query])
    end.

(** dump.go, lines 90-119: the body of the loop of [MakeDump] for the entry
    [v] that [Next] returned. *)
Definition MakeDump_body (quote : quoter) (render : engine) (db : DB)
    (manifest : Manifest) (v : ManifestItem) (w : Writer) (log : list call)
    : Writer * list call * option error :=
  match resolveColumns db v log with
  | (Err e, log1) => (w, log1, Some e)
  | (Ok cols, log1) =>
      let w1 := beginTable quote w (Table v) cols in
      match exportRows render db manifest v w1 log1 with
      | (w2, log2, Some e) => (w2, log2, Some e)
      | (w2, log2, None) =>
          (foldl dumpSqlCmd (endTable w2) (PostActions v), log2, None)
      end
  end.

(** dump.go, lines 81-120: the loop of [MakeDump], run for at most [calls]
    rounds. *)
Fixpoint MakeDump_loop (quote : quoter) (render : engine) (db : DB)
    (manifest : Manifest) (calls fuel : nat) (iterator : ManifestIterator)
    (w : Writer) (log : list call) : Writer * list call * outcome :=
  match calls with
  | O => (w, log, OutOfFuel)
  | S calls' =>
      match Next db fuel iterator log with
      | None => (w, log, OutOfFuel)
      | Some (_, log', Err e) => (w, log', Failed e)
      | Some (_, log', Ok None) => (endDump w, log', Finished)
      | Some (iterator', log', Ok (Some v)) =>
          match MakeDump_body quote render db manifest v w log' with
          | (w', log'', Some e) => (w', log'', Failed e)
          | (w', log'', None) =>
              MakeDump_loop quote render db manifest calls' fuel iterator' w'
                log''
          end
      end
  end.

(** dump.go, lines 77-125.  [Finished] is the return of [nil], [Failed e]
    the return of the error [e]. *)
Definition MakeDump (quote : quoter) (render : engine) (db : DB)
    (manifest : Manifest) (w : Writer) (calls fuel : nat)
    : Writer * list call * outcome :=
  MakeDump_loop quote render db manifest calls fuel
    (NewManifestIterator manifest) (beginDump w) [].

(** ** The templating capability *)

(** The engine's own escaping of a substituted value. *)
Definition escape_byte (c : ascii) : string :=
  if bool_decide (c = "&"%char) then "&amp;"
  else if bool_decide (c = "<"%char) then "&lt;"
  else if bool_decide (c = ">"%char) then "&gt;"
  else if bool_decide (c = dquote) then "&#34;"
  else if bool_decide (c = "'"%char) then "&#39;"
  else String c EmptyString.

Fixpoint escape (s : string) : string :=
  match s with
  | EmptyString => EmptyString
  | String c rest => escape_byte c +:+ escape rest
  end.

(** Modelled from the spec: the templating capability of sections 4.2 and 6,
    which the library [mustache] provides and which is not part of the
    package: a name-to-value text substitution of the tags [{{name}}], with
    no escaping beyond the engine's own.  [tag] is [None] in plain text and
    holds the name read so far inside a tag; a name without a value renders
    as nothing, a tag left open is a failure. *)
Fixpoint substitute (vars : gmap string string) (tag : option string)
    (template : string) : result string :=
  match tag, template with
  | None, EmptyString => Ok EmptyString
  | None, String "{" (String "{" rest) => substitute vars (Some EmptyString) rest
  | None, String c rest =>
      match substitute vars None rest with
      | Ok out => Ok (String c out)
      | Err e => Err e
      end
  | Some name, EmptyString => Err "unmatched open tag"
  | Some name, String "}" (String "}" rest) =>
      match substitute vars None rest with
      | Ok out => Ok (escape (default EmptyString (vars !! name)) +:+ out)
      | Err e => Err e
      end
  | Some name, String c rest =>
      substitute vars (Some (name +:+ String c EmptyString)) rest
  end.

Definition Render : engine := fun template vars => substitute vars None template.

(** ** One pass through the body of [Next]

    [Next] either returns or calls itself on an updated iterator; [Next_pass]
    is the body up to that point, and [Next_unfold] below shows that [Next]
    iterates it. *)

Inductive pass : Type :=
  | Return (x : ManifestIterator * list call * result (option ManifestItem))
  | Again (m : ManifestIterator) (log : list call).

Definition Next_pass (db : DB) (m : ManifestIterator) (log : list call) : pass :=
  match stack m with
  | [] => Return (m, log, Ok None)
  | table :: rest =>
      let m1 := mkIter (todo m) (done m) rest in
      if negb (has_key (todo m1) table) then Again m1 log
      else
        let r := getTableDeps db table in
        let log1 := log ++ [CallDeps table r] in
        match r with
        | Err e => Return (m1, log1, Err e)
        | Ok deps =>
            let '(todo2, todoDeps) :=
              scanDeps table deps (todo m1) (done m1) [] in
            match todoDeps with
            | _ :: _ =>
                Again (mkIter todo2 (done m1) (todoDeps ++ table :: rest)) log1
            | [] =>
                let item := default zero_item (todo2 !! table) in
                Return (mkIter (delete table todo2)
                               (<[table := item]> (done m1)) rest,
                        log1, Ok (Some item))
            end
        end
  end.

(** ** The dependency graph and the vocabulary of the properties *)

(** [edge db table dep]: the schema inspector reports that [table] references
    [dep]. *)
Definition edge (db : DB) (table dep : string) : Prop :=
  exists deps, getTableDeps db table = Ok deps /\ dep ∈ deps.

Definition names (manifest : Manifest) : list string :=
  Table <$> Tables manifest.

(** The tables of the manifest's dependency graph: [t] is a manifest table
    or is reached from one through foreign keys. *)
Definition reachable (db : DB) (manifest : Manifest) (t : string) : Prop :=
  exists t0, t0 ∈ names manifest /\ rtc (edge db) t0 t.

(** The graph of the manifest is acyclic: none of its tables reaches itself
    through one or more edges. *)
Definition acyclic (db : DB) (manifest : Manifest) : Prop :=
  forall t, reachable db manifest t -> ~ tc (edge db) t t.

(** The graph of the manifest has finitely many tables, as that of any
    catalogue has. *)
Definition finite_graph (db : DB) (manifest : Manifest) : Prop :=
  exists U : gset string, forall t, reachable db manifest t -> t ∈ U.

(** The schema inspector answers the dependency lookup of every table of the
    graph. *)
Definition lookups_succeed (db : DB) (manifest : Manifest) : Prop :=
  forall t, reachable db manifest t ->
    exists deps, getTableDeps db t = Ok deps.

(** The last entry of the manifest for the table [t], if any. *)
Definition last_entry (manifest : Manifest) (t : string) : option ManifestItem :=
  last (filter (fun v => Table v = t) (Tables manifest)).

(** What the resolver holds for [t]: the manifest's last entry for it, or the
    synthetic default entry. *)
Definition entry_of (manifest : Manifest) (t : string) : ManifestItem :=
  default (default_item t) (last_entry manifest t).

(** [dep] occurs in [items] strictly before position [i]. *)
Definition emitted_before (items : list ManifestItem) (i : nat) (dep : string)
    : Prop :=
  exists j, j < i /\ Table <$> (items !! j) = Some dep.

(** [t] occurs at exactly one position of [items], and there as [v]. *)
Definition emitted_once_as (items : list ManifestItem) (t : string)
    (v : ManifestItem) : Prop :=
  exists i, items !! i = Some v /\
    forall j v', items !! j = Some v' -> Table v' = t -> j = i.

(** ** Invariants of the iterator between calls *)

Record Inv (db : DB) (manifest : Manifest) (m : ManifestIterator) : Prop := {
  inv_disjoint : forall k, is_Some (todo m !! k) -> done m !! k = None;
  inv_closed : forall k d,
    is_Some (done m !! k) -> edge db k d -> d <> k -> is_Some (done m !! d);
  inv_item : forall k v,
    todo m !! k = Some v \/ done m !! k = Some v -> v = entry_of manifest k;
  inv_names : forall k,
    k ∈ names manifest -> is_Some (todo m !! k) \/ is_Some (done m !! k);
  inv_reach : forall k,
    is_Some (todo m !! k) \/ is_Some (done m !! k) -> reachable db manifest k
}.

(** Every table still to do is on the pending stack. *)
Definition Covered (m : ManifestIterator) : Prop :=
  forall k, is_Some (todo m !! k) -> k ∈ stack m.

(** The loop over [deps] enters a default entry for the dependencies that are
    neither to do nor done, and changes nothing else. *)
Definition grown (todo0 done0 : gmap string ManifestItem) (deps : list string)
    (todo2 : gmap string ManifestItem) : Prop :=
  forall k v, todo2 !! k = Some v <->
    todo0 !! k = Some v \/
    (todo0 !! k = None /\ done0 !! k = None /\ k ∈ deps /\ v = default_item k).

(** No table from which [a] is reached has been returned. *)
Definition Unreturned (db : DB) (a : string) (m : ManifestIterator) : Prop :=
  forall t, rtc (edge db) t a -> done m !! t = None.

(** ** The call log *)

Inductive phase : Type :=
  | MetadataLookup
  | TemplateRendering
  | RowExport.

(** The stage of a call and what it was about: the table of a lookup, the
    template of a rendering, the statement of an export. *)
Definition call_site (c : call) : phase * string :=
  match c with
  | CallDeps table _ => (MetadataLookup, table)
  | CallCols table _ => (MetadataLookup, table)
  | CallRender template _ => (TemplateRendering, template)
  | CallCopy sql _ => (RowExport, sql)
  end.

(** The logged result is the collaborator's answer. *)
Definition truthful (render : engine) (db : DB) (manifest : Manifest)
    (c : call) : Prop :=
  match c with
  | CallDeps table r => r = getTableDeps db table
  | CallCols table r => r = getTableCols db table
  | CallRender template r => r = render template (Vars manifest)
  | CallCopy sql r => r = CopyTo db sql
  end.

(** No call of the log failed. *)
Definition clean (log : list call) : Prop :=
  Forall (fun c => call_error c = None) log.

(** The last call of the log failed with [e], and no call before it
    failed. *)
Definition aborted_at (log : list call) (e : error) : Prop :=
  exists pre c, log = pre ++ [c] /\ clean pre /\ call_error c = Some e.

(** [log'] continues [log] with answers of the collaborators, none of them
    a failure, or just the last when [err] is an error. *)
Definition extends (render : engine) (db : DB) (manifest : Manifest)
    (log log' : list call) (err : option error) : Prop :=
  exists ext, log' = log ++ ext /\
    Forall (truthful render db manifest) ext /\
    match err with
    | None => clean ext
    | Some e => aborted_at ext e
    end.

Definition result_error {A : Type} (r : result A) : option error :=
  match r with
  | Ok _ => None
  | Err e => Some e
  end.

Definition outcome_error (out : outcome) : option error :=
  match out with
  | Failed e => Some e
  | _ => None
  end.

(** ** The catalogue query of [getTableCols] (dump.go, lines 257-265)

    The statement selects [attname] from [pg_catalog.pg_attribute] where
    [attrelid] is the table, [attnum > 0] and [attisdropped = FALSE], ordered
    by [attnum]; the cast of the table name to [regclass] fails for a name
    that is no relation. *)

Record pg_attribute : Type := mkAttr {
  attrelid : string;
  attname : string;
  attnum : Z;
  attisdropped : bool
}.

Definition live_column (table : string) (a : pg_attribute) : Prop :=
  attrelid a = table /\ (attnum a > 0)%Z /\ attisdropped a = false.

Global Instance live_column_dec table a : Decision (live_column table a).
Proof. unfold live_column. apply _. Defined.

Definition by_attnum (a b : pg_attribute) : Prop :=
  (attnum a <= attnum b)%Z.

Global Instance by_attnum_dec : RelDecision by_attnum.
Proof. intros a b. unfold by_attnum. apply _. Defined.



(** ** The vocabulary of the writer's properties *)

Definition concat_strings (l : list string) : string :=
  foldr String.append EmptyString l.

(** The bytes asked of the sink, in the order of the writes. *)
Definition asked (w : Writer) : string := concat_strings (written w).

(** A sink that takes every write whole. *)
Definition reliable (w : Writer) : Prop :=
  forall before p, takes w before p = p.

(** [w'] is the sink [w] after writes that make up [text]: it behaves as
    [w] does, it has been asked [text] after what [w] had been asked, and it
    holds [text] after what [w] held if it takes every write whole.  What a
    sink holds that rejects a write is left open. *)
Definition wrote (w w' : Writer) (text : string) : Prop :=
  takes w' = takes w /\
  asked w' = asked w +:+ text /\
  (reliable w -> held w' = held w +:+ text).

(** The header of a data block. *)
Definition table_header (quote : quoter) (table : string)
    (columns : list string) : string :=
  "
--
-- Data for Name: " +:+ table +:+ "; Type: TABLE DATA
--

COPY " +:+ table +:+ " (" +:+ Join (quote <$> columns) ", " +:+ ") FROM stdin;
".



Definition in_dquotes (s : string) : string :=
  String dquote (s +:+ String dquote EmptyString).


(** The byte [x] does not occur in [s]. *)
Fixpoint lacks (x : ascii) (s : string) : bool :=
  match s with
  | EmptyString => true
  | String c s' => negb (Ascii.eqb c x) && lacks x s'
  end.

(** [p] occurs somewhere in [s]. *)
Definition occurs_in (p s : string) : Prop :=
  exists pre post, s = pre +:+ p +:+ post.

Fixpoint occursb (p s : string) : bool :=
  String.prefix p s ||
  match s with
  | EmptyString => false
  | String _ s' => occursb p s'
  end.

(** ** The framing as section 6 of the specification prints it

    The preamble of the output document as the specification gives it, for
    comparison with [BEGIN_DUMP]; [comment] stands for the comment line that
    the specification leaves open. *)
Definition spec_preamble_rest : string := "
--

BEGIN;

SET statement_timeout = 0;
SET lock_timeout = 0;
SET client_encoding = 'UTF8';
SET standard_conforming_strings = on;
SET check_function_bodies = false;
SET client_min_messages = warning;
SET search_path = public, pg_catalog;
".

Definition spec_preamble (comment : string) : string :=
  "--
-- " +:+ comment +:+ spec_preamble_rest.

(** ** Sample sinks, catalogues and manifests *)

(** A sink in memory, empty, that takes every write, as a [bytes.Buffer]
    does. *)
Definition buffer : Writer := mkWriter EmptyString [] (fun _ p => p).

(** A sink that takes nothing of any write, as a pipe does whose reader
    has gone. *)
Definition broken_pipe : Writer :=
  mkWriter EmptyString [] (fun _ _ => EmptyString).

(** The quoting of the samples, whose names are all plain: the name between
    double quotes, which is what [strconv.Quote] writes for a plain name. *)
Definition sample_quote : quoter := in_dquotes.

Definition plain (table : string) : ManifestItem :=
  mkItem table EmptyString [] [].

(** Three tables: [orders] references [users] and [products], [products]
    references [vendors], which no manifest below names. *)
Definition shop_db : DB :=
  mkDB (fun _ => Ok ["id"; "name"])
       (fun t => if bool_decide (t = "orders") then Ok ["users"; "products"]
                 else if bool_decide (t = "products") then Ok ["vendors"]
                 else Ok [])
       (fun _ => ("1	x
", None)).

Definition shop_rank (t : string) : nat :=
  if bool_decide (t = "orders") then 2
  else if bool_decide (t = "products") then 1 else 0.

Definition shop_manifest : Manifest :=
  mkManifest ∅ [plain "orders"; plain "users"; plain "products"].

(** Two tables that reference each other. *)
Definition cycle_db : DB :=
  mkDB (fun _ => Ok ["id"])
       (fun t => if bool_decide (t = "employees") then Ok ["departments"]
                 else if bool_decide (t = "departments") then Ok ["employees"]
                 else Ok [])
       (fun _ => (EmptyString, None)).

Definition cycle_manifest : Manifest :=
  mkManifest ∅ [plain "employees"].

(** A manifest that names [users] twice. *)
Definition twice_manifest : Manifest :=
  mkManifest ∅ [mkItem "users" "SELECT 1" ["id"] ["ANALYZE users"];
                plain "orders";
                mkItem "users" "SELECT 2" ["name"] []].

(** A connection that is lost at the dependency lookup of [users]. *)
Definition lost_at_lookup_db : DB :=
  mkDB (fun _ => Ok ["id"])
       (fun t => if bool_decide (t = "users") then Err "connection lost"
                 else Ok [])
       (fun _ => (EmptyString, None)).

(** A connection that is lost at the row export of [orders]. *)
Definition lost_at_export_db : DB :=
  mkDB (fun _ => Ok ["id"])
       (fun _ => Ok [])
       (fun sql => if bool_decide (sql = "COPY orders TO STDOUT")
                   then ("1	", Some "connection lost")
                   else (EmptyString, None)).

(** The manifest entry of the specification's example for templates. *)
Definition active_users_manifest : Manifest :=
  mkManifest {[ "t" := "users" ]}
    [mkItem "active_users" "SELECT * FROM {{t}} WHERE active" [] []].



(** ** Vocabulary of the further properties of the resolver *)

(** A reference of a table to another table: the self-references are the
    dependencies that [Next] leaves aside (dump.go, line 200). *)
Definition proper_edge (db : DB) (table dep : string) : Prop :=
  edge db table dep /\ dep <> table.

(** The graph of the manifest has no cycle apart from self-references. *)
Definition acyclic_apart_from_self (db : DB) (manifest : Manifest) : Prop :=
  forall t, reachable db manifest t -> ~ tc (proper_edge db) t t.

(** Tables that reference themselves: [nodes] points at its own parent, and
    [marks] references [nodes] and itself. *)
Definition tree_db : DB :=
  mkDB (fun _ => Ok ["id"])
       (fun t => if bool_decide (t = "nodes") then Ok ["nodes"]
                 else if bool_decide (t = "marks") then Ok ["marks"; "nodes"]
                 else Ok [])
       (fun _ => (EmptyString, None)).

Definition tree_rank (t : string) : nat :=
  if bool_decide (t = "marks") then 1 else 0.

Definition tree_manifest : Manifest :=
  mkManifest ∅ [plain "marks"; plain "nodes"].

(** ** The catalogue query of [getTableDeps] (dump.go, lines 283-289)

    The statement selects [confrelid], shown as a table name, from
    [pg_catalog.pg_constraint] where [conrelid] is the table and [contype] is
    ['f']; the cast of the table name to [regclass] fails for a name that is
    no relation. *)

Record pg_constraint : Type := mkConstraint {
  conrelid : string;
  confrelid : string;
  contype : ascii
}.

Definition foreign_key_of (table : string) (c : pg_constraint) : Prop :=
  conrelid c = table /\ contype c = "f"%char.

Global Instance foreign_key_of_dec table c : Decision (foreign_key_of table c).
Proof. unfold foreign_key_of. apply _. Defined.

Definition select_constraints (catalog : list pg_constraint) (table : string)
    : list string :=
  confrelid <$> filter (foreign_key_of table) catalog.

Definition pg_query_constraints (relations : list string)
    (catalog : list pg_constraint) (table : string) : result (list string) :=
  if bool_decide (table ∈ relations)
  then Ok (select_constraints catalog table)
  else Err "relation does not exist".

(** A catalogue of constraints: two foreign keys from [orders] to [users],
    one to [products], and a check constraint. *)
Definition orders_constraints : list pg_constraint :=
  [mkConstraint "orders" "users" "f"; mkConstraint "orders" "products" "f";
   mkConstraint "orders" "users" "f"; mkConstraint "orders" "orders" "c"].

Definition orders_db : DB :=
  mkDB (fun _ => Ok ["id"])
       (pg_query_constraints ["orders"; "users"; "products"] orders_constraints)
       (fun _ => (EmptyString, None)).

(** ** The document of a run, written out

    What [MakeDump] is shown below to write for the entries that the
    resolver returns; the definitions follow the calls of [fmt.Fprintf] in
    dump.go, lines 217-240, with their formats filled in. *)

(** The columns of the header of [v]. *)
Definition block_columns (db : DB) (v : ManifestItem) : list string :=
  match Columns v with
  | [] => match getTableCols db (Table v) with
          | Ok cols => cols
          | Err _ => []
          end
  | _ :: _ => Columns v
  end.

(** What the rows of [v] are copied from: the table, or the rendered query
    in parentheses. *)
Definition block_source (render : engine) (manifest : Manifest)
    (v : ManifestItem) : string :=
  if decide (Query v = EmptyString) then Table v
  else match render (Query v) (Vars manifest) with
       | Ok query => "(" +:+ query +:+ ")"
       | Err _ => EmptyString
       end.

Definition block_statement (render : engine) (manifest : Manifest)
    (v : ManifestItem) : string :=
  "COPY " +:+ block_source render manifest v +:+ " TO STDOUT".

(** A post-load statement as written. *)
Definition sql_command (v : string) : string :=
  "
" +:+ v +:+ ";
".

Definition block (quote : quoter) (render : engine) (db : DB)
    (manifest : Manifest) (v : ManifestItem) : string :=
  table_header quote (Table v) (block_columns db v) +:+
  (CopyTo db (block_statement render manifest v)).1 +:+
  END_TABLE_DUMP +:+
  concat_strings (sql_command <$> PostActions v).

Definition document (quote : quoter) (render : engine) (db : DB)
    (manifest : Manifest) (items : list ManifestItem) : string :=
  BEGIN_DUMP +:+ concat_strings (block quote render db manifest <$> items) +:+
  END_DUMP.

(** * The command (main.go) *)

(** ** What the command reads from its surroundings *)

Definition newline : string := String "010"%char EmptyString.

Module flags.
(** The struct [opts] of [parseArgs] as [parser.Parse] leaves it, with the
    defaults and the environment variables that the library applies. *)
Record opts : Type := mkOpts {
  Host : string;
  Port : string;
  Username : string;
  NoPasswordPrompt : bool;
  ManifestFile : string;
  OutputFile : string;
  UseTLS : bool;
  Help : bool
}.
End flags.

Module pg.
(** The fields of [pg.Options] that [main] sets. *)
Record Options : Type := mkOptions {
  Addr : string;
  Database : string;
  SSL : bool;
  User : string;
  Password : string
}.
End pg.

(** main.go, lines 318-328 *)
Record Options : Type := mkOptions {
  Host : string;
  Port : Z;
  Username : string;
  NoPasswordPrompt : bool;
  Password : string;
  ManifestFile : string;
  OutputFile : string;
  Database : string;
  UseTLS : bool
}.

(** The operating system, the terminal, the server and the libraries, as
    the answers they give to the command.  A connection is made lazily by
    [pg.Connect]; whether it works shows at the first query, and may differ
    from one attempt to the next, so that both are indexed by the attempt. *)
Record OS : Type := mkOS {
  (* parser.Parse(): the struct filled and the remaining arguments *)
  Parse : result (flags.opts * list string);
  (* the text of parser.WriteHelp *)
  usage : string;
  Getenv : string -> string;
  (* user.Current(), its field Username *)
  Current : result string;
  (* os.OpenFile(name, O_WRONLY|O_TRUNC|O_CREATE, 0666) *)
  OpenFile : string -> option error;
  Connect : nat -> pg.Options -> DB;
  (* the query SELECT 1 AS x on the connection of that attempt *)
  select_1 : nat -> pg.Options -> option error;
  (* terminal.ReadPassword(stdin) *)
  ReadPassword : string * option error;
  (* os.Open(name), then ioutil.ReadAll of the file *)
  Open : string -> result (result string);
  (* yaml.Unmarshal(data, &manifest): the struct as left, and the error *)
  Unmarshal : string -> Manifest -> Manifest * option error;
  mustache : engine;
  strconv_Quote : quoter;
  (* how the standard streams and a file opened for writing take a write *)
  stdout_takes : list string -> string -> string;
  stderr_takes : list string -> string -> string;
  file_takes : string -> list string -> string -> string
}.

(** The sinks of the process: its standard streams, and the output file
    once it has opened it. *)
Record Streams : Type := mkStreams {
  stdout : Writer;
  stderr : Writer;
  file : option Writer
}.

(** A sink that nothing has been written to. *)
Definition fresh (takes : list string -> string -> string) : Writer :=
  mkWriter EmptyString [] takes.

Definition start (os : OS) : Streams :=
  mkStreams (fresh (stdout_takes os)) (fresh (stderr_takes os)) None.

Definition to_stdout (s : Streams) (text : string) : Streams :=
  mkStreams (Write (stdout s) text) (stderr s) (file s).

Definition to_stderr (s : Streams) (text : string) : Streams :=
  mkStreams (stdout s) (Write (stderr s) text) (file s).

(** A function of the command returns, or ends the process by [os.Exit]. *)
Inductive step (A : Type) : Type :=
  | Continue (a : A) (s : Streams)
  | Exit (code : Z) (s : Streams).
Arguments Continue {A} a s.
Arguments Exit {A} code s.

(** [fmt.Fprintf(os.Stderr, "Error: %v\n", err)]; the verb prints the
    message of the error. *)
Definition report (s : Streams) (err : error) : Streams :=
  to_stderr s ("Error: " +:+ err +:+ newline).

(** ** [strconv.Atoi], for an [int] of 64 bits

    An optional sign, then one or more decimal digits, the value within the
    range of [int]; the error, which [parseArgs] drops, is not modelled. *)
Definition digit (c : ascii) : option Z :=
  let n := nat_of_ascii c in
  if (48 <=? n) && (n <=? 57) then Some (Z.of_nat (n - 48)) else None.

Fixpoint digits (n : Z) (s : string) : option Z :=
  match s with
  | EmptyString => Some n
  | String ch s' =>
      match digit ch with
      | Some d => digits (n * 10 + d)%Z s'
      | None => None
      end
  end.

Definition signed (s : string) : bool :=
  match s with
  | String c _ => bool_decide (c = "-"%char) || bool_decide (c = "+"%char)
  | EmptyString => false
  end.

Definition negative (s : string) : bool :=
  match s with
  | String c _ => bool_decide (c = "-"%char)
  | EmptyString => false
  end.

Definition Atoi (s0 : string) : option Z :=
  let s := if signed s0
           then match s0 with String _ rest => rest | EmptyString => s0 end
           else s0 in
  match s with
  | EmptyString => None
  | _ =>
      match digits 0 s with
      | None => None
      | Some n =>
          let v := if negative s0 then (- n)%Z else n in
          if ((- 2 ^ 63 <=? v) && (v <=? 2 ^ 63 - 1))%Z then Some v else None
      end
  end.

(** ** main.go, lines 330-403 *)

Definition parseArgs (os : OS) (s : Streams) : step (result Options) :=
  match Parse os with
  | Err err => Continue (Err err) (to_stderr s (usage os))
  | Ok (opts, args) =>
      if flags.Help opts then Exit 0 (to_stdout s (usage os))
      else if bool_decide (flags.ManifestFile opts = EmptyString)
      then Continue
             (Err "required flag `-f, --manifest-file` not specified")
             (to_stderr s (usage os))
      else
        match (if bool_decide (flags.Username opts = EmptyString)
               then Current os else Ok (flags.Username opts)) with
        | Err _ => Continue (Err "failed to get current user") s
        | Ok username =>
            match Atoi (flags.Port opts) with
            | None => Continue (Err "port must be a number 0-65535")
                        (to_stderr s (usage os))
            | Some port =>
                let options Database :=
                  mkOptions (flags.Host opts) port username
                    (flags.NoPasswordPrompt opts) (Getenv os "PGPASSWORD")
                    (flags.ManifestFile opts) (flags.OutputFile opts)
                    Database (flags.UseTLS opts) in
                match args with
                | [] => Continue (Ok (options (Getenv os "PGDATABASE"))) s
                | [arg] => Continue (Ok (options arg)) s
                | _ => Continue
                         (Err "only one database may be specified at a time")
                         (to_stderr s (usage os))
                end
            end
        end
  end.

(** ** main.go, lines 405-422 *)

Definition connectDB (os : OS) (attempt : nat) (opts : pg.Options)
    : result DB :=
  match select_1 os attempt opts with
  | Some err => Err err
  | None => Ok (Connect os attempt opts)
  end.

Definition readPassword (os : OS) (s : Streams) (username : string)
    : Streams * (string * option error) :=
  let s1 := to_stderr s ("Password for " +:+ username +:+ ": ") in
  let r := ReadPassword os in
  (to_stdout s1 newline, r).

(** ** dump.go, lines 127-143 and 162-172 *)

Definition readManifest (os : OS) (r : result string) : result Manifest :=
  match r with
  | Err err => Err err
  | Ok data =>
      let manifest := mkManifest ∅ [] in
      Ok (Unmarshal os data manifest).1
  end.

Definition NewManifest (os : OS) (s : Streams) (manifestFile : string)
    : step Manifest :=
  match Open os manifestFile with
  | Err err => Exit 1 (report s err)
  | Ok file =>
      match readManifest os file with
      | Err err => Exit 1 (report s err)
      | Ok manifest => Continue manifest s
      end
  end.

(** ** main.go, lines 424-484 *)

(** [&pg.Options{...}] of lines 443-449 and 462-468; [%d] prints the port in
    decimal. *)
Definition connection (opts : Options) (password : string) : pg.Options :=
  pg.mkOptions (Host opts +:+ ":" +:+ pretty (Port opts)) (Database opts)
    (UseTLS opts) (Username opts) password.

(** The sink [output], and the streams after the writes that have made
    [w] of it. *)
Definition output (opts : Options) (s : Streams) : Writer :=
  if bool_decide (OutputFile opts = EmptyString) then stdout s
  else default (stdout s) (file s).

Definition output_write (opts : Options) (s : Streams) (w : Writer)
    : Streams :=
  if bool_decide (OutputFile opts = EmptyString)
  then mkStreams w (stderr s) (file s)
  else mkStreams (stdout s) (stderr s) (Some w).

(** The streams once the output file, if one is named, has been opened:
    the file is new or emptied, and nothing has been written to it. *)
Definition opened (os : OS) (opts : Options) : Streams :=
  if bool_decide (OutputFile opts = EmptyString) then start os
  else mkStreams (stdout (start os)) (stderr (start os))
         (Some (fresh (file_takes os (OutputFile opts)))).

(** The prompt of [readPassword], and whether a run that has tried the
    connections [tried] has prompted. *)
Definition password_prompt (username : string) : string :=
  "Password for " +:+ username +:+ ": ".

Definition prompted (opts : Options) (tried : list pg.Options) : bool :=
  bool_decide (length tried = 2) && negb (NoPasswordPrompt opts).

(** A run of the command that ends: the exit status, what it has written,
    and the connections it has tried in their order. *)
Definition run : Type := Z * Streams * list pg.Options.

(** Lines 475-483, with [db] connected. *)
Definition main_dump (os : OS) (opts : Options) (db : DB) (s : Streams)
    (tried : list pg.Options) (calls fuel : nat) : option run :=
  match NewManifest os s (ManifestFile opts) with
  | Exit code s1 => Some (code, s1, tried)
  | Continue manifest s1 =>
      match MakeDump (strconv_Quote os) (mustache os) db manifest
              (output opts s1) calls fuel with
      | (_, _, OutOfFuel) => None
      | (w, _, Finished) => Some (0%Z, output_write opts s1 w, tried)
      | (w, _, Failed err) =>
          Some (1%Z, report (output_write opts s1 w) err, tried)
      end
  end.

(** Lines 442-473, with the options parsed and the output opened. *)
Definition main_connect (os : OS) (opts : Options) (s : Streams)
    (calls fuel : nat) : option run :=
  let first := connection opts (Password opts) in
  match connectDB os 0 first with
  | Ok db => main_dump os opts db s [first] calls fuel
  | Err _ =>
      let '(s1, (password, err)) :=
        if NoPasswordPrompt opts then (s, (Password opts, None))
        else readPassword os s (Username opts) in
      match err with
      | Some err => Some (1%Z, report s1 err, [first])
      | None =>
          let second := connection opts password in
          match connectDB os 1 second with
          | Err err => Some (1%Z, report s1 err, [first; second])
          | Ok db => main_dump os opts db s1 [first; second] calls fuel
          end
      end
  end.

(** [main]; [None] when the dump has not ended within [calls] rounds of the
    loop of [MakeDump] and [fuel] passes of each call of [Next].  [None]
    stands also for the process that the Go runtime ends because the
    recursion of [Next] has used up the stack: Go does not reuse the frame
    of a call in tail position. *)
Definition main (os : OS) (calls fuel : nat) : option run :=
  match parseArgs os (start os) with
  | Exit code s => Some (code, s, [])
  | Continue (Err err) s => Some (1%Z, report s err, [])
  | Continue (Ok opts) s =>
      if bool_decide (OutputFile opts = EmptyString)
      then main_connect os opts s calls fuel
      else
        match OpenFile os (OutputFile opts) with
        | Some err => Some (1%Z, report s err, [])
        | None =>
            main_connect os opts
              (mkStreams (stdout s) (stderr s)
                 (Some (fresh (file_takes os (OutputFile opts)))))
              calls fuel
        end
  end.

(** ** A sample of the surroundings *)

(** A terminal at which a password is typed, a readable manifest, a
    writable output file, and the server of [shop_db], which accepts the
    attempts that [up] selects. *)
Definition sample_os (opts : flags.opts) (up : nat -> bool)
    (decoded : Manifest * option error) : OS :=
  mkOS (Ok (opts, ["shop"])) "Usage: pg_dump_sample [options] database"
    (fun _ => EmptyString) (Ok "ada") (fun _ => None)
    (fun _ _ => shop_db)
    (fun attempt _ => if up attempt then None else Some "connection refused")
    ("secret", None) (fun _ => Ok (Ok "tables: [{table: users}]"))
    (fun _ _ => decoded) Render sample_quote
    (fun _ p => p) (fun _ p => p) (fun _ _ p => p).

Definition sample_flags (port output : string) : flags.opts :=
  flags.mkOpts "localhost" port "ada" false "manifest.yml" output false false.

(** The server refuses the first attempt and accepts the second; the dump
    goes to the standard output. *)
Definition prompting_os : OS :=
  sample_os (sample_flags "5432" EmptyString)
    (fun attempt => bool_decide (attempt = 1)) (twice_manifest, None).



(** The port of the command line is 70000. *)
Definition wide_port_os : OS :=
  sample_os (sample_flags "70000" EmptyString) (fun _ => true)
    (twice_manifest, None).

(** * Properties *)

(** ** Basic facts *)

Lemma collect_app (acc model : list string) :
  foldl (fun xs v => xs ++ [v]) acc model = acc ++ model.
Proof.
  revert acc; induction model as [|v model IH]; intros acc; simpl.
  - by rewrite app_nil_r.
  - rewrite IH, <- app_assoc. done.
Qed.

Lemma collect_id (model : list string) : collect model = model.
Proof. apply collect_app. Qed.

Lemma has_key_true (m : gmap string ManifestItem) k :
  has_key m k = true <-> is_Some (m !! k).
Proof. unfold has_key. by rewrite bool_decide_eq_true. Qed.

Lemma has_key_false (m : gmap string ManifestItem) k :
  has_key m k = false <-> m !! k = None.
Proof.
  unfold has_key. rewrite bool_decide_eq_false, <- eq_None_not_Some. done.
Qed.

Lemma Next_unfold db fuel m log :
  Next db (S fuel) m log =
  match Next_pass db m log with
  | Return x => Some x
  | Again m' log' => Next db fuel m' log'
  end.
Proof.
  unfold Next_pass; simpl.
  destruct (stack m) as [|table rest]; [done|].
  destruct (negb (has_key (todo m) table)); [done|].
  destruct (getTableDeps db table) as [deps|e]; [|done].
  destruct (scanDeps table deps (todo m) (done m) []) as [todo2 [|d tds]]; done.
Qed.

(** The loop over the dependencies: what it leaves in [todo] and which
    dependencies it collects. *)
Lemma scanDeps_spec table deps :
  forall todo0 done0 acc todo2 tds,
  scanDeps table deps todo0 done0 acc = (todo2, tds) ->
  (forall k v, todo2 !! k = Some v <->
     todo0 !! k = Some v \/
     (todo0 !! k = None /\ done0 !! k = None /\ k ∈ deps /\ v = default_item k))
  /\
  (forall d, d ∈ tds <->
     d ∈ acc \/
     (d ∈ deps /\ (is_Some (todo0 !! d) \/ done0 !! d = None) /\ table <> d)).
Proof.
  induction deps as [|dep deps IH]; intros todo0 done0 acc todo2 tds Hs; simpl in Hs.
  - inversion Hs; subst. split.
    + intros k v. split; [by left|]. intros [?|(_ & _ & Hin & _)]; [done|].
      by apply elem_of_nil in Hin.
    + intros d. split; [by left|]. intros [?|(Hin & _)]; [done|].
      by apply elem_of_nil in Hin.
  - apply IH in Hs as [Htodo Htds]. clear IH. split.
    + intros k v. rewrite Htodo. clear Htodo Htds.
      destruct (has_key todo0 dep) eqn:Ht; simpl.
      * apply has_key_true in Ht.
        split; [intros [?|(?&?&?&?)]; [by left|right; set_solver]|].
        intros [?|(Hn&?&Hin&?)]; [by left|].
        apply elem_of_cons in Hin as [-> |Hin].
        -- rewrite Hn in Ht. by destruct Ht.
        -- by right.
      * apply has_key_false in Ht.
        destruct (has_key done0 dep) eqn:Hd; simpl.
        -- apply has_key_true in Hd.
           split; [intros [?|(?&?&?&?)]; [by left|right; set_solver]|].
           intros [?|(?&Hn&Hin&?)]; [by left|].
           apply elem_of_cons in Hin as [-> |Hin].
           ++ rewrite Hn in Hd. by destruct Hd.
           ++ by right.
        -- apply has_key_false in Hd.
           destruct (decide (k = dep)) as [-> |Hne].
           ++ rewrite lookup_insert_eq. split.
              ** intros [Heq|(Heq&_)]; [|done].
                 inversion Heq; subst. right. set_solver.
              ** intros [Heq|(_&_&_&->)]; [congruence|by left].
           ++ rewrite !lookup_insert_ne by done. split.
              ** intros [?|(?&?&?&?)]; [by left|right; set_solver].
              ** intros [?|(?&?&Hin&?)]; [by left|].
                 apply elem_of_cons in Hin as [?|Hin]; [done|by right].
    + intros d. rewrite Htds. clear Htodo Htds.
      assert (Hkey :
        has_key (if negb (has_key todo0 dep) && negb (has_key done0 dep)
                 then <[dep:=default_item dep]> todo0 else todo0) dep = true
        <-> (is_Some (todo0 !! dep) \/ done0 !! dep = None)).
      { destruct (has_key todo0 dep) eqn:Ht; simpl.
        - split; [|done]. intros _. left. by apply has_key_true.
        - apply has_key_false in Ht.
          destruct (has_key done0 dep) eqn:Hd; simpl.
          + apply has_key_true in Hd. rewrite has_key_true. split; [by left|].
            intros [?|Hn]; [done|]. rewrite Hn in Hd. by destruct Hd.
          + apply has_key_false in Hd. rewrite has_key_true, lookup_insert_eq.
            split; [by right|by eauto]. }
      assert (Hrest : forall P : Prop,
        (d ∈ deps /\ P) \/ (d = dep /\ P) <-> (d ∈ dep :: deps /\ P)).
      { intros P. rewrite elem_of_cons. tauto. }
      set (todo1 := if negb (has_key todo0 dep) && negb (has_key done0 dep)
                    then <[dep:=default_item dep]> todo0 else todo0) in *.
      assert (Hmono : forall x, x ∈ deps ->
        (is_Some (todo1 !! x) \/ done0 !! x = None) <->
        (is_Some (todo0 !! x) \/ done0 !! x = None)).
      { intros x _. subst todo1.
        destruct (negb (has_key todo0 dep) && negb (has_key done0 dep)) eqn:Hc;
          [|done].
        apply andb_true_iff in Hc as [_ Hd].
        apply negb_true_iff, has_key_false in Hd.
        destruct (decide (x = dep)) as [-> |Hne].
        - rewrite lookup_insert_eq. split; [by right|by left; eauto].
        - by rewrite lookup_insert_ne. }
      destruct (has_key todo1 dep && negb (bool_decide (table = dep))) eqn:Hc.
      * apply andb_true_iff in Hc as [Hk Hne].
        apply Hkey in Hk. apply negb_true_iff, bool_decide_eq_false in Hne.
        rewrite elem_of_app, list_elem_of_singleton, elem_of_cons.
        split.
        -- intros [[Hacc| ->]|(Hin&Ho&Hne')].
           ++ by left.
           ++ right. split; [by left|]. by split.
           ++ right. split; [by right|]. split; [|done]. by apply Hmono.
        -- intros [Hacc|([-> |Hin]&Ho&Hne')].
           ++ by left; left.
           ++ by left; right.
           ++ right. split; [done|]. split; [|done]. by apply Hmono.
      * rewrite elem_of_cons. split.
        -- intros [Hacc|(Hin&Ho&Hne')]; [by left|].
           right. split; [by right|]. split; [|done]. by apply Hmono.
        -- intros [Hacc|([-> |Hin]&Ho&Hne)]; [by left| |].
           ++ apply Hkey in Ho. rewrite Ho in Hc. simpl in Hc.
              apply negb_false_iff, bool_decide_eq_true in Hc. done.
           ++ right. split; [done|]. split; [|done]. by apply Hmono.
Qed.

(** The five ways through the body of [Next]: the stack is empty; the front
    of the stack is no longer to do; the dependency lookup fails; some
    dependencies are outstanding; the table is returned. *)
Lemma Next_pass_cases db m log :
  (stack m = [] /\ Next_pass db m log = Return (m, log, Ok None))
  \/ (exists table rest,
        stack m = table :: rest /\ todo m !! table = None /\
        Next_pass db m log = Again (mkIter (todo m) (done m) rest) log)
  \/ (exists table rest item e,
        stack m = table :: rest /\ todo m !! table = Some item /\
        getTableDeps db table = Err e /\
        Next_pass db m log =
          Return (mkIter (todo m) (done m) rest,
                  log ++ [CallDeps table (Err e)], Err e))
  \/ (exists table rest item deps todo2 d tds,
        stack m = table :: rest /\ todo m !! table = Some item /\
        getTableDeps db table = Ok deps /\
        grown (todo m) (done m) deps todo2 /\
        (forall x, x ∈ d :: tds <->
           x ∈ deps /\ is_Some (todo2 !! x) /\ x <> table) /\
        Next_pass db m log =
          Again (mkIter todo2 (done m) ((d :: tds) ++ table :: rest))
                (log ++ [CallDeps table (Ok deps)]))
  \/ (exists table rest item deps,
        stack m = table :: rest /\ todo m !! table = Some item /\
        getTableDeps db table = Ok deps /\
        (forall x, x ∈ deps -> x <> table ->
           todo m !! x = None /\ is_Some (done m !! x)) /\
        Next_pass db m log =
          Return (mkIter (delete table (todo m))
                         (<[table := item]> (done m)) rest,
                  log ++ [CallDeps table (Ok deps)], Ok (Some item))).
Proof.
  unfold Next_pass.
  destruct (stack m) as [|table rest] eqn:Hst; [by left|]. right. simpl.
  destruct (has_key (todo m) table) eqn:Hk; simpl.
  2:{ left. apply has_key_false in Hk. by exists table, rest. }
  right. apply has_key_true in Hk as [item Hitem].
  destruct (getTableDeps db table) as [deps|e] eqn:Hdeps.
  2:{ left. by exists table, rest, item, e. }
  right.
  destruct (scanDeps table deps (todo m) (done m) []) as [todo2 tds0] eqn:Hs.
  apply scanDeps_spec in Hs as [Htodo Htds].
  assert (Hout : forall x, x ∈ tds0 <->
            x ∈ deps /\ is_Some (todo2 !! x) /\ x <> table).
  { intros x. rewrite Htds. split.
    - intros [Hnil|(Hin & Ho & Hne)]; [by apply elem_of_nil in Hnil|].
      split; [done|]. split; [|done].
      destruct Ho as [[v Hv]|Hd].
      + exists v. apply Htodo. by left.
      + destruct (todo m !! x) as [v|] eqn:Hx.
        * exists v. apply Htodo. by left.
        * exists (default_item x). apply Htodo. right. done.
    - intros (Hin & [v Hv] & Hne). right. split; [done|]. split; [|done].
      apply Htodo in Hv as [Hv|(_ & Hd & _)]; [left; eauto|by right]. }
  destruct tds0 as [|d tds].
  - right. exists table, rest, item, deps.
    assert (Hnone : forall x, x ∈ deps -> x <> table ->
              todo m !! x = None /\ is_Some (done m !! x)).
    { intros x Hin Hne.
      assert (Hx : todo2 !! x = None).
      { apply eq_None_not_Some. intros Hsome.
        assert (x ∈ @nil string) as Hnil by (apply Hout; done).
        by apply elem_of_nil in Hnil. }
      split.
      - destruct (todo m !! x) as [v|] eqn:Hv; [|done].
        assert (todo2 !! x = Some v) by (apply Htodo; by left). congruence.
      - destruct (done m !! x) as [v|] eqn:Hv; [eauto|].
        destruct (todo m !! x) as [v'|] eqn:Hv'.
        + assert (todo2 !! x = Some v') by (apply Htodo; by left). congruence.
        + assert (todo2 !! x = Some (default_item x))
            by (apply Htodo; right; done). congruence. }
    assert (Heq : todo2 = todo m).
    { apply map_eq. intros k. apply option_eq. intros v. rewrite Htodo.
      split; [|by left]. intros [?|(Hn & Hd & Hin & _)]; [done|].
      destruct (decide (k = table)) as [-> |Hne]; [congruence|].
      destruct (Hnone k Hin Hne) as [_ [? ?]]. congruence. }
    subst todo2. rewrite Hitem. simpl. done.
  - left. exists table, rest, item, deps, todo2, d, tds. done.
Qed.

(** ** The manifest as a keyed map *)

Lemma last_entry_snoc items x t vars :
  last_entry (mkManifest vars (items ++ [x])) t =
  if decide (Table x = t) then Some x else last_entry (mkManifest vars items) t.
Proof.
  unfold last_entry; simpl. rewrite filter_app, filter_cons, filter_nil.
  destruct (decide (Table x = t)).
  - by rewrite last_snoc.
  - by rewrite app_nil_r.
Qed.

Lemma last_entry_Some mf t v :
  last_entry mf t = Some v -> Table v = t /\ v ∈ Tables mf.
Proof.
  unfold last_entry. intros H.
  assert (Hin : v ∈ filter (fun v => Table v = t) (Tables mf)).
  { apply last_Some in H as [l' ->]. set_solver. }
  apply list_elem_of_filter in Hin. done.
Qed.

Lemma last_entry_is_Some mf t :
  t ∈ names mf -> is_Some (last_entry mf t).
Proof.
  unfold names, last_entry. intros Hin.
  apply list_elem_of_fmap in Hin as (v & -> & Hv).
  destruct (last (filter (fun v0 => Table v0 = Table v) (Tables mf))) eqn:E;
    [eauto|].
  apply last_None in E.
  assert (v ∈ filter (fun v0 => Table v0 = Table v) (Tables mf))
    by (apply list_elem_of_filter; done).
  rewrite E in H. by apply elem_of_nil in H.
Qed.

Lemma last_entry_None mf t :
  t ∉ names mf -> last_entry mf t = None.
Proof.
  intros Hn. destruct (last_entry mf t) as [v|] eqn:E; [|done].
  apply last_entry_Some in E as [<- Hin]. exfalso. apply Hn.
  unfold names. apply list_elem_of_fmap. eauto.
Qed.

Lemma Table_entry_of mf t : Table (entry_of mf t) = t.
Proof.
  unfold entry_of. destruct (last_entry mf t) as [v|] eqn:E; simpl; [|done].
  by apply last_entry_Some in E as [? _].
Qed.

Lemma NewManifestIterator_loop_spec vars items m :
  let m' := NewManifestIterator_loop m items in
  (forall t, todo m' !! t =
     match last_entry (mkManifest vars items) t with
     | Some v => Some v
     | None => todo m !! t
     end)
  /\ done m' = done m
  /\ stack m' = stack m ++ (Table <$> items).
Proof.
  induction items as [|x items IH] using rev_ind; simpl.
  - split; [done|]. split; [done|]. by rewrite app_nil_r.
  - unfold NewManifestIterator_loop in *. rewrite foldl_snoc. simpl in *.
    destruct IH as (Ht & Hd & Hs). split; [|split].
    + intros t. rewrite last_entry_snoc.
      destruct (decide (Table x = t)) as [<-|Hne].
      * by rewrite lookup_insert_eq.
      * rewrite lookup_insert_ne by done. apply Ht.
    + done.
    + rewrite Hs, fmap_app, <- app_assoc. done.
Qed.

Lemma NewManifestIterator_todo mf t :
  todo (NewManifestIterator mf) !! t = last_entry mf t.
Proof.
  destruct mf as [vars items].
  destruct (NewManifestIterator_loop_spec vars items (mkIter ∅ ∅ [])) as (H & _).
  unfold NewManifestIterator; simpl. rewrite H.
  destruct (last_entry (mkManifest vars items) t); [done|apply lookup_empty].
Qed.

Lemma NewManifestIterator_done mf : done (NewManifestIterator mf) = ∅.
Proof.
  destruct mf as [vars items].
  by destruct (NewManifestIterator_loop_spec vars items (mkIter ∅ ∅ []))
    as (_ & H & _).
Qed.

Lemma NewManifestIterator_stack mf : stack (NewManifestIterator mf) = names mf.
Proof.
  destruct mf as [vars items].
  by destruct (NewManifestIterator_loop_spec vars items (mkIter ∅ ∅ []))
    as (_ & _ & H).
Qed.

Lemma NewManifestIterator_Inv db mf : Inv db mf (NewManifestIterator mf).
Proof.
  split.
  - intros k _. rewrite NewManifestIterator_done. apply lookup_empty.
  - intros k d [v Hv]. rewrite NewManifestIterator_done, lookup_empty in Hv.
    done.
  - intros k v [H|H].
    + rewrite NewManifestIterator_todo in H. unfold entry_of. by rewrite H.
    + by rewrite NewManifestIterator_done, lookup_empty in H.
  - intros k Hk. left. rewrite NewManifestIterator_todo.
    by apply last_entry_is_Some.
  - intros k [[v Hv]|[v Hv]].
    + rewrite NewManifestIterator_todo in Hv.
      apply last_entry_Some in Hv as [<- Hin]. exists (Table v).
      split; [|apply rtc_refl]. unfold names. apply list_elem_of_fmap. eauto.
    + by rewrite NewManifestIterator_done, lookup_empty in Hv.
Qed.

Lemma NewManifestIterator_Covered mf : Covered (NewManifestIterator mf).
Proof.
  intros k [v Hv]. rewrite NewManifestIterator_todo in Hv.
  rewrite NewManifestIterator_stack.
  apply last_entry_Some in Hv as [<- Hin]. unfold names.
  apply list_elem_of_fmap. eauto.
Qed.

(** ** One pass preserves the invariants *)

Lemma edge_deps db table deps d :
  getTableDeps db table = Ok deps -> edge db table d <-> d ∈ deps.
Proof.
  intros H. split.
  - intros (deps' & H' & Hin). congruence.
  - intros Hin. by exists deps.
Qed.

Lemma pass_again db mf m log m' log' :
  Inv db mf m -> Next_pass db m log = Again m' log' ->
  Inv db mf m' /\ done m' = done m /\
  (forall k v, todo m !! k = Some v -> todo m' !! k = Some v) /\
  (Covered m -> Covered m').
Proof.
  intros HI Hp.
  destruct (Next_pass_cases db m log) as
    [(_ & Hq)|[(table & rest & Hst & Hnone & Hq)|[(table & rest & item & e & _ & _ & _ & Hq)|
     [(table & rest & item & deps & todo2 & d & tds & Hst & Hitem & Hdeps & Hg & Hout & Hq)|
      (table & rest & item & deps & _ & _ & _ & _ & Hq)]]]];
    rewrite Hq in Hp; inversion Hp; subst; clear Hp Hq.
  - (* the front of the stack is no longer to do *)
    split; [by destruct HI|]. split; [done|]. split; [done|].
    intros Hc k Hk. simpl in *. specialize (Hc k Hk). rewrite Hst in Hc.
    apply elem_of_cons in Hc as [-> |Hc]; [|done].
    rewrite Hnone in Hk. by destruct Hk.
  - (* outstanding dependencies are pushed *)
    assert (Hnew : forall k v, todo2 !! k = Some v -> todo m !! k = None ->
              done m !! k = None /\ k ∈ deps /\ v = default_item k).
    { intros k v Hv Hn. apply Hg in Hv as [Hv|(_ & ? & ? & ?)]; [congruence|done]. }
    split; [|split; [done|split]].
    + destruct HI as [Hdisj Hclosed Hit Hnames Hreach]. split; simpl.
      * intros k [v Hv]. destruct (todo m !! k) as [v'|] eqn:Hk.
        -- apply Hdisj. rewrite Hk. eauto.
        -- by apply (Hnew k v).
      * done.
      * intros k v [Hv|Hv]; [|by apply Hit; right].
        destruct (todo m !! k) as [v'|] eqn:Hk.
        -- apply Hg in Hv as [Hv|(? & _)]; [|congruence].
           apply Hit. left. congruence.
        -- destruct (Hnew k v Hv Hk) as (Hd & _ & ->).
           unfold entry_of. rewrite last_entry_None; [done|].
           intros Hin. destruct (Hnames k Hin) as [[? ?]|[? ?]]; congruence.
      * intros k Hk. destruct (Hnames k Hk) as [[v Hv]|Hd]; [|by right].
        left. exists v. apply Hg. by left.
      * intros k [[v Hv]|Hd]; [|by apply Hreach; right].
        destruct (todo m !! k) as [v'|] eqn:Hk.
        -- apply Hreach. left. rewrite Hk. eauto.
        -- destruct (Hnew k v Hv Hk) as (_ & Hin & _).
           destruct (Hreach table) as (t0 & Ht0 & Hrtc);
             [left; rewrite Hitem; eauto|].
           exists t0. split; [done|]. eapply rtc_r; [done|].
           by apply (edge_deps db table deps).
    + intros k v Hv. simpl. apply Hg. by left.
    + intros Hc k [v Hv]. simpl in *.
      change (k ∈ (d :: tds) ++ table :: rest).
      destruct (todo m !! k) as [v'|] eqn:Hk.
      * assert (k ∈ stack m) as Hin by (apply Hc; rewrite Hk; eauto).
        rewrite Hst in Hin. rewrite elem_of_app. by right.
      * destruct (Hnew k v Hv Hk) as (_ & Hin & _).
        rewrite elem_of_app. left. apply Hout. split; [done|].
        split; [eauto|]. intros ->. congruence.
Qed.

Lemma pass_return db mf m log m' log' r :
  Inv db mf m -> Next_pass db m log = Return (m', log', r) ->
  Inv db mf m' /\
  match r with
  | Ok None => m' = m /\ stack m = []
  | Ok (Some v) =>
      todo m !! Table v = Some v /\
      done m' = <[Table v := v]> (done m) /\
      todo m' = delete (Table v) (todo m) /\
      (forall d, edge db (Table v) d -> d <> Table v -> is_Some (done m !! d)) /\
      (Covered m -> Covered m')
  | Err e =>
      done m' = done m /\ todo m' = todo m /\
      exists t, reachable db mf t /\ getTableDeps db t = Err e
  end.
Proof.
  intros HI Hp.
  destruct (Next_pass_cases db m log) as
    [(Hst & Hq)|[(table & rest & _ & _ & Hq)|[(table & rest & item & e & Hst & Hitem & Hdeps & Hq)|
     [(table & rest & item & deps & todo2 & d & tds & _ & _ & _ & _ & _ & Hq)|
      (table & rest & item & deps & Hst & Hitem & Hdeps & Hnone & Hq)]]]];
    rewrite Hq in Hp; inversion Hp; subst; clear Hp Hq.
  - done.
  - split; [by destruct HI|].
    split; [done|]. split; [done|]. exists table. split; [|done].
    apply (inv_reach db mf m HI). left. rewrite Hitem. eauto.
  - destruct HI as [Hdisj Hclosed Hit Hnames Hreach].
    assert (Hv : item = entry_of mf table) by (apply Hit; by left).
    assert (Ht : Table item = table) by (rewrite Hv; apply Table_entry_of).
    split.
    + split; simpl.
      * intros k [v Hk]. apply lookup_delete_Some in Hk as [Hne Hk].
        rewrite lookup_insert_ne by done. apply Hdisj. eauto.
      * intros k d Hk He Hne. apply lookup_insert_is_Some.
        destruct (decide (table = d)) as [?|Hnd]; [by left|]. right.
        split; [done|].
        apply lookup_insert_is_Some in Hk as [<-|[Hnk Hk]].
        -- apply Hnone; [by apply (edge_deps db table deps)|done].
        -- by apply (Hclosed k).
      * intros k v [Hk|Hk].
        -- apply lookup_delete_Some in Hk as [_ Hk]. apply Hit. by left.
        -- apply lookup_insert_Some in Hk as [[<- <-]|[_ Hk]]; [done|].
           apply Hit. by right.
      * intros k Hk. destruct (decide (table = k)) as [<-|Hne].
        -- right. rewrite lookup_insert_eq. eauto.
        -- destruct (Hnames k Hk) as [[v Hv']|[v Hv']].
           ++ left. exists v. by apply lookup_delete_Some.
           ++ right. exists v. by rewrite lookup_insert_ne.
      * intros k [[v Hk]|Hk].
        -- apply lookup_delete_Some in Hk as [_ Hk]. apply Hreach. left. eauto.
        -- apply lookup_insert_is_Some in Hk as [<-|[_ Hk]].
           ++ apply Hreach. left. eauto.
           ++ apply Hreach. by right.
    + rewrite Ht. split; [done|]. split; [done|]. split; [done|]. split.
      * intros d He Hne. apply Hnone; [by apply (edge_deps db table deps)|done].
      * intros Hc k [v Hk]. simpl in *.
        apply lookup_delete_Some in Hk as [Hne Hk].
        assert (k ∈ stack m) as Hin by (apply Hc; eauto).
        rewrite Hst in Hin. apply elem_of_cons in Hin as [?|?]; [congruence|done].
Qed.

(** ** From one pass to a call of [Next] *)

Lemma Next_rule db (P : ManifestIterator -> list call -> Prop)
    (Q : ManifestIterator * list call * result (option ManifestItem) -> Prop) :
  (forall m log m' log',
     P m log -> Next_pass db m log = Again m' log' -> P m' log') ->
  (forall m log x, P m log -> Next_pass db m log = Return x -> Q x) ->
  forall fuel m log x, P m log -> Next db fuel m log = Some x -> Q x.
Proof.
  intros Hagain Hreturn fuel.
  induction fuel as [|fuel IH]; intros m log x HP HN; [done|].
  rewrite Next_unfold in HN.
  destruct (Next_pass db m log) as [y|m' log'] eqn:Hp.
  - inversion HN; subst. by apply (Hreturn m log).
  - apply (IH m' log'); [|done]. by apply (Hagain m log).
Qed.

Lemma Next_fuel_mono db fuel fuel' m log x :
  Next db fuel m log = Some x -> fuel <= fuel' -> Next db fuel' m log = Some x.
Proof.
  revert fuel' m log. induction fuel as [|fuel IH]; intros fuel' m log HN Hle;
    [done|].
  destruct fuel' as [|fuel']; [lia|].
  rewrite Next_unfold in *.
  destruct (Next_pass db m log) as [y|m' log']; [done|].
  apply IH; [done|lia].
Qed.

(** What a call of [Next] does to an iterator that satisfies the
    invariants. *)
Lemma Next_spec db mf fuel m0 log0 m' log' r :
  Inv db mf m0 -> Next db fuel m0 log0 = Some (m', log', r) ->
  Inv db mf m' /\
  match r with
  | Ok None =>
      stack m' = [] /\ done m' = done m0 /\ (Covered m0 -> Covered m')
  | Ok (Some v) =>
      done m0 !! Table v = None /\
      done m' = <[Table v := v]> (done m0) /\
      todo m' !! Table v = None /\
      v = entry_of mf (Table v) /\
      (forall d, edge db (Table v) d -> d <> Table v -> is_Some (done m0 !! d)) /\
      (Covered m0 -> Covered m')
  | Err e =>
      done m' = done m0 /\
      exists t, reachable db mf t /\ getTableDeps db t = Err e
  end.
Proof.
  intros HI HN.
  pose (P := fun (m : ManifestIterator) (_ : list call) =>
    Inv db mf m /\ done m = done m0 /\ (Covered m0 -> Covered m)).
  refine (Next_rule db P
    (fun x => let '(m', _, r) := x in
      Inv db mf m' /\
      match r with
      | Ok None =>
          stack m' = [] /\ done m' = done m0 /\ (Covered m0 -> Covered m')
      | Ok (Some v) =>
          done m0 !! Table v = None /\
          done m' = <[Table v := v]> (done m0) /\
          todo m' !! Table v = None /\
          v = entry_of mf (Table v) /\
          (forall d, edge db (Table v) d -> d <> Table v ->
             is_Some (done m0 !! d)) /\
          (Covered m0 -> Covered m')
      | Err e =>
          done m' = done m0 /\
          exists t, reachable db mf t /\ getTableDeps db t = Err e
      end) _ _ fuel m0 log0 (m', log', r) _ HN); [| |by unfold P; eauto].
  - intros m log m1 log1 (HI1 & Hd & Hc) Hp.
    destruct (pass_again db mf m log m1 log1 HI1 Hp) as (? & Hd' & _ & Hc').
    split; [done|]. split; [congruence|by eauto].
  - intros m log [[m1 log1] r1] (HI1 & Hd & Hc) Hp.
    destruct (pass_return db mf m log m1 log1 r1 HI1 Hp) as (HI' & Hr).
    split; [done|].
    destruct r1 as [[v|]|e].
    + destruct Hr as (Hv & Hd' & Ht' & Hdeps & Hc').
      split; [|split; [|split; [|split; [|split]]]].
      * rewrite <- Hd. apply (inv_disjoint db mf m HI1). rewrite Hv. eauto.
      * by rewrite Hd', Hd.
      * rewrite Ht'. apply lookup_delete_eq.
      * apply (inv_item db mf m HI1). by left.
      * intros d He Hne. rewrite <- Hd. by apply Hdeps.
      * by eauto.
    + destruct Hr as (-> & Hst). split; [done|]. split; [done|]. done.
    + destruct Hr as (Hd' & _ & Ht). split; [congruence|done].
Qed.

(** ** Successive calls *)

Lemma drain_unfold db calls fuel m log :
  drain db (S calls) fuel m log =
  match Next db fuel m log with
  | None => ([], m, log, OutOfFuel)
  | Some (m', log', Err e) => ([], m', log', Failed e)
  | Some (m', log', Ok None) => ([], m', log', Finished)
  | Some (m', log', Ok (Some v)) =>
      let '(items, m2, log2, out) := drain db calls fuel m' log' in
      (v :: items, m2, log2, out)
  end.
Proof. done. Qed.

Lemma drain_spec db mf fuel calls :
  forall m log items m' log' out,
  Inv db mf m ->
  drain db calls fuel m log = (items, m', log', out) ->
  Inv db mf m' /\
  NoDup (Table <$> items) /\
  (forall v, v ∈ items ->
     done m !! Table v = None /\ v = entry_of mf (Table v)) /\
  (forall k, is_Some (done m' !! k) <->
     is_Some (done m !! k) \/ k ∈ Table <$> items) /\
  (forall i v d, items !! i = Some v -> edge db (Table v) d -> d <> Table v ->
     is_Some (done m !! d) \/ emitted_before items i d) /\
  (Covered m -> out = Finished -> stack m' = [] /\ Covered m') /\
  (forall e, out = Failed e ->
     exists t, reachable db mf t /\ getTableDeps db t = Err e).
Proof.
  induction calls as [|calls IH]; intros m log items m' log' out HI Hd.
  { simpl in Hd. inversion Hd; subst. split; [done|]. split; [constructor|].
    split; [intros v Hv; by apply elem_of_nil in Hv|].
    split; [intros k; rewrite fmap_nil, elem_of_nil; tauto|].
    split; [intros i v d Hv; by rewrite lookup_nil in Hv|]. done. }
  rewrite drain_unfold in Hd.
  destruct (Next db fuel m log) as [[[m1 log1] r]|] eqn:HN.
  2:{ inversion Hd; subst. split; [done|]. split; [constructor|].
      split; [intros v Hv; by apply elem_of_nil in Hv|].
      split; [intros k; rewrite fmap_nil, elem_of_nil; tauto|].
      split; [intros i v d Hv; by rewrite lookup_nil in Hv|]. done. }
  destruct (Next_spec db mf fuel m log m1 log1 r HI HN) as (HI1 & Hr).
  destruct r as [[v|]|e].
  - destruct (drain db calls fuel m1 log1) as [[[items1 m2] log2] out2] eqn:Hd1.
    inversion Hd; subst. clear Hd.
    destruct Hr as (Hfresh & Hdone & Htodo & Hentry & Hdeps & Hcov).
    destruct (IH m1 log1 items1 m' log' out HI1 Hd1)
      as (HI2 & Hnd & Hitems & Hkeys & Hord & Hfin & Hfail).
    split; [done|]. split; [|split; [|split; [|split; [|split]]]].
    + rewrite fmap_cons. apply NoDup_cons. split; [|done].
      intros Hin. apply list_elem_of_fmap in Hin as (v' & Heq & Hin).
      destruct (Hitems v' Hin) as [Hn _].
      rewrite Hdone, <- Heq, lookup_insert_eq in Hn. done.
    + intros v' Hin. apply elem_of_cons in Hin as [-> |Hin]; [done|].
      destruct (Hitems v' Hin) as [Hn ?]. split; [|done].
      rewrite Hdone in Hn. by apply lookup_insert_None in Hn as [? _].
    + intros k. rewrite Hkeys, Hdone, lookup_insert_is_Some, fmap_cons,
        elem_of_cons.
      destruct (decide (Table v = k)) as [<-|?]; intuition congruence.
    + intros i v' d Hi He Hne. destruct i as [|i]; simpl in Hi.
      * inversion Hi; subst. left. by apply Hdeps.
      * destruct (Hord i v' d Hi He Hne) as [Hin|(j & Hj & Hjd)].
        -- rewrite Hdone in Hin.
           apply lookup_insert_is_Some in Hin as [<-|[_ Hin]]; [|by left].
           right. exists 0. split; [lia|done].
        -- right. exists (S j). split; [lia|done].
    + intros Hc Hout. apply Hfin; [by apply Hcov|done].
    + done.
  - inversion Hd; subst. destruct Hr as (Hst & Hdone & Hcov).
    split; [done|]. split; [constructor|].
    split; [intros v Hv; by apply elem_of_nil in Hv|].
    split; [intros k; rewrite Hdone, fmap_nil, elem_of_nil; tauto|].
    split; [intros i v d Hv; by rewrite lookup_nil in Hv|].
    split; [by eauto|done].
  - inversion Hd; subst. destruct Hr as (Hdone & Ht).
    split; [done|]. split; [constructor|].
    split; [intros v Hv; by apply elem_of_nil in Hv|].
    split; [intros k; rewrite Hdone, fmap_nil, elem_of_nil; tauto|].
    split; [intros i v d Hv; by rewrite lookup_nil in Hv|].
    split; [done|]. intros e' He'. inversion He'; subst. done.
Qed.

(** ** Termination on an acyclic graph *)

Lemma size_difference_insert (U S : gset string) t :
  t ∈ U -> t ∉ S -> size (U ∖ ({[t]} ∪ S)) < size (U ∖ S).
Proof.
  intros Ht Hn. apply subset_size. split.
  - intros x. rewrite !elem_of_difference, elem_of_union. tauto.
  - intros Hsub.
    assert (t ∈ U ∖ ({[t]} ∪ S)) as Hx by (apply Hsub, elem_of_difference; done).
    apply elem_of_difference in Hx as [_ Hx].
    apply Hx, elem_of_union. left. by apply elem_of_singleton.
Qed.

(** In a finite graph without cycles, every chain of references ends. *)
Lemma acyclic_Acc_in db mf (U : gset string) :
  acyclic db mf -> (forall t, reachable db mf t -> t ∈ U) ->
  forall n (S : gset string) t,
    size (U ∖ S) <= n -> reachable db mf t ->
    (forall s, s ∈ S -> tc (edge db) s t) ->
    Acc (flip (edge db)) t.
Proof.
  intros Hacyc HU. induction n as [|n IH]; intros S t Hsize Ht HS.
  - assert (Hin : t ∈ S).
    { destruct (decide (t ∈ S)) as [?|Hn]; [done|].
      assert (t ∈ U ∖ S) as Hd by (apply elem_of_difference; auto).
      apply size_empty_iff in Hd; [done|]. lia. }
    destruct (Hacyc t Ht). by apply HS.
  - assert (Hn : t ∉ S) by (intros Hin; destruct (Hacyc t Ht); by apply HS).
    constructor. intros d He. unfold flip in He.
    apply (IH ({[t]} ∪ S)).
    + pose proof (size_difference_insert U S t (HU t Ht) Hn). lia.
    + destruct Ht as (t0 & Ht0 & Hrtc). exists t0. split; [done|].
      by eapply rtc_r.
    + intros s Hs. apply elem_of_union in Hs as [Hs|Hs].
      * apply elem_of_singleton in Hs as ->. by apply tc_once.
      * eapply tc_r; [by apply HS|done].
Qed.

Lemma acyclic_Acc db mf :
  acyclic db mf -> finite_graph db mf ->
  forall t, reachable db mf t -> Acc (flip (edge db)) t.
Proof.
  intros Hacyc [U HU] t Ht.
  apply (acyclic_Acc_in db mf U Hacyc HU (size U) ∅); [|done|].
  - apply subseteq_size. intros x Hx. by apply elem_of_difference in Hx as [? _].
  - intros s Hs. by apply elem_of_empty in Hs.
Qed.

(** A table to do at the front of the stack: the call returns, by induction
    on the chains of references that start at it. *)
Lemma Next_returns_front db t :
  Acc (flip (edge db)) t ->
  forall m log rest,
    stack m = t :: rest -> is_Some (todo m !! t) ->
    exists fuel x, Next db fuel m log = Some x.
Proof.
  induction 1 as [t _ IH]. intros m log rest Hst [item Hitem].
  destruct (Next_pass_cases db m log) as
    [(Hst' & _)|[(table & rest' & Hst' & Hnone & _)|[(table & rest' & item' & e & _ & _ & _ & Hq)|
     [(table & rest' & item' & deps & todo2 & d & tds & Hst' & _ & Hdeps & _ & Hout & Hq)|
      (table & rest' & item' & deps & _ & _ & _ & _ & Hq)]]]].
  - congruence.
  - rewrite Hst in Hst'. inversion Hst'; subst. congruence.
  - eexists 1, _. rewrite Next_unfold, Hq. done.
  - rewrite Hst in Hst'. inversion Hst'; subst table rest'.
    assert (Hd : d ∈ deps /\ is_Some (todo2 !! d) /\ d <> t)
      by (apply Hout; by left).
    destruct Hd as (Hin & Hsome & _).
    destruct (IH d (proj2 (edge_deps db t deps d Hdeps) Hin)
                (mkIter todo2 (done m) ((d :: tds) ++ t :: rest))
                (log ++ [CallDeps t (Ok deps)]) (tds ++ t :: rest))
      as (fuel & x & HN); [done|done|].
    exists (S fuel), x. rewrite Next_unfold, Hq. done.
  - eexists 1, _. rewrite Next_unfold, Hq. done.
Qed.

Lemma Next_returns db m log :
  (forall k, is_Some (todo m !! k) -> Acc (flip (edge db)) k) ->
  exists fuel x, Next db fuel m log = Some x.
Proof.
  remember (stack m) as s eqn:Hs.
  revert m Hs. induction s as [|t rest IH]; intros m Hs Hacc.
  - exists 1. eexists. rewrite Next_unfold. unfold Next_pass. rewrite <- Hs. done.
  - destruct (todo m !! t) as [item|] eqn:Ht.
    + apply (Next_returns_front db t) with (rest := rest); [|done|].
      * apply Hacc. rewrite Ht. eauto.
      * rewrite Ht. eauto.
    + destruct (IH (mkIter (todo m) (done m) rest) eq_refl Hacc)
        as (fuel & x & HN).
      exists (S fuel), x. rewrite Next_unfold. unfold Next_pass.
      rewrite <- Hs. simpl.
      assert (has_key (todo m) t = false) as -> by (by apply has_key_false).
      done.
Qed.

Lemma drain_fuel_mono db fuel fuel' calls :
  fuel <= fuel' ->
  forall m log items m' log' out,
  drain db calls fuel m log = (items, m', log', out) -> out <> OutOfFuel ->
  drain db calls fuel' m log = (items, m', log', out).
Proof.
  intros Hle. induction calls as [|calls IH]; intros m log items m' log' out Hd Hout.
  { simpl in Hd. inversion Hd; subst. done. }
  rewrite drain_unfold in *.
  destruct (Next db fuel m log) as [[[m1 log1] r]|] eqn:HN.
  2:{ inversion Hd; subst. done. }
  rewrite (Next_fuel_mono db fuel fuel' m log _ HN Hle).
  destruct r as [[v|]|e]; [|done|done].
  destruct (drain db calls fuel m1 log1) as [[[items1 m2] log2] out2] eqn:Hd1.
  inversion Hd; subst.
  by rewrite (IH m1 log1 items1 m' log' out Hd1 Hout).
Qed.

(** The run returns: every returned table leaves one table less of the
    finite graph to return. *)
Lemma drain_returns db mf (U : gset string) :
  (forall t, reachable db mf t -> Acc (flip (edge db)) t) ->
  (forall t, reachable db mf t -> t ∈ U) ->
  forall n m log,
    Inv db mf m -> size (U ∖ dom (done m)) <= n ->
    exists calls fuel items m' log' out,
      drain db calls fuel m log = (items, m', log', out) /\ out <> OutOfFuel.
Proof.
  intros Hacc HU. induction n as [|n IH]; intros m log HI Hsize.
  all: destruct (Next_returns db m log) as (fuel & [[m1 log1] r] & HN);
    [intros k Hk; apply Hacc, (inv_reach db mf m HI); by left|].
  all: destruct (Next_spec db mf fuel m log m1 log1 r HI HN) as (HI1 & Hr).
  all: destruct r as [[v|]|e];
    [|exists 1, fuel, [], m1, log1, Finished; rewrite drain_unfold, HN; done
     |exists 1, fuel, [], m1, log1, (Failed e); rewrite drain_unfold, HN; done].
  all: destruct Hr as (Hfresh & Hdone & _).
  all: assert (HvU : Table v ∈ U)
    by (apply HU, (inv_reach db mf m1 HI1); right;
        rewrite Hdone, lookup_insert_eq; eauto).
  all: assert (Hvd : Table v ∉ dom (done m)) by (by apply not_elem_of_dom).
  - assert (Table v ∈ U ∖ dom (done m)) as Hd by (by apply elem_of_difference).
    apply size_empty_iff in Hd; [done|]. lia.
  - destruct (IH m1 log1 HI1)
      as (calls & fuel1 & items & m' & log' & out & Hd & Hout).
    { rewrite Hdone, dom_insert_L.
      pose proof (size_difference_insert U (dom (done m)) (Table v) HvU Hvd).
      lia. }
    exists (S calls), (fuel `max` fuel1), (v :: items), m', log', out.
    split; [|done]. rewrite drain_unfold.
    rewrite (Next_fuel_mono db fuel (fuel `max` fuel1) m log _ HN) by lia.
    rewrite (drain_fuel_mono db fuel1 (fuel `max` fuel1) calls ltac:(lia)
               m1 log1 items m' log' out Hd Hout).
    done.
Qed.

(** ** C1: the emission order is topological *)

Lemma acyclic_of_rank db mf (rank : string -> nat) :
  (forall t d, edge db t d -> rank d < rank t) -> acyclic db mf.
Proof.
  intros Hr t _ Ht.
  assert (H : forall a b, tc (edge db) a b -> rank b < rank a).
  { induction 1 as [a b He|a b c He _ IH]; [by apply Hr|].
    specialize (Hr a b He). lia. }
  specialize (H t t Ht). lia.
Qed.

Lemma finite_of_targets db mf (U : gset string) :
  (forall t d, edge db t d -> d ∈ U) -> finite_graph db mf.
Proof.
  intros HU. exists (U ∪ list_to_set (names mf)). intros t (t0 & Ht0 & Hrtc).
  apply elem_of_union. destruct (rtc_inv_r _ _ Hrtc) as [<-|(y & _ & He)].
  - right. by apply elem_of_list_to_set.
  - left. by apply (HU y).
Qed.

(** A run from a fresh iterator that reached the end returned every manifest
    table. *)
Lemma drain_finished_names db mf calls fuel items m' log' :
  drain db calls fuel (NewManifestIterator mf) [] = (items, m', log', Finished) ->
  forall k, is_Some (done m' !! k) <-> k ∈ Table <$> items.
Proof.
  intros Hd k.
  destruct (drain_spec db mf fuel calls _ _ _ _ _ _
              (NewManifestIterator_Inv db mf) Hd) as (_ & _ & _ & Hkeys & _).
  rewrite Hkeys, NewManifestIterator_done, lookup_empty.
  split; [intros [[? ?]|?]; done|by right].
Qed.

Lemma drain_finished_todo db mf calls fuel items m' log' :
  drain db calls fuel (NewManifestIterator mf) [] = (items, m', log', Finished) ->
  forall k, todo m' !! k = None.
Proof.
  intros Hd k.
  destruct (drain_spec db mf fuel calls _ _ _ _ _ _
              (NewManifestIterator_Inv db mf) Hd)
    as (_ & _ & _ & _ & _ & Hfin & _).
  destruct (Hfin (NewManifestIterator_Covered mf) eq_refl) as [Hst Hc].
  apply eq_None_not_Some. intros Hk. specialize (Hc k Hk).
  rewrite Hst in Hc. by apply elem_of_nil in Hc.
Qed.

(** The run of a manifest with an acyclic finite graph comes to an end. *)
Lemma drain_acyclic_returns db mf :
  acyclic db mf -> finite_graph db mf ->
  exists calls fuel items m' log' out,
    drain db calls fuel (NewManifestIterator mf) [] = (items, m', log', out) /\
    out <> OutOfFuel /\ (lookups_succeed db mf -> out = Finished).
Proof.
  intros Hacyc Hfin. pose proof (acyclic_Acc db mf Hacyc Hfin) as Hacc.
  destruct Hfin as [U HU].
  destruct (drain_returns db mf U Hacc HU (size U) (NewManifestIterator mf) []
              (NewManifestIterator_Inv db mf))
    as (calls & fuel & items & m' & log' & out & Hd & Hout).
  { apply subseteq_size. intros x Hx. by apply elem_of_difference in Hx as [? _]. }
  exists calls, fuel, items, m', log', out. split; [done|]. split; [done|].
  intros Htotal. destruct out as [|e|]; [done| |done].
  destruct (drain_spec db mf fuel calls _ _ _ _ _ _
              (NewManifestIterator_Inv db mf) Hd) as (_ & _ & _ & _ & _ & _ & Hf).
  destruct (Hf e eq_refl) as (t & Hreach & Ht).
  destruct (Htotal t Hreach) as [deps Hdeps].
  congruence.
Qed.

(** C1. For a manifest whose foreign-key graph is acyclic (and has finitely
    many tables, as the graph of any catalogue has), the successive calls of
    [Next] come to an end, and in the sequence they return every dependency
    that the schema inspector reports for a returned table occurs strictly
    before that table.  When no lookup fails the end is the end-of-sequence
    signal and every manifest table has been returned. *)
Theorem resolver_topological_order db mf :
  acyclic db mf -> finite_graph db mf ->
  exists calls fuel items m' log' out,
    drain db calls fuel (NewManifestIterator mf) [] = (items, m', log', out) /\
    out <> OutOfFuel /\
    (lookups_succeed db mf ->
       out = Finished /\ forall t, t ∈ names mf -> t ∈ Table <$> items) /\
    forall i v dep,
      items !! i = Some v -> edge db (Table v) dep -> emitted_before items i dep.
Proof.
  intros Hacyc Hfin.
  destruct (drain_acyclic_returns db mf Hacyc Hfin)
    as (calls & fuel & items & m' & log' & out & Hd & Hout & Htot).
  exists calls, fuel, items, m', log', out.
  split; [done|]. split; [done|].
  destruct (drain_spec db mf fuel calls _ _ _ _ _ _
              (NewManifestIterator_Inv db mf) Hd)
    as (HI & _ & _ & Hkeys & Hord & _).
  split.
  - intros Htotal. specialize (Htot Htotal). subst out. split; [done|].
    intros t Ht. apply (drain_finished_names db mf calls fuel items m' log' Hd).
    destruct (inv_names db mf m' HI t Ht) as [[v Hv]|?]; [|done].
    by rewrite (drain_finished_todo db mf calls fuel items m' log' Hd) in Hv.
  - intros i v dep Hi He.
    destruct (Hord i v dep Hi He) as [[x Hx]|?]; [| |done].
    + intros ->. apply (Hacyc (Table v)); [|by apply tc_once].
      apply (inv_reach db mf m' HI). right. apply Hkeys. right.
      apply list_elem_of_fmap. exists v. split; [done|].
      by apply list_elem_of_lookup_2 in Hi.
    + by rewrite NewManifestIterator_done, lookup_empty in Hx.
Qed.

Lemma shop_edges t d :
  edge shop_db t d -> shop_rank d < shop_rank t /\ d ∈ ["users"; "products"; "vendors"].
Proof.
  intros (deps & Hdeps & Hin). unfold getTableDeps in Hdeps.
  simpl in Hdeps. unfold shop_rank.
  destruct (bool_decide (t = "orders")) eqn:E1;
    [|destruct (bool_decide (t = "products")) eqn:E2];
    inversion Hdeps; subst deps; clear Hdeps; rewrite collect_id in Hin;
    apply list_elem_of_In in Hin; simpl in Hin;
    rewrite list_elem_of_In; simpl.
  - destruct Hin as [<-|[<-|[]]]; (split; [vm_compute; lia|tauto]).
  - destruct Hin as [<-|[]]; (split; [vm_compute; lia|tauto]).
  - destruct Hin.
Qed.

Lemma shop_acyclic mf : acyclic shop_db mf.
Proof.
  apply (acyclic_of_rank _ _ shop_rank). intros t d He. by apply shop_edges.
Qed.

Lemma shop_finite mf : finite_graph shop_db mf.
Proof.
  apply (finite_of_targets _ _ (list_to_set ["users"; "products"; "vendors"])).
  intros t d He. apply elem_of_list_to_set. by apply (shop_edges t).
Qed.

Lemma resolver_topological_order_witness :
  exists calls fuel items m' log' out,
    drain shop_db calls fuel (NewManifestIterator shop_manifest) [] =
      (items, m', log', out) /\
    out <> OutOfFuel /\
    (lookups_succeed shop_db shop_manifest ->
       out = Finished /\
       forall t, t ∈ names shop_manifest -> t ∈ Table <$> items) /\
    forall i v dep,
      items !! i = Some v -> edge shop_db (Table v) dep ->
      emitted_before items i dep.
Proof.
  apply (resolver_topological_order shop_db shop_manifest).
  - exact (shop_acyclic shop_manifest).
  - exact (shop_finite shop_manifest).
Defined.

(** ** C4: no table is returned twice *)

(** C4. In every run, however far it got, the returned sequence names no
    table twice; no name is both to do and done; the done tables are exactly
    the returned ones; and a further call of [Next] changes [done] only by
    entering the table it returns, which was not done and is then no longer
    to do. *)
Theorem no_table_returned_twice db mf calls fuel items m' log' out :
  drain db calls fuel (NewManifestIterator mf) [] = (items, m', log', out) ->
  NoDup (Table <$> items) /\
  (forall k, is_Some (todo m' !! k) -> done m' !! k = None) /\
  (forall k, is_Some (done m' !! k) <-> k ∈ Table <$> items) /\
  (forall fuel' m2 log2 r,
     Next db fuel' m' log' = Some (m2, log2, r) ->
     match r with
     | Ok (Some v) =>
         done m' !! Table v = None /\
         done m2 = <[Table v := v]> (done m') /\
         todo m2 !! Table v = None
     | _ => done m2 = done m'
     end).
Proof.
  intros Hd.
  destruct (drain_spec db mf fuel calls _ _ _ _ _ _
              (NewManifestIterator_Inv db mf) Hd)
    as (HI & Hnd & _ & Hkeys & _).
  split; [done|]. split; [apply (inv_disjoint db mf m' HI)|]. split.
  - intros k. rewrite Hkeys, NewManifestIterator_done, lookup_empty.
    split; [intros [[? ?]|?]; done|by right].
  - intros fuel' m2 log2 r HN.
    destruct (Next_spec db mf fuel' m' log' m2 log2 r HI HN) as (_ & Hr).
    destruct r as [[v|]|e].
    + by destruct Hr as (? & ? & ? & _).
    + by destruct Hr as (_ & ? & _).
    + by destruct Hr as (? & _).
Qed.

Lemma no_table_returned_twice_witness :
  let '(items, m', _, _) :=
    drain shop_db 9 9 (NewManifestIterator shop_manifest) [] in
  NoDup (Table <$> items) /\
  (forall k, is_Some (todo m' !! k) -> done m' !! k = None) /\
  (forall k, is_Some (done m' !! k) <-> k ∈ Table <$> items).
Proof.
  destruct (drain shop_db 9 9 (NewManifestIterator shop_manifest) [])
    as [[[items m'] log'] out] eqn:E.
  destruct (no_table_returned_twice shop_db shop_manifest 9 9 items m' log' out E)
    as (H1 & H2 & H3 & _).
  auto.
Defined.

(** ** C3 and C9: what is returned for a table *)

Lemma emitted_once_intro items v :
  NoDup (Table <$> items) -> v ∈ items -> emitted_once_as items (Table v) v.
Proof.
  intros Hnd Hin. apply list_elem_of_lookup in Hin as [i Hi].
  exists i. split; [done|]. intros j v' Hj Heq.
  apply (NoDup_lookup (Table <$> items) j i (Table v)); [done| |].
  - by rewrite list_lookup_fmap, Hj, <- Heq.
  - by rewrite list_lookup_fmap, Hi.
Qed.

(** A run that reached the end returned every table reachable from the
    manifest, each once, as the entry the resolver holds for it. *)
Lemma drain_finished_reachable db mf calls fuel items m' log' t :
  drain db calls fuel (NewManifestIterator mf) [] = (items, m', log', Finished) ->
  reachable db mf t ->
  emitted_once_as items t (entry_of mf t).
Proof.
  intros Hd (t0 & Ht0 & Hrtc).
  destruct (drain_spec db mf fuel calls _ _ _ _ _ _
              (NewManifestIterator_Inv db mf) Hd)
    as (HI & Hnd & Hitems & _).
  assert (Hdone : is_Some (done m' !! t)).
  { revert t Hrtc.
    apply (rtc_ind_r (fun z => is_Some (done m' !! z))).
    - destruct (inv_names db mf m' HI t0 Ht0) as [[v Hv]|?]; [|done].
      by rewrite (drain_finished_todo db mf calls fuel items m' log' Hd) in Hv.
    - intros y z _ He IH. destruct (decide (z = y)) as [-> |Hne]; [done|].
      by apply (inv_closed db mf m' HI y z). }
  apply (drain_finished_names db mf calls fuel items m' log' Hd) in Hdone.
  apply list_elem_of_fmap in Hdone as (v & -> & Hin).
  destruct (Hitems v Hin) as [_ Hv]. rewrite <- Hv.
  by apply emitted_once_intro.
Qed.

Lemma drain_acyclic_finishes db mf :
  acyclic db mf -> finite_graph db mf -> lookups_succeed db mf ->
  exists calls fuel items m' log',
    drain db calls fuel (NewManifestIterator mf) [] =
      (items, m', log', Finished).
Proof.
  intros Hacyc Hfin Htot.
  destruct (drain_acyclic_returns db mf Hacyc Hfin)
    as (calls & fuel & items & m' & log' & out & Hd & _ & Hout).
  rewrite (Hout Htot) in Hd. by exists calls, fuel, items, m', log'.
Qed.

(** C3. A table reached through foreign keys from a manifest table and
    absent from the manifest is returned exactly once by a run that reaches
    the end, as the synthetic default entry with empty query, columns and
    post-actions; and the run of a manifest whose graph is acyclic and
    finite and whose lookups succeed does reach the end. *)
Theorem synthetic_entry_returned_once db mf t :
  reachable db mf t -> t ∉ names mf ->
  (forall calls fuel items m' log',
     drain db calls fuel (NewManifestIterator mf) [] =
       (items, m', log', Finished) ->
     emitted_once_as items t (mkItem t EmptyString [] []))
  /\
  (acyclic db mf -> finite_graph db mf -> lookups_succeed db mf ->
   exists calls fuel items m' log',
     drain db calls fuel (NewManifestIterator mf) [] =
       (items, m', log', Finished)).
Proof.
  intros Hreach Hn. split; [|apply drain_acyclic_finishes].
  intros calls fuel items m' log' Hd.
  pose proof (drain_finished_reachable db mf calls fuel items m' log' t Hd Hreach)
    as H.
  unfold entry_of in H. by rewrite (last_entry_None mf t Hn) in H.
Qed.

Lemma shop_total mf : lookups_succeed shop_db mf.
Proof.
  intros t _. unfold getTableDeps. simpl.
  repeat case_bool_decide; eauto.
Qed.

Lemma synthetic_entry_returned_once_witness :
  (forall calls fuel items m' log',
     drain shop_db calls fuel (NewManifestIterator shop_manifest) [] =
       (items, m', log', Finished) ->
     emitted_once_as items "vendors" (mkItem "vendors" EmptyString [] []))
  /\
  (acyclic shop_db shop_manifest -> finite_graph shop_db shop_manifest ->
   lookups_succeed shop_db shop_manifest ->
   exists calls fuel items m' log',
     drain shop_db calls fuel (NewManifestIterator shop_manifest) [] =
       (items, m', log', Finished)).
Proof.
  apply (synthetic_entry_returned_once shop_db shop_manifest "vendors").
  - exists "products". split.
    + apply list_elem_of_In. simpl. tauto.
    + apply rtc_once. exists ["vendors"]. split; [reflexivity|].
      apply list_elem_of_In. simpl. tauto.
  - intros H. apply list_elem_of_In in H. simpl in H.
    intuition discriminate.
Defined.

Lemma last_entry_later mf l1 e1 l2 e2 l3 t :
  Tables mf = l1 ++ e1 :: l2 ++ e2 :: l3 ->
  Table e2 = t -> (forall x, x ∈ l3 -> Table x <> t) ->
  last_entry mf t = Some e2.
Proof.
  intros Ht He2 Hl3. unfold last_entry. rewrite Ht.
  change (l1 ++ e1 :: l2 ++ e2 :: l3) with (l1 ++ (e1 :: l2) ++ [e2] ++ l3).
  rewrite !filter_app.
  assert (filter (fun v => Table v = t) l3 = []) as ->.
  { clear -Hl3. induction l3 as [|x l3 IH]; [done|]. rewrite filter_cons.
    destruct (decide (Table x = t)) as [Hx|_].
    - destruct (Hl3 x); [by left|done].
    - apply IH. intros y Hy. apply Hl3. by right. }
  rewrite app_nil_r, (filter_cons _ e2), filter_nil.
  destruct (decide (Table e2 = t)); [|done]. by rewrite !app_assoc, last_snoc.
Qed.

(** C9. When two entries of the manifest share a table name and no later
    entry has it, the iterator is built without complaint and holds the
    later entry for that name; a run that reaches the end returns the table
    exactly once, with the contents of the later entry; the only failures
    of a run are lookups of the schema inspector; and the run of a manifest
    whose graph is acyclic and finite and whose lookups succeed does reach
    the end. *)
Theorem duplicate_entries_later_wins db mf l1 e1 l2 e2 l3 t :
  Tables mf = l1 ++ e1 :: l2 ++ e2 :: l3 ->
  Table e1 = t -> Table e2 = t -> (forall x, x ∈ l3 -> Table x <> t) ->
  todo (NewManifestIterator mf) !! t = Some e2 /\
  (forall calls fuel items m' log' out,
     drain db calls fuel (NewManifestIterator mf) [] = (items, m', log', out) ->
     (out = Finished -> emitted_once_as items t e2) /\
     (forall e, out = Failed e -> exists t', getTableDeps db t' = Err e))
  /\
  (acyclic db mf -> finite_graph db mf -> lookups_succeed db mf ->
   exists calls fuel items m' log',
     drain db calls fuel (NewManifestIterator mf) [] =
       (items, m', log', Finished)).
Proof.
  intros Ht He1 He2 Hl3.
  pose proof (last_entry_later mf l1 e1 l2 e2 l3 t Ht He2 Hl3) as Hlast.
  split; [by rewrite NewManifestIterator_todo|].
  split; [|apply drain_acyclic_finishes].
  intros calls fuel items m' log' out Hd. split.
  - intros ->.
    assert (Hr : reachable db mf t).
    { exists t. split; [|apply rtc_refl]. unfold names. rewrite Ht.
      apply list_elem_of_fmap. exists e2. split; [done|].
      apply elem_of_app. right. apply elem_of_cons. right.
      apply elem_of_app. right. by apply elem_of_cons; left. }
    pose proof (drain_finished_reachable db mf calls fuel items m' log' t Hd Hr)
      as H.
    unfold entry_of in H. by rewrite Hlast in H.
  - intros e He.
    destruct (drain_spec db mf fuel calls _ _ _ _ _ _
                (NewManifestIterator_Inv db mf) Hd)
      as (_ & _ & _ & _ & _ & _ & Hf).
    destruct (Hf e He) as (t' & _ & Ht'). eauto.
Qed.

Lemma duplicate_entries_later_wins_witness :
  todo (NewManifestIterator twice_manifest) !! "users" =
    Some (mkItem "users" "SELECT 2" ["name"] []) /\
  (forall calls fuel items m' log' out,
     drain shop_db calls fuel (NewManifestIterator twice_manifest) [] =
       (items, m', log', out) ->
     (out = Finished ->
      emitted_once_as items "users" (mkItem "users" "SELECT 2" ["name"] [])) /\
     (forall e, out = Failed e -> exists t', getTableDeps shop_db t' = Err e))
  /\
  (acyclic shop_db twice_manifest -> finite_graph shop_db twice_manifest ->
   lookups_succeed shop_db twice_manifest ->
   exists calls fuel items m' log',
     drain shop_db calls fuel (NewManifestIterator twice_manifest) [] =
       (items, m', log', Finished)).
Proof.
  apply (duplicate_entries_later_wins shop_db twice_manifest []
           (mkItem "users" "SELECT 1" ["id"] ["ANALYZE users"])
           [plain "orders"] (mkItem "users" "SELECT 2" ["name"] []) [] "users").
  - reflexivity.
  - reflexivity.
  - reflexivity.
  - intros x Hx. by apply elem_of_nil in Hx.
Defined.

(** ** C10: exhaustion is stable *)

Lemma Next_end_stack db fuel m log m' log' :
  Next db fuel m log = Some (m', log', Ok None) -> stack m' = [].
Proof.
  intros HN.
  refine (Next_rule db (fun _ _ => True)
            (fun x => x.2 = Ok None -> stack x.1.1 = [])
            _ _ fuel m log (m', log', Ok None) I HN eq_refl); [done|].
  clear. intros m log [[m' log'] r] _ Hp Hr. simpl in *. subst r.
  destruct (Next_pass_cases db m log) as
    [(Hst & Hq)|[(? & ? & _ & _ & Hq)|[(? & ? & ? & ? & _ & _ & _ & Hq)|
     [(? & ? & ? & ? & ? & ? & ? & _ & _ & _ & _ & _ & Hq)|
      (? & ? & ? & ? & _ & _ & _ & _ & Hq)]]]];
    rewrite Hq in Hp; inversion Hp; subst; done.
Qed.

(** C10. Once [Next] has returned the end-of-sequence signal the pending
    stack is empty, and every later call returns the signal again and leaves
    [todo], [done], the stack and the call log as they were. *)
Theorem exhaustion_is_stable db fuel m log m' log' :
  Next db fuel m log = Some (m', log', Ok None) ->
  stack m' = [] /\
  forall fuel' log2, Next db (S fuel') m' log2 = Some (m', log2, Ok None).
Proof.
  intros HN. apply Next_end_stack in HN. split; [done|].
  intros fuel' log2. simpl. by rewrite HN.
Qed.

Lemma exhaustion_is_stable_witness :
  stack (mkIter ∅ ∅ []) = [] /\
  forall fuel' log2,
    Next shop_db (S fuel') (mkIter ∅ ∅ []) log2 =
      Some (mkIter ∅ ∅ [], log2, Ok None).
Proof.
  apply (exhaustion_is_stable shop_db 3 (mkIter ∅ ∅ ["users"; "orders"]) []
           (mkIter ∅ ∅ []) []).
  reflexivity.
Defined.

(** ** C2: two tables that reference each other *)

Section Cycle.
Variable db : DB.
Variables a b : string.
Hypothesis Hab : edge db a b.
Hypothesis Hba : edge db b a.
Hypothesis Hne : a <> b.

(** A table that reaches the cycle has a dependency, other than itself,
    that reaches the cycle. *)
Lemma cycle_waits t :
  rtc (edge db) t a ->
  exists d, edge db t d /\ d <> t /\ rtc (edge db) d a.
Proof.
  revert t. apply (rtc_ind_l (fun t =>
    exists d, edge db t d /\ d <> t /\ rtc (edge db) d a)).
  - exists b. split; [done|]. split; [done|]. by apply rtc_once.
  - intros x y He Hrtc IH. destruct (decide (y = x)) as [-> |Hyx]; [done|].
    by exists y.
Qed.

Lemma Next_cycle mf fuel m log m' log' r :
  Inv db mf m -> Unreturned db a m ->
  Next db fuel m log = Some (m', log', r) ->
  Unreturned db a m' /\
  forall v, r = Ok (Some v) -> ~ rtc (edge db) (Table v) a.
Proof.
  intros HI HU HN.
  destruct (Next_spec db mf fuel m log m' log' r HI HN) as (_ & Hr).
  destruct r as [[v|]|e].
  - destruct Hr as (_ & Hdone & _ & _ & Hdeps & _).
    assert (Hv : ~ rtc (edge db) (Table v) a).
    { intros Hrtc. destruct (cycle_waits _ Hrtc) as (d & He & Hd & Hda).
      destruct (Hdeps d He Hd) as [x Hx]. by rewrite (HU d Hda) in Hx. }
    split.
    + intros t Ht. rewrite Hdone, lookup_insert_ne; [by apply HU|].
      intros Heq. by rewrite Heq in Hv.
    + intros v' Hv'. by inversion Hv'; subst.
  - destruct Hr as (_ & Hdone & _). split; [|done].
    intros t Ht. rewrite Hdone. by apply HU.
  - destruct Hr as (Hdone & _). split; [|done].
    intros t Ht. rewrite Hdone. by apply HU.
Qed.

Lemma drain_cycle mf fuel calls :
  forall m log items m' log' out,
  Inv db mf m -> Unreturned db a m ->
  drain db calls fuel m log = (items, m', log', out) ->
  Unreturned db a m' /\
  forall v, v ∈ items -> ~ rtc (edge db) (Table v) a.
Proof.
  induction calls as [|calls IH]; intros m log items m' log' out HI HU Hd.
  { simpl in Hd. inversion Hd; subst. split; [done|].
    intros v Hv. by apply elem_of_nil in Hv. }
  rewrite drain_unfold in Hd.
  destruct (Next db fuel m log) as [[[m1 log1] r]|] eqn:HN.
  2:{ inversion Hd; subst. split; [done|].
      intros v Hv. by apply elem_of_nil in Hv. }
  destruct (Next_cycle mf fuel m log m1 log1 r HI HU HN) as [HU1 Hv].
  destruct (Next_spec db mf fuel m log m1 log1 r HI HN) as (HI1 & _).
  destruct r as [[v|]|e].
  - destruct (drain db calls fuel m1 log1) as [[[items1 m2] log2] out2] eqn:Hd1.
    inversion Hd; subst.
    destruct (IH m1 log1 items1 m' log' out HI1 HU1 Hd1) as [HU2 Hitems].
    split; [done|]. intros v' Hin.
    apply elem_of_cons in Hin as [-> |Hin]; [by apply Hv|by apply Hitems].
  - inversion Hd; subst. split; [done|].
    intros v Hin. by apply elem_of_nil in Hin.
  - inversion Hd; subst. split; [done|].
    intros v Hin. by apply elem_of_nil in Hin.
Qed.

(** The run of a manifest that reaches the cycle never reaches the end. *)
Lemma drain_cycle_unfinished mf calls fuel items m' log' out :
  reachable db mf a ->
  drain db calls fuel (NewManifestIterator mf) [] = (items, m', log', out) ->
  out <> Finished.
Proof.
  intros (t0 & Ht0 & Hrtc) Hd ->.
  assert (HU0 : Unreturned db a (NewManifestIterator mf)).
  { intros t _. rewrite NewManifestIterator_done. apply lookup_empty. }
  destruct (drain_cycle mf fuel calls _ _ _ _ _ _
              (NewManifestIterator_Inv db mf) HU0 Hd) as [HU _].
  destruct (drain_spec db mf fuel calls _ _ _ _ _ _
              (NewManifestIterator_Inv db mf) Hd) as (HI & _).
  destruct (inv_names db mf m' HI t0 Ht0) as [[v Hv]|[v Hv]].
  - by rewrite (drain_finished_todo db mf calls fuel items m' log' Hd) in Hv.
  - by rewrite (HU t0 Hrtc) in Hv.
Qed.
End Cycle.

(** C2, as the code has it.  When the manifest reaches two tables that
    reference each other, the resolver has no cycle detection: for every
    budget of calls and of recursion the run has not reached the end and has
    returned neither table; the only failure it can report is a failed lookup
    of the schema inspector; and when no lookup fails it has reported
    nothing at all. *)
Theorem cycle_is_not_detected db mf a b :
  edge db a b -> edge db b a -> a <> b -> reachable db mf a ->
  forall calls fuel items m' log' out,
    drain db calls fuel (NewManifestIterator mf) [] = (items, m', log', out) ->
    out <> Finished /\
    (forall e, out = Failed e -> exists t, getTableDeps db t = Err e) /\
    (lookups_succeed db mf -> out = OutOfFuel) /\
    (a ∉ Table <$> items) /\ (b ∉ Table <$> items).
Proof.
  intros Hab Hba Hne Hreach calls fuel items m' log' out Hd.
  pose proof (drain_cycle_unfinished db a b Hab Hba Hne mf calls fuel
                items m' log' out Hreach Hd) as Hnf.
  destruct (drain_spec db mf fuel calls _ _ _ _ _ _
              (NewManifestIterator_Inv db mf) Hd) as (_ & _ & _ & _ & _ & _ & Hf).
  assert (HU0 : Unreturned db a (NewManifestIterator mf)).
  { intros t _. rewrite NewManifestIterator_done. apply lookup_empty. }
  destruct (drain_cycle db a b Hab Hba Hne mf fuel calls _ _ _ _ _ _
              (NewManifestIterator_Inv db mf) HU0 Hd) as [_ Hitems].
  split; [done|]. split; [|split; [|split]].
  - intros e He. destruct (Hf e He) as (t & _ & Ht). eauto.
  - intros Htot. destruct out as [|e|]; [done| |done].
    destruct (Hf e eq_refl) as (t & Hr & Ht).
    destruct (Htot t Hr) as [deps Hdeps]. congruence.
  - intros Hin. apply list_elem_of_fmap in Hin as (v & -> & Hin).
    by apply (Hitems v Hin).
  - intros Hin. apply list_elem_of_fmap in Hin as (v & -> & Hin).
    apply (Hitems v Hin). by apply rtc_once.
Qed.

Lemma cycle_edge_1 : edge cycle_db "employees" "departments".
Proof.
  exists ["departments"]. split; [reflexivity|].
  apply list_elem_of_In. simpl. tauto.
Qed.

Lemma cycle_edge_2 : edge cycle_db "departments" "employees".
Proof.
  exists ["employees"]. split; [reflexivity|].
  apply list_elem_of_In. simpl. tauto.
Qed.

Lemma cycle_reachable : reachable cycle_db cycle_manifest "employees".
Proof.
  exists "employees". split; [|apply rtc_refl].
  apply list_elem_of_In. simpl. tauto.
Qed.

Lemma cycle_total : lookups_succeed cycle_db cycle_manifest.
Proof.
  intros t _. unfold getTableDeps. simpl.
  repeat case_bool_decide; eauto.
Qed.

(** Every table of the graph of [cycle_manifest] lies on the cycle. *)
Lemma cycle_graph t :
  reachable cycle_db cycle_manifest t -> rtc (edge cycle_db) t "employees".
Proof.
  intros (t0 & Ht0 & Hrtc).
  apply list_elem_of_In in Ht0. simpl in Ht0. destruct Ht0 as [<-|[]].
  destruct (rtc_inv_r _ _ Hrtc) as [<-|(y & _ & deps & Hdeps & Hin)];
    [apply rtc_refl|].
  unfold getTableDeps in Hdeps. simpl in Hdeps.
  destruct (bool_decide (y = "employees"));
    [|destruct (bool_decide (y = "departments"))];
    inversion Hdeps; subst deps; rewrite collect_id in Hin;
    apply list_elem_of_In in Hin; simpl in Hin.
  - destruct Hin as [<-|[]]. apply rtc_once. exact cycle_edge_2.
  - destruct Hin as [<-|[]]. apply rtc_refl.
  - destruct Hin.
Qed.

Lemma cycle_is_not_detected_witness :
  exists items m' log' out,
    drain cycle_db 6 8 (NewManifestIterator cycle_manifest) [] =
      (items, m', log', out) /\
    out <> Finished /\
    (forall e, out = Failed e -> exists t, getTableDeps cycle_db t = Err e) /\
    (lookups_succeed cycle_db cycle_manifest -> out = OutOfFuel) /\
    ("employees" ∉ Table <$> items) /\ ("departments" ∉ Table <$> items).
Proof.
  destruct (drain cycle_db 6 8 (NewManifestIterator cycle_manifest) [])
    as [[[items m'] log'] out] eqn:E.
  exists items, m', log', out. split; [reflexivity|].
  apply (cycle_is_not_detected cycle_db cycle_manifest "employees" "departments"
           cycle_edge_1 cycle_edge_2 ltac:(discriminate) cycle_reachable
           6 8 items m' log' out E).
Defined.

(** C2 as stated fails: for the manifest that names [employees], with
    [employees] and [departments] referencing each other, no budget makes
    the first call of [Next] return anything, an error included. *)
Lemma cycle_is_reported_counterexample :
  ~ exists fuel x,
      Next cycle_db fuel (NewManifestIterator cycle_manifest) [] = Some x.
Proof.
  intros (fuel & [[m' log'] r] & HN).
  pose proof (NewManifestIterator_Inv cycle_db cycle_manifest) as HI.
  assert (HU0 : Unreturned cycle_db "employees"
                  (NewManifestIterator cycle_manifest)).
  { intros t _. rewrite NewManifestIterator_done. apply lookup_empty. }
  destruct (Next_cycle cycle_db "employees" "departments"
              cycle_edge_1 cycle_edge_2 ltac:(discriminate)
              cycle_manifest fuel _ _ m' log' r HI HU0 HN) as [_ Hv].
  destruct (Next_spec cycle_db cycle_manifest fuel _ _ m' log' r HI HN)
    as (HI' & Hr).
  destruct r as [[v|]|e].
  - destruct Hr as (_ & Hdone & _).
    apply (Hv v eq_refl), cycle_graph, (inv_reach _ _ _ HI').
    right. rewrite Hdone, lookup_insert_eq. eauto.
  - apply (drain_cycle_unfinished cycle_db "employees" "departments"
             cycle_edge_1 cycle_edge_2 ltac:(discriminate)
             cycle_manifest 1 fuel [] m' log' Finished cycle_reachable);
      [|done].
    by rewrite drain_unfold, HN.
  - destruct Hr as (_ & t & Hreach & Ht).
    destruct (cycle_total t Hreach) as [deps Hdeps]. congruence.
Qed.

(** ** What the writer asks of the sink *)

Lemma append_assoc (a b c : string) : (a +:+ b) +:+ c = a +:+ (b +:+ c).
Proof.
  induction a as [|x a IH]; [reflexivity|].
  change (String x ((a +:+ b) +:+ c) = String x (a +:+ (b +:+ c))).
  by rewrite IH.
Qed.

Lemma append_nil_r (a : string) : a +:+ EmptyString = a.
Proof.
  induction a as [|x a IH]; [reflexivity|].
  change (String x (a +:+ EmptyString) = String x a). by rewrite IH.
Qed.

Lemma concat_strings_app (l1 l2 : list string) :
  concat_strings (l1 ++ l2) = concat_strings l1 +:+ concat_strings l2.
Proof.
  induction l1 as [|x l1 IH]; [reflexivity|].
  change (x +:+ concat_strings (l1 ++ l2) =
          (x +:+ concat_strings l1) +:+ concat_strings l2).
  by rewrite IH, append_assoc.
Qed.

Lemma wrote_refl w : wrote w w EmptyString.
Proof.
  split; [done|]. split; [by rewrite append_nil_r|].
  intros _. by rewrite append_nil_r.
Qed.

Lemma wrote_Write w p : wrote w (Write w p) p.
Proof.
  split; [done|]. split.
  - unfold asked, Write. simpl. rewrite concat_strings_app.
    change (concat_strings [p]) with (p +:+ EmptyString).
    by rewrite append_nil_r.
  - intros Hr. simpl. by rewrite Hr.
Qed.

Lemma wrote_trans w w1 w2 a b :
  wrote w w1 a -> wrote w1 w2 b -> wrote w w2 (a +:+ b).
Proof.
  intros (Ht1 & Ha1 & Hh1) (Ht2 & Ha2 & Hh2). split; [congruence|]. split.
  - by rewrite Ha2, Ha1, append_assoc.
  - intros Hr. rewrite Hh2, Hh1, append_assoc; [done|done|].
    intros before p. rewrite Ht1. apply Hr.
Qed.

Lemma buffer_reliable : reliable buffer.
Proof. by intros before p. Qed.

Lemma quoted_columns (quote : quoter) (columns : list string) :
  foldl (fun quoted v => quoted ++ [quote v]) [] columns = quote <$> columns.
Proof.
  assert (H : forall acc,
    foldl (fun quoted v => quoted ++ [quote v]) acc columns =
    acc ++ (quote <$> columns)).
  { induction columns as [|c columns IH]; intros acc; simpl.
    - by rewrite app_nil_r.
    - rewrite IH, <- app_assoc. done. }
  apply H.
Qed.

Lemma beginTable_header quote w table columns :
  beginTable quote w table columns =
  Write w (table_header quote table columns).
Proof. unfold beginTable, Fprintf. rewrite quoted_columns. reflexivity. Qed.

Lemma post_actions_written w actions :
  wrote w (foldl dumpSqlCmd w actions)
    (concat_strings (sql_command <$> actions)).
Proof.
  revert w. induction actions as [|a actions IH]; intros w.
  - apply wrote_refl.
  - change (wrote w (foldl dumpSqlCmd (dumpSqlCmd w a) actions)
              (sql_command a +:+ concat_strings (sql_command <$> actions))).
    eapply wrote_trans; [|apply IH]. apply wrote_Write.
Qed.

Lemma exportRows_appends render db mf v w log w' log' err :
  exportRows render db mf v w log = (w', log', err) ->
  exists b, wrote w w' b.
Proof.
  unfold exportRows, dumpTable. intros H.
  destruct (bool_decide (Query v = EmptyString)).
  - inversion H; subst. eexists. apply wrote_Write.
  - destruct (render (Query v) (Vars mf)) as [query|e]; inversion H; subst.
    + eexists. apply wrote_Write.
    + eexists. apply wrote_refl.
Qed.

Lemma MakeDump_body_appends quote render db mf v w log w' log' err :
  MakeDump_body quote render db mf v w log = (w', log', err) ->
  exists b, wrote w w' b.
Proof.
  unfold MakeDump_body. intros H.
  destruct (resolveColumns db v log) as [[cols|e] log1].
  2:{ inversion H; subst. eexists. apply wrote_refl. }
  rewrite beginTable_header in H.
  destruct (exportRows render db mf v
              (Write w (table_header quote (Table v) cols)) log1)
    as [[w2 log2] err2] eqn:HX.
  apply exportRows_appends in HX as [b Hb].
  pose proof (wrote_trans _ _ _ _ _ (wrote_Write w _) Hb) as H2.
  destruct err2 as [e|]; inversion H; subst; [eauto|].
  eexists. eapply wrote_trans; [exact H2|].
  eapply wrote_trans; [apply wrote_Write|apply post_actions_written].
Qed.

Lemma MakeDump_loop_framing quote render db mf fuel calls :
  forall iterator w log w' log',
  MakeDump_loop quote render db mf calls fuel iterator w log =
    (w', log', Finished) ->
  exists body, wrote w w' (body +:+ END_DUMP).
Proof.
  induction calls as [|calls IH]; intros iterator w log w' log' H; simpl in H;
    [done|].
  destruct (Next db fuel iterator log) as [[[it1 log1] [[v|]|e]]|]; try done.
  - destruct (MakeDump_body quote render db mf v w log1)
      as [[w1 log2] [e|]] eqn:Hb; [done|].
    apply MakeDump_body_appends in Hb as [b Hb].
    apply IH in H as [body H]. exists (b +:+ body).
    rewrite append_assoc. by eapply wrote_trans.
  - inversion H; subst. exists EmptyString. apply wrote_Write.
Qed.

(** ** C5: the framing of a successful run *)

(** C5, as the code has it.  In a run of [MakeDump] that returns [nil], the
    bytes that [MakeDump] has written to the sink are the constant
    [BEGIN_DUMP] first and the constant [END_DUMP] last, and a sink that
    takes every write holds them after what it held before.  For an empty
    table list [MakeDump] makes exactly the two writes, and such a run does
    return [nil], on every sink: [MakeDump] does not look at the outcome of
    its writes. *)
Theorem dump_is_framed quote render db mf w calls fuel w' log' :
  MakeDump quote render db mf w calls fuel = (w', log', Finished) ->
  (exists body, wrote w w' (BEGIN_DUMP +:+ body +:+ END_DUMP)) /\
  (Tables mf = [] -> w' = Write (Write w BEGIN_DUMP) END_DUMP) /\
  (forall vars calls0 fuel0,
     MakeDump quote render db (mkManifest vars []) w (S calls0) (S fuel0) =
       (Write (Write w BEGIN_DUMP) END_DUMP, [], Finished)).
Proof.
  intros H. split; [|split].
  - unfold MakeDump in H. apply MakeDump_loop_framing in H as [body H].
    exists body. eapply wrote_trans; [|exact H]. apply wrote_Write.
  - intros Hnil. unfold MakeDump, NewManifestIterator in H. rewrite Hnil in H.
    destruct calls as [|calls]; [done|]. destruct fuel as [|fuel]; [done|].
    simpl in H. by inversion H; subst.
  - intros vars calls0 fuel0. reflexivity.
Qed.

Lemma dump_is_framed_witness :
  exists w' log' body,
    MakeDump sample_quote Render shop_db shop_manifest buffer 9 9 =
      (w', log', Finished) /\
    wrote buffer w' (BEGIN_DUMP +:+ body +:+ END_DUMP) /\
    held w' = BEGIN_DUMP +:+ body +:+ END_DUMP.
Proof.
  destruct (MakeDump sample_quote Render shop_db shop_manifest buffer 9 9)
    as [[w' log'] out] eqn:E.
  assert (Hout : out = Finished) by (by vm_compute in E; inversion E).
  subst out.
  destruct (proj1 (dump_is_framed sample_quote Render shop_db shop_manifest
                     buffer 9 9 w' log' E)) as [body Hw].
  exists w', log', body. split; [reflexivity|]. split; [exact Hw|].
  destruct Hw as (_ & _ & Hh). exact (Hh buffer_reliable).
Defined.

Lemma prefix_append (p post : string) : String.prefix p (p +:+ post) = true.
Proof.
  induction p as [|a p IH]; [by destruct post|].
  change (String.prefix (String a p) (String a (p +:+ post)) = true).
  simpl. by destruct (ascii_dec a a).
Qed.

Lemma occursb_unfold (p s : string) :
  occursb p s =
  String.prefix p s ||
  match s with EmptyString => false | String _ s' => occursb p s' end.
Proof. by destruct s. Qed.

Lemma occursb_intro (pre p post : string) :
  occursb p (pre +:+ p +:+ post) = true.
Proof.
  induction pre as [|x pre IH].
  - change (occursb p (p +:+ post) = true).
    by rewrite occursb_unfold, prefix_append.
  - change (occursb p (String x (pre +:+ p +:+ post)) = true).
    rewrite occursb_unfold, IH. apply orb_true_r.
Qed.

(** C5 as stated fails: the successful run on the empty table list, on a
    sink that takes every write, leaves a document in which the preamble,
    as section 6 of the specification prints it, occurs nowhere, whatever
    the text of its comment line: [BEGIN_DUMP] has an empty line between the
    settings of [client_min_messages] and of [search_path], and starts with
    an empty line. *)
Lemma framing_as_printed_counterexample :
  (MakeDump sample_quote Render shop_db (mkManifest ∅ []) buffer 1 1).2 =
    Finished /\
  ~ exists comment,
      occurs_in (spec_preamble comment)
        (held (MakeDump sample_quote Render shop_db (mkManifest ∅ [])
                 buffer 1 1).1.1).
Proof.
  split; [reflexivity|]. intros (comment & pre & post & H).
  unfold spec_preamble in H. rewrite !append_assoc, <- !append_assoc in H.
  rewrite append_assoc in H.
  pose proof (occursb_intro ((pre +:+ "--
-- ") +:+ comment) spec_preamble_rest post) as Ho.
  rewrite <- H in Ho. vm_compute in Ho. discriminate.
Qed.

(** On a sink that takes nothing, [MakeDump] returns [nil] all the same,
    and the sink holds no framing. *)
Lemma rejected_writes_go_unreported :
  exists w',
    MakeDump sample_quote Render shop_db (mkManifest ∅ []) broken_pipe 1 1 =
      (w', [], Finished) /\
    written w' = [BEGIN_DUMP; END_DUMP] /\ held w' = EmptyString.
Proof. eexists. split; [reflexivity|]. done. Qed.

(** ** The call log of a run *)

Section Log.
Variable quote : quoter.
Variable render : engine.
Variable db : DB.
Variable mf : Manifest.

Lemma extends_refl log : extends render db mf log log None.
Proof. exists []. rewrite app_nil_r. split; [done|]. split; constructor. Qed.

Lemma extends_trans log log1 log2 err :
  extends render db mf log log1 None -> extends render db mf log1 log2 err ->
  extends render db mf log log2 err.
Proof.
  intros (ext1 & -> & Ht1 & Hc1) (ext2 & -> & Ht2 & Hc2).
  exists (ext1 ++ ext2). rewrite app_assoc. split; [done|].
  split; [by apply Forall_app|].
  destruct err as [e|].
  - destruct Hc2 as (pre & c & -> & Hpre & Hc).
    exists (ext1 ++ pre), c. rewrite app_assoc. split; [done|].
    split; [by apply Forall_app|done].
  - by apply Forall_app.
Qed.

Lemma extends_call log c :
  truthful render db mf c ->
  extends render db mf log (log ++ [c]) (call_error c).
Proof.
  intros Ht. exists [c]. split; [done|]. split; [by constructor|].
  destruct (call_error c) as [e|] eqn:E.
  - exists [], c. split; [done|]. split; [constructor|done].
  - by repeat constructor.
Qed.

Lemma Next_extends fuel m log m' log' r :
  Next db fuel m log = Some (m', log', r) ->
  extends render db mf log log' (result_error r).
Proof.
  intros HN.
  refine (Next_rule db (fun _ log1 => extends render db mf log log1 None)
            (fun x => extends render db mf log x.1.2 (result_error x.2))
            _ _ fuel m log (m', log', r) (extends_refl log) HN).
  - clear. intros m log1 m' log' He Hp.
    destruct (Next_pass_cases db m log1) as
      [(_ & Hq)|[(? & ? & _ & _ & Hq)|[(? & ? & ? & ? & _ & _ & _ & Hq)|
       [(table & ? & ? & deps & ? & ? & ? & _ & _ & Hdeps & _ & _ & Hq)|
        (? & ? & ? & ? & _ & _ & _ & _ & Hq)]]]];
      rewrite Hq in Hp; inversion Hp; subst; [done|].
    apply (extends_trans _ _ _ _ He).
    apply (extends_call log1 (CallDeps table (Ok deps))). by simpl.
  - clear. intros m log1 [[m' log'] r] He Hp. simpl.
    destruct (Next_pass_cases db m log1) as
      [(_ & Hq)|[(? & ? & _ & _ & Hq)|[(table & ? & ? & e & _ & _ & Hdeps & Hq)|
       [(? & ? & ? & ? & ? & ? & ? & _ & _ & _ & _ & _ & Hq)|
        (table & ? & ? & deps & _ & _ & Hdeps & _ & Hq)]]]];
      rewrite Hq in Hp; inversion Hp; subst; [done| |].
    + apply (extends_trans _ _ _ _ He).
      apply (extends_call log1 (CallDeps table (Err e))). by simpl.
    + apply (extends_trans _ _ _ _ He).
      apply (extends_call log1 (CallDeps table (Ok deps))). by simpl.
Qed.

Lemma resolveColumns_extends v log r log1 :
  resolveColumns db v log = (r, log1) ->
  extends render db mf log log1 (result_error r).
Proof.
  unfold resolveColumns. intros Hr.
  destruct (length (Columns v) =? 0); inversion Hr; subst.
  - apply (extends_call log (CallCols (Table v) (getTableCols db (Table v)))).
    by simpl.
  - apply extends_refl.
Qed.

Lemma dumpTable_extends w log table w' log' err :
  dumpTable db w log table = (w', log', err) ->
  extends render db mf log log' err.
Proof.
  unfold dumpTable. generalize (Sprintf "COPY %s TO STDOUT" [table]).
  intros sql H. destruct (CopyTo db sql) as [data oe] eqn:E.
  inversion H; subst.
  pose proof (extends_call log (CallCopy sql (data, err))) as Hc.
  destruct err as [e|]; apply Hc; by simpl.
Qed.

Lemma exportRows_extends v w log w' log' err :
  exportRows render db mf v w log = (w', log', err) ->
  extends render db mf log log' err.
Proof.
  unfold exportRows. intros H.
  destruct (bool_decide (Query v = EmptyString)).
  - by apply dumpTable_extends in H.
  - destruct (render (Query v) (Vars mf)) as [query|e] eqn:Hq.
    + apply dumpTable_extends in H. eapply extends_trans; [|done].
      apply (extends_call log (CallRender (Query v) (Ok query))). by simpl.
    + inversion H; subst.
      apply (extends_call log (CallRender (Query v) (Err e))). by simpl.
Qed.

Lemma MakeDump_body_extends v w log w' log' err :
  MakeDump_body quote render db mf v w log = (w', log', err) ->
  extends render db mf log log' err.
Proof.
  unfold MakeDump_body. intros H.
  destruct (resolveColumns db v log) as [[cols|e] log1] eqn:Hr;
    apply resolveColumns_extends in Hr; simpl in Hr.
  2:{ by inversion H; subst. }
  destruct (exportRows render db mf v (beginTable quote w (Table v) cols) log1)
    as [[w2 log2] err2] eqn:HX.
  apply exportRows_extends in HX.
  destruct err2 as [e|]; inversion H; subst; by eapply extends_trans.
Qed.

Lemma MakeDump_loop_extends fuel calls :
  forall iterator w log w' log' out,
  MakeDump_loop quote render db mf calls fuel iterator w log = (w', log', out) ->
  extends render db mf log log' (outcome_error out).
Proof.
  induction calls as [|calls IH]; intros iterator w log w' log' out H;
    simpl in H.
  { inversion H; subst. apply extends_refl. }
  destruct (Next db fuel iterator log) as [[[it1 log1] r]|] eqn:HN.
  2:{ inversion H; subst. apply extends_refl. }
  apply Next_extends in HN.
  destruct r as [[v|]|e]; simpl in HN.
  - destruct (MakeDump_body quote render db mf v w log1) as [[w1 log2] err] eqn:Hb.
    apply MakeDump_body_extends in Hb.
    destruct err as [e|].
    + inversion H; subst. by eapply extends_trans.
    + apply IH in H. eapply extends_trans; [|done]. by eapply extends_trans.
  - by inversion H; subst.
  - by inversion H; subst.
Qed.
End Log.

(** ** C6: the first failure is returned *)

Lemma Next_failure db fuel m log m' log2 e :
  Next db fuel m log = Some (m', log2, Err e) ->
  exists pre table,
    log2 = log ++ pre ++ [CallDeps table (Err e)] /\ clean pre /\
    getTableDeps db table = Err e.
Proof.
  intros HN.
  refine (Next_rule db
            (fun _ log1 => exists pre, log1 = log ++ pre /\ clean pre)
            (fun x => forall e, x.2 = Err e ->
               exists pre table,
                 x.1.2 = log ++ pre ++ [CallDeps table (Err e)] /\ clean pre /\
                 getTableDeps db table = Err e)
            _ _ fuel m log (m', log2, Err e) _ HN e eq_refl).
  - clear. intros m log1 m' log' (pre & -> & Hpre) Hp.
    destruct (Next_pass_cases db m (log ++ pre)) as
      [(_ & Hq)|[(? & ? & _ & _ & Hq)|[(? & ? & ? & ? & _ & _ & _ & Hq)|
       [(table & ? & ? & deps & ? & ? & ? & _ & _ & Hdeps & _ & _ & Hq)|
        (? & ? & ? & ? & _ & _ & _ & _ & Hq)]]]];
      rewrite Hq in Hp; inversion Hp; subst; [by exists pre|].
    exists (pre ++ [CallDeps table (Ok deps)]). rewrite app_assoc.
    split; [done|]. apply Forall_app. split; [done|]. by repeat constructor.
  - clear. intros m log1 [[m' log'] r] (pre & -> & Hpre) Hp e Hr.
    simpl in *. subst r.
    destruct (Next_pass_cases db m (log ++ pre)) as
      [(_ & Hq)|[(? & ? & _ & _ & Hq)|[(table & ? & ? & e' & _ & _ & Hdeps & Hq)|
       [(? & ? & ? & ? & ? & ? & ? & _ & _ & _ & _ & _ & Hq)|
        (? & ? & ? & ? & _ & _ & _ & _ & Hq)]]]];
      rewrite Hq in Hp; inversion Hp; subst.
    exists pre, table. by rewrite app_assoc.
  - exists []. rewrite app_nil_r. split; [done|constructor].
Qed.

(** C6, as the code has it.  In every run of [MakeDump] the log holds the
    answers of the collaborators; when [MakeDump] returns an error, the last
    call of the log is the one that failed, no call before it failed, and
    the error returned is the error of that call, unchanged; when it returns
    no error, no call failed.  Likewise a call of [Next] that returns an
    error made a dependency lookup that failed with that very error as its
    last call, after lookups that all succeeded. *)
Theorem first_failure_is_returned quote render db mf w calls fuel w' log' out :
  MakeDump quote render db mf w calls fuel = (w', log', out) ->
  Forall (truthful render db mf) log' /\
  match out with
  | Failed e => aborted_at log' e
  | _ => clean log'
  end /\
  forall fuel0 m log m' log2 e,
    Next db fuel0 m log = Some (m', log2, Err e) ->
    exists pre table,
      log2 = log ++ pre ++ [CallDeps table (Err e)] /\ clean pre /\
      getTableDeps db table = Err e.
Proof.
  intros H. unfold MakeDump in H.
  apply (MakeDump_loop_extends quote render db mf) in H as (ext & -> & Ht & Hc).
  split; [done|]. split; [by destruct out|].
  intros fuel0 m log m' log2 e. apply Next_failure.
Qed.

Lemma first_failure_is_returned_witness :
  exists w' log',
    MakeDump sample_quote Render lost_at_export_db (mkManifest ∅ [plain "users"; plain "orders"])
      buffer 9 9 = (w', log', Failed "connection lost") /\
    Forall (truthful Render lost_at_export_db
              (mkManifest ∅ [plain "users"; plain "orders"])) log' /\
    aborted_at log' "connection lost".
Proof.
  destruct (MakeDump sample_quote Render lost_at_export_db
              (mkManifest ∅ [plain "users"; plain "orders"]) buffer 9 9)
    as [[w' log'] out] eqn:E.
  assert (Hout : out = Failed "connection lost")
    by (by vm_compute in E; inversion E).
  subst out. exists w', log'. split; [reflexivity|].
  destruct (first_failure_is_returned sample_quote Render lost_at_export_db
              (mkManifest ∅ [plain "users"; plain "orders"]) buffer 9 9
              w' log' (Failed "connection lost") E) as (H1 & H2 & _).
  by split.
Defined.

(** C6 as stated fails in its promise of context: no reading of the
    returned error tells the table and the phase of the failure.  The run
    that loses the connection at the dependency lookup of [users] and the
    run that loses it at the row export of [orders] return the same
    error. *)
Lemma error_context_counterexample :
  ~ exists diagnose : error -> phase * string,
      forall db mf calls fuel w' log' e,
        MakeDump sample_quote Render db mf buffer calls fuel = (w', log', Failed e) ->
        call_site <$> last log' = Some (diagnose e).
Proof.
  intros [diagnose H].
  pose proof (H lost_at_lookup_db (mkManifest ∅ [plain "users"]) 9 9
                _ _ _ eq_refl) as H1.
  pose proof (H lost_at_export_db (mkManifest ∅ [plain "orders"]) 9 9
                _ _ _ eq_refl) as H2.
  vm_compute in H1, H2. congruence.
Qed.

(** ** C7: the query template *)

Lemma substitute_text_step vars c rest :
  c <> "{"%char ->
  substitute vars None (String c rest) =
  match substitute vars None rest with
  | Ok out => Ok (String c out)
  | Err e => Err e
  end.
Proof.
  intros Hc.
  destruct c as [[] [] [] [] [] [] [] []]; try reflexivity.
  by destruct Hc.
Qed.

Lemma substitute_name_step vars acc c rest :
  c <> "}"%char ->
  substitute vars (Some acc) (String c rest) =
  substitute vars (Some (acc +:+ String c EmptyString)) rest.
Proof.
  intros Hc.
  destruct c as [[] [] [] [] [] [] [] []]; try reflexivity.
  by destruct Hc.
Qed.

Lemma lacks_cons x c s :
  lacks x (String c s) = true -> c <> x /\ lacks x s = true.
Proof.
  simpl. intros H. apply andb_true_iff in H as [Hc Hs]. split; [|done].
  intros ->. by rewrite Ascii.eqb_refl in Hc.
Qed.

(** Text without an opening brace is copied. *)
Lemma substitute_text vars text rest :
  lacks "{" text = true ->
  substitute vars None (text +:+ rest) =
  match substitute vars None rest with
  | Ok out => Ok (text +:+ out)
  | Err e => Err e
  end.
Proof.
  induction text as [|c text IH]; intros H.
  - change (EmptyString +:+ rest) with rest.
    by destruct (substitute vars None rest).
  - apply lacks_cons in H as [Hc H].
    change (String c text +:+ rest) with (String c (text +:+ rest)).
    rewrite (substitute_text_step vars c _ Hc), (IH H).
    by destruct (substitute vars None rest).
Qed.

(** Inside a tag the name is read up to the closing braces and replaced by
    its value. *)
Lemma substitute_name vars name :
  forall acc rest,
  lacks "}" name = true ->
  substitute vars (Some acc) (name +:+ "}}" +:+ rest) =
  match substitute vars None rest with
  | Ok out => Ok (escape (default EmptyString (vars !! (acc +:+ name))) +:+ out)
  | Err e => Err e
  end.
Proof.
  induction name as [|c name IH]; intros acc rest H.
  - by rewrite append_nil_r.
  - apply lacks_cons in H as [Hc H].
    change (String c name +:+ "}}" +:+ rest)
      with (String c (name +:+ "}}" +:+ rest)).
    rewrite (substitute_name_step vars acc c _ Hc), (IH _ _ H).
    by rewrite append_assoc.
Qed.

(** The law of the engine: a tag is replaced by the value of its name. *)
Lemma Render_tag text name rest vars :
  lacks "{" text = true -> lacks "}" name = true ->
  Render (text +:+ "{{" +:+ name +:+ "}}" +:+ rest) vars =
  match Render rest vars with
  | Ok out =>
      Ok (text +:+ escape (default EmptyString (vars !! name)) +:+ out)
  | Err e => Err e
  end.
Proof.
  intros Ht Hn. unfold Render. rewrite (substitute_text vars text _ Ht).
  change ("{{" +:+ name +:+ "}}" +:+ rest)
    with (String "{" (String "{" (name +:+ "}}" +:+ rest))).
  change (substitute vars None
            (String "{" (String "{" (name +:+ "}}" +:+ rest))))
    with (substitute vars (Some EmptyString) (name +:+ "}}" +:+ rest)).
  rewrite (substitute_name vars name EmptyString rest Hn).
  by destruct (substitute vars None rest).
Qed.

Lemma wrapped_copy query :
  Sprintf "COPY %s TO STDOUT" [Sprintf "(%s)" [query]] =
  "COPY (" +:+ query +:+ ") TO STDOUT".
Proof.
  change ("COPY (" +:+ ((query +:+ ")") +:+ " TO STDOUT") =
          "COPY (" +:+ (query +:+ ") TO STDOUT")).
  rewrite append_assoc. reflexivity.
Qed.

(** C7. For an entry with a non-empty query whose columns were resolved,
    the body of the loop renders the query template with the variables of
    the manifest and, when the rendering succeeds, exports the statement
    that copies the rendered query in parentheses; a failed rendering is
    returned.  The engine replaces a tag by the value of its name, and the
    example of the specification holds: the template renders to
    [SELECT * FROM users WHERE active] and [MakeDump] exports it. *)
Theorem query_is_rendered_and_wrapped quote render db mf v w log cols log1 :
  Query v <> EmptyString ->
  resolveColumns db v log = (Ok cols, log1) ->
  (exists w' log' err,
     MakeDump_body quote render db mf v w log = (w', log', err) /\
     match render (Query v) (Vars mf) with
     | Ok query =>
         log' = log1 ++
           [CallRender (Query v) (Ok query);
            CallCopy ("COPY (" +:+ query +:+ ") TO STDOUT")
                     (CopyTo db ("COPY (" +:+ query +:+ ") TO STDOUT"))]
     | Err e =>
         log' = log1 ++ [CallRender (Query v) (Err e)] /\ err = Some e
     end) /\
  (forall text name rest vars,
     lacks "{" text = true -> lacks "}" name = true ->
     Render (text +:+ "{{" +:+ name +:+ "}}" +:+ rest) vars =
     match Render rest vars with
     | Ok out =>
         Ok (text +:+ escape (default EmptyString (vars !! name)) +:+ out)
     | Err e => Err e
     end) /\
  Render "SELECT * FROM {{t}} WHERE active" {[ "t" := "users" ]} =
    Ok "SELECT * FROM users WHERE active" /\
  (MakeDump sample_quote Render shop_db active_users_manifest buffer 9 9).1.2 =
    [CallDeps "active_users" (Ok []);
     CallCols "active_users" (Ok ["id"; "name"]);
     CallRender "SELECT * FROM {{t}} WHERE active"
       (Ok "SELECT * FROM users WHERE active");
     CallCopy "COPY (SELECT * FROM users WHERE active) TO STDOUT"
       (CopyTo shop_db "COPY (SELECT * FROM users WHERE active) TO STDOUT")].
Proof.
  intros Hq Hcols. split; [|split; [apply Render_tag|split; reflexivity]].
  unfold MakeDump_body. rewrite Hcols. unfold exportRows.
  rewrite bool_decide_eq_false_2 by done.
  destruct (render (Query v) (Vars mf)) as [query|e].
  - unfold dumpTable.
    rewrite wrapped_copy.
    destruct (CopyTo db ("COPY (" +:+ query +:+ ") TO STDOUT")) as [data [e|]];
      simpl; eexists _, _, _; (split; [reflexivity|]);
      by rewrite <- app_assoc.
  - eexists _, _, _. split; [reflexivity|]. done.
Qed.

Lemma query_is_rendered_and_wrapped_witness :
  exists w' log' err,
    MakeDump_body sample_quote Render shop_db active_users_manifest
      (mkItem "active_users" "SELECT * FROM {{t}} WHERE active" [] [])
      buffer [] = (w', log', err) /\
    log' =
      [CallCols "active_users" (Ok ["id"; "name"])] ++
      [CallRender "SELECT * FROM {{t}} WHERE active"
         (Ok "SELECT * FROM users WHERE active");
       CallCopy "COPY (SELECT * FROM users WHERE active) TO STDOUT"
         (CopyTo shop_db "COPY (SELECT * FROM users WHERE active) TO STDOUT")].
Proof.
  destruct (query_is_rendered_and_wrapped sample_quote Render shop_db
              active_users_manifest
              (mkItem "active_users" "SELECT * FROM {{t}} WHERE active" [] [])
              buffer [] ["id"; "name"]
              [CallCols "active_users" (Ok ["id"; "name"])]
              ltac:(discriminate) ltac:(reflexivity))
    as ((w' & log' & err & Hb & Hl) & _).
  exists w', log', err. split; [exact Hb|exact Hl].
Defined.

(** ** C8: the columns of the header *)

Global Instance by_attnum_total : Total by_attnum.
Proof. intros a b. unfold by_attnum. lia. Qed.






(** * Further properties of the package *)

(** ** The iterator as constructed *)

(** X1. [NewManifestIterator] leaves every table name of the manifest pending
    on the stack, in the order and with the repetitions of the manifest;
    nothing is done; and [todo] holds for each name the last entry that the
    manifest has for it, under the name of that entry, and holds nothing for
    a name the manifest lacks. *)
Theorem new_iterator_state mf :
  stack (NewManifestIterator mf) = Table <$> Tables mf /\
  done (NewManifestIterator mf) = ∅ /\
  (forall t,
     todo (NewManifestIterator mf) !! t =
     last (filter (fun v => Table v = t) (Tables mf))) /\
  (forall t v, todo (NewManifestIterator mf) !! t = Some v ->
     Table v = t /\ v ∈ Tables mf) /\
  (forall t, todo (NewManifestIterator mf) !! t = None <->
     t ∉ Table <$> Tables mf).
Proof.
  split; [apply NewManifestIterator_stack|].
  split; [apply NewManifestIterator_done|].
  split; [apply NewManifestIterator_todo|].
  split.
  - intros t v H. rewrite NewManifestIterator_todo in H.
    by apply last_entry_Some.
  - intros t. rewrite NewManifestIterator_todo. split.
    + intros Hn Hin. destruct (last_entry_is_Some mf t Hin) as [v Hv].
      congruence.
    + apply last_entry_None.
Qed.

(** ** What a run returns *)

(** X2. Whatever its budget, a run returns only tables of the manifest's
    graph, and returns each as the entry the manifest has for it last, or as
    the default entry when the manifest has none: the resolver invents no
    table and alters no entry. *)
Theorem returned_items_are_known db mf calls fuel items m' log' out :
  drain db calls fuel (NewManifestIterator mf) [] = (items, m', log', out) ->
  forall v, v ∈ items ->
    reachable db mf (Table v) /\
    v = default (default_item (Table v)) (last_entry mf (Table v)).
Proof.
  intros Hd v Hin.
  destruct (drain_spec db mf fuel calls _ _ _ _ _ _
              (NewManifestIterator_Inv db mf) Hd)
    as (HI & _ & Hitems & Hkeys & _).
  split; [|by apply Hitems].
  apply (inv_reach db mf m' HI). right. apply Hkeys. right.
  apply list_elem_of_fmap. eauto.
Qed.

Lemma returned_items_are_known_witness :
  let '(items, _, _, _) :=
    drain shop_db 3 9 (NewManifestIterator shop_manifest) [] in
  forall v, v ∈ items ->
    reachable shop_db shop_manifest (Table v) /\
    v = default (default_item (Table v)) (last_entry shop_manifest (Table v)).
Proof.
  destruct (drain shop_db 3 9 (NewManifestIterator shop_manifest) [])
    as [[[items m'] log'] out] eqn:E.
  exact (returned_items_are_known shop_db shop_manifest 3 9 items m' log' out E).
Defined.

(** X3. A run that reaches the end has returned exactly the tables of the
    manifest's graph, the manifest tables and all that they reach through
    foreign keys, and leaves nothing to do and nothing pending. *)
Theorem finished_run_returns_closure db mf calls fuel items m' log' :
  drain db calls fuel (NewManifestIterator mf) [] = (items, m', log', Finished) ->
  (forall t, t ∈ Table <$> items <-> reachable db mf t) /\
  todo m' = ∅ /\ stack m' = [].
Proof.
  intros Hd.
  destruct (drain_spec db mf fuel calls _ _ _ _ _ _
              (NewManifestIterator_Inv db mf) Hd)
    as (HI & _ & _ & _ & _ & Hfin & _).
  destruct (Hfin (NewManifestIterator_Covered mf) eq_refl) as [Hst _].
  split; [|split; [|done]].
  - intros t. split.
    + intros Hin. apply (inv_reach db mf m' HI). right.
      by apply (drain_finished_names db mf calls fuel items m' log' Hd).
    + intros Hr.
      destruct (drain_finished_reachable db mf calls fuel items m' log' t Hd Hr)
        as (i & Hi & _).
      apply list_elem_of_fmap. exists (entry_of mf t).
      split; [by rewrite Table_entry_of|].
      by apply list_elem_of_lookup_2 in Hi.
  - apply map_eq. intros k. rewrite lookup_empty.
    apply (drain_finished_todo db mf calls fuel items m' log' Hd).
Qed.

Lemma finished_run_returns_closure_witness :
  exists items m' log',
    drain shop_db 9 9 (NewManifestIterator shop_manifest) [] =
      (items, m', log', Finished) /\
    (forall t, t ∈ Table <$> items <-> reachable shop_db shop_manifest t) /\
    todo m' = ∅ /\ stack m' = [].
Proof.
  destruct (drain shop_db 9 9 (NewManifestIterator shop_manifest) [])
    as [[[items m'] log'] out] eqn:E.
  assert (Hout : out = Finished) by (by vm_compute in E; inversion E).
  subst out. exists items, m', log'. split; [reflexivity|].
  exact (finished_run_returns_closure shop_db shop_manifest 9 9 items m' log' E).
Defined.

(** ** What a call never does *)

(** X4. A call of [Next], on any iterator, removes from [todo] nothing but
    the entry it returns and alters no entry; a call that returns the
    end-of-sequence signal leaves [todo] and [done] as they were; a call
    that returns an error leaves [done] as it was; and a call that returns
    an entry enters it in [done] under the name it had in [todo]. *)
Theorem Next_keeps_entries db fuel m log m' log' r :
  Next db fuel m log = Some (m', log', r) ->
  (forall k v, todo m !! k = Some v ->
     todo m' !! k = Some v \/ r = Ok (Some v)) /\
  match r with
  | Ok None => todo m' = todo m /\ done m' = done m /\ stack m' = []
  | Ok (Some v) =>
      exists table, done m' = <[table := v]> (done m) /\
                    todo m' !! table = None
  | Err e => done m' = done m
  end.
Proof.
  intros HN.
  pose (P := fun (m1 : ManifestIterator) (_ : list call) =>
    (forall k v, todo m !! k = Some v -> todo m1 !! k = Some v) /\
    done m1 = done m /\
    (todo m1 = todo m \/
     exists t rest, stack m1 = t :: rest /\ is_Some (todo m1 !! t))).
  refine (Next_rule db P
    (fun x => let '(m', _, r) := x in
      (forall k v, todo m !! k = Some v ->
         todo m' !! k = Some v \/ r = Ok (Some v)) /\
      match r with
      | Ok None => todo m' = todo m /\ done m' = done m /\ stack m' = []
      | Ok (Some v) =>
          exists table, done m' = <[table := v]> (done m) /\
                        todo m' !! table = None
      | Err e => done m' = done m
      end) _ _ fuel m log (m', log', r) _ HN).
  - clear. intros m1 log1 m2 log2 (Hkeep & Hdone & Hfront) Hp.
    destruct (Next_pass_cases db m1 log1) as
      [(_ & Hq)|[(table & rest & Hst & Hnone & Hq)|[(? & ? & ? & ? & _ & _ & _ & Hq)|
       [(table & rest & item & deps & todo2 & d & tds & Hst & Hitem & Hdeps & Hg & Hout & Hq)|
        (? & ? & ? & ? & _ & _ & _ & _ & Hq)]]]];
      rewrite Hq in Hp; inversion Hp; subst; clear Hp Hq.
    + split; [done|]. split; [done|]. left.
      destruct Hfront as [?|(t & rest' & Hst' & Hsome)]; [done|].
      rewrite Hst in Hst'. inversion Hst'; subst.
      rewrite Hnone in Hsome. by destruct Hsome.
    + split; [|split; [done|]].
      * intros k v Hk. simpl. apply Hg. left. by apply Hkeep.
      * right. exists d, (tds ++ table :: rest). split; [done|]. simpl.
        assert (d ∈ d :: tds) as Hd by (by left).
        apply Hout in Hd. tauto.
  - clear. intros m1 log1 [[m2 log2] r] (Hkeep & Hdone & Hfront) Hp.
    destruct (Next_pass_cases db m1 log1) as
      [(Hst & Hq)|[(? & ? & _ & _ & Hq)|[(table & rest & item & e & Hst & Hitem & Hdeps & Hq)|
       [(? & ? & ? & ? & ? & ? & ? & _ & _ & _ & _ & _ & Hq)|
        (table & rest & item & deps & Hst & Hitem & Hdeps & Hnone & Hq)]]]];
      rewrite Hq in Hp; inversion Hp; subst; clear Hp Hq.
    + split; [by intros k v Hk; left; apply Hkeep|].
      destruct Hfront as [?|(t & rest' & Hst' & _)]; [done|congruence].
    + split; [by intros k v Hk; left; apply Hkeep|done].
    + split.
      * intros k v Hk. simpl. apply Hkeep in Hk.
        destruct (decide (k = table)) as [-> |Hne].
        -- right. congruence.
        -- left. by rewrite lookup_delete_ne.
      * exists table. simpl. rewrite Hdone. split; [done|].
        apply lookup_delete_eq.
  - unfold P. split; [done|]. split; [done|]. by left.
Qed.

Lemma Next_keeps_entries_witness :
  exists m' log' r,
    Next shop_db 9 (NewManifestIterator shop_manifest) [] = Some (m', log', r) /\
    (forall k v, todo (NewManifestIterator shop_manifest) !! k = Some v ->
       todo m' !! k = Some v \/ r = Ok (Some v)).
Proof.
  destruct (Next shop_db 9 (NewManifestIterator shop_manifest) [])
    as [[[m' log'] r]|] eqn:E; [|by vm_compute in E].
  exists m', log', r. split; [reflexivity|].
  exact (proj1 (Next_keeps_entries shop_db 9 _ [] m' log' r E)).
Defined.

(** ** Tables that reference themselves *)

Lemma proper_Acc_in db mf (U : gset string) :
  acyclic_apart_from_self db mf -> (forall t, reachable db mf t -> t ∈ U) ->
  forall n (S : gset string) t,
    size (U ∖ S) <= n -> reachable db mf t ->
    (forall s, s ∈ S -> tc (proper_edge db) s t) ->
    Acc (flip (proper_edge db)) t.
Proof.
  intros Hacyc HU. induction n as [|n IH]; intros S t Hsize Ht HS.
  - assert (Hin : t ∈ S).
    { destruct (decide (t ∈ S)) as [?|Hn]; [done|].
      assert (t ∈ U ∖ S) as Hd by (apply elem_of_difference; auto).
      apply size_empty_iff in Hd; [done|]. lia. }
    destruct (Hacyc t Ht). by apply HS.
  - assert (Hn : t ∉ S) by (intros Hin; destruct (Hacyc t Ht); by apply HS).
    constructor. intros d He. unfold flip in He.
    apply (IH ({[t]} ∪ S)).
    + pose proof (size_difference_insert U S t (HU t Ht) Hn). lia.
    + destruct Ht as (t0 & Ht0 & Hrtc). exists t0. split; [done|].
      eapply rtc_r; [done|]. by destruct He.
    + intros s Hs. apply elem_of_union in Hs as [Hs|Hs].
      * apply elem_of_singleton in Hs as ->. by apply tc_once.
      * eapply tc_r; [by apply HS|done].
Qed.

Lemma Next_returns_front_proper db t :
  Acc (flip (proper_edge db)) t ->
  forall m log rest,
    stack m = t :: rest -> is_Some (todo m !! t) ->
    exists fuel x, Next db fuel m log = Some x.
Proof.
  induction 1 as [t _ IH]. intros m log rest Hst [item Hitem].
  destruct (Next_pass_cases db m log) as
    [(Hst' & _)|[(table & rest' & Hst' & Hnone & _)|[(table & rest' & item' & e & _ & _ & _ & Hq)|
     [(table & rest' & item' & deps & todo2 & d & tds & Hst' & _ & Hdeps & _ & Hout & Hq)|
      (table & rest' & item' & deps & _ & _ & _ & _ & Hq)]]]].
  - congruence.
  - rewrite Hst in Hst'. inversion Hst'; subst. congruence.
  - eexists 1, _. rewrite Next_unfold, Hq. done.
  - rewrite Hst in Hst'. inversion Hst'; subst table rest'.
    assert (Hd : d ∈ deps /\ is_Some (todo2 !! d) /\ d <> t)
      by (apply Hout; by left).
    destruct Hd as (Hin & Hsome & Hne).
    destruct (IH d (conj (proj2 (edge_deps db t deps d Hdeps) Hin) Hne)
                (mkIter todo2 (done m) ((d :: tds) ++ t :: rest))
                (log ++ [CallDeps t (Ok deps)]) (tds ++ t :: rest))
      as (fuel & x & HN); [done|done|].
    exists (S fuel), x. rewrite Next_unfold, Hq. done.
  - eexists 1, _. rewrite Next_unfold, Hq. done.
Qed.

Lemma Next_returns_proper db m log :
  (forall k, is_Some (todo m !! k) -> Acc (flip (proper_edge db)) k) ->
  exists fuel x, Next db fuel m log = Some x.
Proof.
  remember (stack m) as s eqn:Hs.
  revert m Hs. induction s as [|t rest IH]; intros m Hs Hacc.
  - exists 1. eexists. rewrite Next_unfold. unfold Next_pass. rewrite <- Hs. done.
  - destruct (todo m !! t) as [item|] eqn:Ht.
    + apply (Next_returns_front_proper db t) with (rest := rest); [|done|].
      * apply Hacc. rewrite Ht. eauto.
      * rewrite Ht. eauto.
    + destruct (IH (mkIter (todo m) (done m) rest) eq_refl Hacc)
        as (fuel & x & HN).
      exists (S fuel), x. rewrite Next_unfold. unfold Next_pass.
      rewrite <- Hs. simpl.
      assert (has_key (todo m) t = false) as -> by (by apply has_key_false).
      done.
Qed.

Lemma drain_returns_proper db mf (U : gset string) :
  (forall t, reachable db mf t -> Acc (flip (proper_edge db)) t) ->
  (forall t, reachable db mf t -> t ∈ U) ->
  forall n m log,
    Inv db mf m -> size (U ∖ dom (done m)) <= n ->
    exists calls fuel items m' log' out,
      drain db calls fuel m log = (items, m', log', out) /\ out <> OutOfFuel.
Proof.
  intros Hacc HU. induction n as [|n IH]; intros m log HI Hsize.
  all: destruct (Next_returns_proper db m log) as (fuel & [[m1 log1] r] & HN);
    [intros k Hk; apply Hacc, (inv_reach db mf m HI); by left|].
  all: destruct (Next_spec db mf fuel m log m1 log1 r HI HN) as (HI1 & Hr).
  all: destruct r as [[v|]|e];
    [|exists 1, fuel, [], m1, log1, Finished; rewrite drain_unfold, HN; done
     |exists 1, fuel, [], m1, log1, (Failed e); rewrite drain_unfold, HN; done].
  all: destruct Hr as (Hfresh & Hdone & _).
  all: assert (HvU : Table v ∈ U)
    by (apply HU, (inv_reach db mf m1 HI1); right;
        rewrite Hdone, lookup_insert_eq; eauto).
  all: assert (Hvd : Table v ∉ dom (done m)) by (by apply not_elem_of_dom).
  - assert (Table v ∈ U ∖ dom (done m)) as Hd by (by apply elem_of_difference).
    apply size_empty_iff in Hd; [done|]. lia.
  - destruct (IH m1 log1 HI1)
      as (calls & fuel1 & items & m' & log' & out & Hd & Hout).
    { rewrite Hdone, dom_insert_L.
      pose proof (size_difference_insert U (dom (done m)) (Table v) HvU Hvd).
      lia. }
    exists (S calls), (fuel `max` fuel1), (v :: items), m', log', out.
    split; [|done]. rewrite drain_unfold.
    rewrite (Next_fuel_mono db fuel (fuel `max` fuel1) m log _ HN) by lia.
    rewrite (drain_fuel_mono db fuel1 (fuel `max` fuel1) calls ltac:(lia)
               m1 log1 items m' log' out Hd Hout).
    done.
Qed.

(** X5. Self-references do not count as cycles.  For a manifest whose graph
    has no cycle apart from tables that reference themselves (and has
    finitely many tables), the successive calls of [Next] come to an end,
    with the end-of-sequence signal when no lookup fails, and every
    dependency of a returned table other than the table itself is returned
    strictly before it. *)
Theorem self_references_are_tolerated db mf :
  acyclic_apart_from_self db mf -> finite_graph db mf ->
  exists calls fuel items m' log' out,
    drain db calls fuel (NewManifestIterator mf) [] = (items, m', log', out) /\
    out <> OutOfFuel /\
    (lookups_succeed db mf -> out = Finished) /\
    forall i v dep,
      items !! i = Some v -> edge db (Table v) dep -> dep <> Table v ->
      emitted_before items i dep.
Proof.
  intros Hacyc [U HU].
  assert (Hacc : forall t, reachable db mf t -> Acc (flip (proper_edge db)) t).
  { intros t Ht.
    apply (proper_Acc_in db mf U Hacyc HU (size U) ∅); [|done|].
    - apply subseteq_size. intros x Hx.
      by apply elem_of_difference in Hx as [? _].
    - intros s Hs. by apply elem_of_empty in Hs. }
  destruct (drain_returns_proper db mf U Hacc HU (size U)
              (NewManifestIterator mf) [] (NewManifestIterator_Inv db mf))
    as (calls & fuel & items & m' & log' & out & Hd & Hout).
  { apply subseteq_size. intros x Hx. by apply elem_of_difference in Hx as [? _]. }
  exists calls, fuel, items, m', log', out. split; [done|]. split; [done|].
  destruct (drain_spec db mf fuel calls _ _ _ _ _ _
              (NewManifestIterator_Inv db mf) Hd)
    as (_ & _ & _ & _ & Hord & _ & Hf).
  split.
  - intros Htotal. destruct out as [|e|]; [done| |done].
    destruct (Hf e eq_refl) as (t & Hreach & Ht).
    destruct (Htotal t Hreach) as [deps Hdeps]. congruence.
  - intros i v dep Hi He Hne.
    destruct (Hord i v dep Hi He Hne) as [[x Hx]|?]; [|done].
    by rewrite NewManifestIterator_done, lookup_empty in Hx.
Qed.

Lemma tree_edges t d :
  edge tree_db t d -> d ∈ ["nodes"; "marks"] /\ (d <> t -> tree_rank d < tree_rank t).
Proof.
  intros (deps & Hdeps & Hin). unfold getTableDeps in Hdeps.
  simpl in Hdeps. unfold tree_rank.
  destruct (bool_decide (t = "nodes")) eqn:E1;
    [|destruct (bool_decide (t = "marks")) eqn:E2];
    inversion Hdeps; subst deps; clear Hdeps; rewrite collect_id in Hin;
    apply list_elem_of_In in Hin; simpl in Hin;
    rewrite list_elem_of_In; simpl.
  - apply bool_decide_eq_true in E1 as ->.
    destruct Hin as [<-|[]]. split; [tauto|done].
  - apply bool_decide_eq_true in E2 as ->.
    destruct Hin as [<-|[<-|[]]]; (split; [tauto|]); [done|].
    intros _. vm_compute. lia.
  - destruct Hin.
Qed.

Lemma self_references_are_tolerated_witness :
  exists calls fuel items m' log' out,
    drain tree_db calls fuel (NewManifestIterator tree_manifest) [] =
      (items, m', log', out) /\
    out <> OutOfFuel /\
    (lookups_succeed tree_db tree_manifest -> out = Finished) /\
    forall i v dep,
      items !! i = Some v -> edge tree_db (Table v) dep -> dep <> Table v ->
      emitted_before items i dep.
Proof.
  apply (self_references_are_tolerated tree_db tree_manifest).
  - intros t _ Ht.
    assert (H : forall a b, tc (proper_edge tree_db) a b ->
                tree_rank b < tree_rank a).
    { induction 1 as [a b [He Hne]|a b c [He Hne] _ IH].
      - by apply (tree_edges a b).
      - pose proof (proj2 (tree_edges a b He) Hne). lia. }
    specialize (H t t Ht). lia.
  - apply (finite_of_targets _ _ (list_to_set ["nodes"; "marks"])).
    intros t d He. apply elem_of_list_to_set. by apply (tree_edges t).
Defined.

(** ** The order of the manifest *)

Lemma drain_in_order db fuel l :
  forall m log calls,
  NoDup (Table <$> l) ->
  stack m = Table <$> l ->
  (forall v, v ∈ l -> todo m !! Table v = Some v) ->
  (forall v, v ∈ l -> exists deps,
     getTableDeps db (Table v) = Ok deps /\
     forall d, d ∈ deps -> d = Table v) ->
  length l < calls ->
  exists m' log', drain db calls (S fuel) m log = (l, m', log', Finished).
Proof.
  induction l as [|v l IH]; intros m log calls Hnd Hst Htodo Hdeps Hc.
  - destruct calls as [|calls]; [simpl in Hc; lia|].
    exists m, log. rewrite drain_unfold, Next_unfold. unfold Next_pass.
    by rewrite Hst.
  - destruct calls as [|calls]; [simpl in Hc; lia|].
    rewrite fmap_cons in Hnd, Hst. apply NoDup_cons in Hnd as [Hv Hnd].
    destruct (Hdeps v) as (deps & Hd & Hself); [by left|].
    assert (Hitem : todo m !! Table v = Some v) by (apply Htodo; by left).
    assert (Hpass : Next_pass db m log =
              Return (mkIter (delete (Table v) (todo m))
                             (<[Table v := v]> (done m)) (Table <$> l),
                      log ++ [CallDeps (Table v) (Ok deps)], Ok (Some v))).
    { destruct (Next_pass_cases db m log) as
        [(Hst' & _)|[(table & rest & Hst' & Hnone & _)|[(table & rest & item & e & Hst' & _ & Hd' & _)|
         [(table & rest & item & deps' & todo2 & d & tds & Hst' & _ & Hd' & _ & Hout & _)|
          (table & rest & item & deps' & Hst' & Hitem' & Hd' & _ & Hq)]]]];
        rewrite Hst in Hst'; try done; inversion Hst'; subst table rest.
      - congruence.
      - congruence.
      - assert (d ∈ d :: tds) as Hin by (by left).
        apply Hout in Hin as (Hin & _ & Hne).
        rewrite Hd in Hd'. inversion Hd'; subst deps'.
        by destruct Hne; apply Hself.
      - rewrite Hq. congruence. }
    destruct (IH (mkIter (delete (Table v) (todo m))
                         (<[Table v := v]> (done m)) (Table <$> l))
                 (log ++ [CallDeps (Table v) (Ok deps)]) calls Hnd eq_refl)
      as (m' & log' & Hrun).
    + intros v' Hin. simpl. rewrite lookup_delete_ne.
      * apply Htodo. by right.
      * intros Heq. apply Hv. rewrite Heq. apply list_elem_of_fmap. eauto.
    + intros v' Hin. apply Hdeps. by right.
    + simpl in Hc. lia.
    + exists m', log'. rewrite drain_unfold, Next_unfold, Hpass, Hrun. done.
Qed.

(** X6. Manifest order is kept where no dependency forces another.  When
    the table names of the manifest are distinct and the dependency lookup
    of each manifest table reports no table other than the table itself, a
    run with budget for one call more than there are entries returns the
    entries of the manifest, unaltered and in the order of the manifest, and
    then the end-of-sequence signal. *)
Theorem manifest_order_is_kept db mf calls fuel :
  NoDup (Table <$> Tables mf) ->
  (forall v, v ∈ Tables mf -> exists deps,
     getTableDeps db (Table v) = Ok deps /\
     forall d, d ∈ deps -> d = Table v) ->
  length (Tables mf) < calls ->
  exists m' log',
    drain db calls (S fuel) (NewManifestIterator mf) [] =
      (Tables mf, m', log', Finished).
Proof.
  intros Hnd Hdeps Hc.
  apply drain_in_order; [done|apply NewManifestIterator_stack| |done|done].
  intros v Hin. rewrite NewManifestIterator_todo.
  unfold last_entry.
  assert (H : forall l, NoDup (Table <$> l) -> v ∈ l ->
            last (filter (fun v0 => Table v0 = Table v) l) = Some v).
  { clear. induction l as [|x l IH]; intros Hnd Hin.
    - by apply elem_of_nil in Hin.
    - rewrite fmap_cons in Hnd. apply NoDup_cons in Hnd as [Hx Hnd].
      rewrite filter_cons.
      assert (Hnone : x = v -> filter (fun v0 => Table v0 = Table v) l = []).
      { intros ->. clear -Hx. induction l as [|y l IH]; [done|].
        rewrite filter_cons. rewrite fmap_cons in Hx.
        apply not_elem_of_cons in Hx as [Hne Hx].
        destruct (decide (Table y = Table v)); [congruence|by apply IH]. }
      apply elem_of_cons in Hin as [<-|Hin].
      + destruct (decide (Table v = Table v)); [|done].
        by rewrite (Hnone eq_refl).
      + destruct (decide (Table x = Table v)) as [Heq|Hne]; [|by apply IH].
        exfalso. apply Hx. rewrite Heq. apply list_elem_of_fmap. eauto. }
  by apply H.
Qed.

Lemma manifest_order_is_kept_witness :
  exists m' log',
    drain tree_db 3 1 (NewManifestIterator (mkManifest ∅ [plain "nodes"; plain "leaves"])) [] =
      ([plain "nodes"; plain "leaves"], m', log', Finished).
Proof.
  apply (manifest_order_is_kept tree_db
           (mkManifest ∅ [plain "nodes"; plain "leaves"]) 3 0).
  - simpl. apply NoDup_cons. split.
    + intros H. apply list_elem_of_In in H. simpl in H. intuition discriminate.
    + apply NoDup_singleton.
  - intros v Hv. apply list_elem_of_In in Hv. simpl in Hv.
    destruct Hv as [<-|[<-|[]]].
    + exists ["nodes"]. split; [reflexivity|].
      intros d Hd. apply list_elem_of_In in Hd. simpl in Hd. by destruct Hd as [<-|[]].
    + exists []. split; [reflexivity|].
      intros d Hd. by apply elem_of_nil in Hd.
  - simpl. lia.
Defined.

(** ** A server that answers from its catalogue *)

Lemma catalogue_edge db relations catalog t d :
  query_constraints db = pg_query_constraints relations catalog ->
  edge db t d <->
  t ∈ relations /\
  exists c, c ∈ catalog /\ conrelid c = t /\ confrelid c = d /\
            contype c = "f"%char.
Proof.
  intros Hq. unfold edge, getTableDeps. rewrite Hq. unfold pg_query_constraints.
  case_bool_decide as Hrel.
  - split.
    + intros (deps & Hdeps & Hin). inversion Hdeps; subst deps.
      rewrite collect_id in Hin. unfold select_constraints in Hin.
      apply list_elem_of_fmap in Hin as (c & -> & Hc).
      apply list_elem_of_filter in Hc as [[? ?] ?]. split; [done|].
      by exists c.
    + intros (_ & c & Hc & Ht & Hd & Hf). eexists. split; [reflexivity|].
      rewrite collect_id. unfold select_constraints.
      apply list_elem_of_fmap. exists c. split; [done|].
      apply list_elem_of_filter. by split.
  - split; [by intros (deps & Hdeps & _)|tauto].
Qed.

(** X7. Against a server that answers the dependency query of
    [getTableDeps] from its catalogue, the dependencies of a table are the
    targets of its foreign-key constraints, constraints of other types are
    left out, and a table that is no relation has none; the graph of every
    manifest is finite; and when that graph is acyclic the successive calls
    of [Next] come to an end. *)
Theorem catalogue_graph_is_finite db mf relations catalog :
  query_constraints db = pg_query_constraints relations catalog ->
  (forall t d, edge db t d <->
     t ∈ relations /\
     exists c, c ∈ catalog /\ conrelid c = t /\ confrelid c = d /\
               contype c = "f"%char) /\
  finite_graph db mf /\
  (acyclic db mf ->
   exists calls fuel items m' log' out,
     drain db calls fuel (NewManifestIterator mf) [] = (items, m', log', out) /\
     out <> OutOfFuel).
Proof.
  intros Hq.
  assert (Hfin : finite_graph db mf).
  { apply (finite_of_targets db mf (list_to_set (confrelid <$> catalog))).
    intros t d He. apply (catalogue_edge db relations catalog t d Hq) in He
      as (_ & c & Hc & _ & <- & _).
    apply elem_of_list_to_set, list_elem_of_fmap. eauto. }
  split; [intros t d; by apply catalogue_edge|]. split; [done|].
  intros Hacyc.
  destruct (drain_acyclic_returns db mf Hacyc Hfin)
    as (calls & fuel & items & m' & log' & out & Hd & Hout & _).
  by exists calls, fuel, items, m', log', out.
Qed.

Lemma catalogue_graph_is_finite_witness :
  (forall t d, edge orders_db t d <->
     t ∈ ["orders"; "users"; "products"] /\
     exists c, c ∈ orders_constraints /\ conrelid c = t /\ confrelid c = d /\
               contype c = "f"%char) /\
  finite_graph orders_db shop_manifest /\
  (acyclic orders_db shop_manifest ->
   exists calls fuel items m' log' out,
     drain orders_db calls fuel (NewManifestIterator shop_manifest) [] =
       (items, m', log', out) /\
     out <> OutOfFuel).
Proof.
  apply (catalogue_graph_is_finite orders_db shop_manifest
           ["orders"; "users"; "products"] orders_constraints).
  reflexivity.
Defined.

(** ** The document that a run writes *)

(** The call log records the calls and decides nothing. *)
Lemma Next_any_log db fuel :
  forall m log m' log' r,
  Next db fuel m log = Some (m', log', r) ->
  exists ext, log' = log ++ ext /\
    forall log2, Next db fuel m log2 = Some (m', log2 ++ ext, r).
Proof.
  induction fuel as [|fuel IH]; intros m log m' log' r HN; [done|].
  rewrite Next_unfold in HN.
  assert (Hpass :
    (exists ext, Next_pass db m log = Return (m', log ++ ext, r) /\
       forall log2, Next_pass db m log2 = Return (m', log2 ++ ext, r)) \/
    (exists m1 ext, Next_pass db m log = Again m1 (log ++ ext) /\
       Next db fuel m1 (log ++ ext) = Some (m', log', r) /\
       forall log2, Next_pass db m log2 = Again m1 (log2 ++ ext))).
  { revert HN. unfold Next_pass.
    destruct (stack m) as [|table rest].
    { intros HN. inversion HN; subst. left. exists [].
      rewrite app_nil_r. split; [done|]. intros log2. by rewrite app_nil_r. }
    destruct (negb (has_key (todo (mkIter (todo m) (done m) rest)) table)).
    { intros HN. right. exists (mkIter (todo m) (done m) rest), [].
      rewrite app_nil_r. split; [done|]. split; [done|].
      intros log2. by rewrite app_nil_r. }
    simpl. destruct (getTableDeps db table) as [deps|e].
    2:{ intros HN. inversion HN; subst. left. by eexists. }
    destruct (scanDeps table deps (todo m) (done m) []) as [todo2 [|d tds]].
    - intros HN. inversion HN; subst. left. by eexists.
    - intros HN. right. by eexists _, _. }
  destruct Hpass as [(ext & Hp & Hall)|(m1 & ext & Hp & HN1 & Hall)].
  - exists ext. rewrite Hp in HN. split; [congruence|].
    intros log2. by rewrite Next_unfold, Hall.
  - destruct (IH _ _ _ _ _ HN1) as (ext1 & -> & Hall1).
    exists (ext ++ ext1). rewrite app_assoc. split; [done|].
    intros log2. rewrite Next_unfold, Hall, app_assoc. apply Hall1.
Qed.

Lemma drain_any_log db fuel calls :
  forall m log items m' log' out,
  drain db calls fuel m log = (items, m', log', out) ->
  forall log2, exists log2',
    drain db calls fuel m log2 = (items, m', log2', out).
Proof.
  induction calls as [|calls IH]; intros m log items m' log' out Hd log2.
  { simpl in *. inversion Hd; subst. eauto. }
  rewrite drain_unfold in *.
  destruct (Next db fuel m log) as [[[m1 log1] r]|] eqn:HN.
  - destruct (Next_any_log db fuel _ _ _ _ _ HN) as (ext & -> & Hall).
    rewrite Hall. destruct r as [[v|]|e].
    + destruct (drain db calls fuel m1 (log ++ ext))
        as [[[items1 m2] l2] out2] eqn:Hd1.
      inversion Hd; subst.
      destruct (IH _ _ _ _ _ _ Hd1 (log2 ++ ext)) as [l2' ->]. eauto.
    + inversion Hd; subst. eauto.
    + inversion Hd; subst. eauto.
  - inversion Hd; subst.
    destruct (Next db fuel m' log2) as [[[m1 log1] r]|] eqn:HN2; [|eauto].
    destruct (Next_any_log db fuel _ _ _ _ _ HN2) as (ext & _ & Hall).
    rewrite Hall in HN. done.
Qed.

Lemma resolveColumns_Ok db v log cols log1 :
  resolveColumns db v log = (Ok cols, log1) -> cols = block_columns db v.
Proof.
  unfold resolveColumns, block_columns. destruct (Columns v) as [|c cs]; simpl.
  - intros H. inversion H as [[Hc Hl]]. by rewrite Hc.
  - intros H. by inversion H.
Qed.

Lemma exportRows_written render db mf v w log w' log' err :
  exportRows render db mf v w log = (w', log', err) ->
  (exists e, Query v <> EmptyString /\
     render (Query v) (Vars mf) = Err e /\ err = Some e /\ w' = w) \/
  (err = (CopyTo db (block_statement render mf v)).2 /\
   w' = Write w (CopyTo db (block_statement render mf v)).1).
Proof.
  unfold exportRows, dumpTable, block_statement, block_source.
  case_bool_decide as Hq.
  - destruct (decide (Query v = EmptyString)); [|done].
    intros H. inversion H; subst. by right.
  - destruct (decide (Query v = EmptyString)); [done|].
    destruct (render (Query v) (Vars mf)) as [query|e].
    + intros H. inversion H; subst. by right.
    + intros H. inversion H; subst. left. by exists e.
Qed.

Lemma MakeDump_body_written quote render db mf v w log w' log' :
  MakeDump_body quote render db mf v w log = (w', log', None) ->
  wrote w w' (block quote render db mf v).
Proof.
  unfold MakeDump_body. intros H.
  destruct (resolveColumns db v log) as [[cols|e] log1] eqn:Hr; [|done].
  apply resolveColumns_Ok in Hr as ->. rewrite beginTable_header in H.
  destruct (exportRows render db mf v
              (Write w (table_header quote (Table v) (block_columns db v)))
              log1)
    as [[w2 log2] [e|]] eqn:HX; [done|].
  apply exportRows_written in HX as [(e & _ & _ & He & _)|(_ & ->)]; [done|].
  inversion H; subst. unfold block.
  eapply wrote_trans; [apply wrote_Write|].
  eapply wrote_trans; [apply wrote_Write|].
  eapply wrote_trans; [apply wrote_Write|apply post_actions_written].
Qed.

Lemma MakeDump_loop_document quote render db mf fuel calls :
  forall iterator w log w' log',
  MakeDump_loop quote render db mf calls fuel iterator w log =
    (w', log', Finished) ->
  exists items m' l,
    drain db calls fuel iterator [] = (items, m', l, Finished) /\
    wrote w w'
      (concat_strings (block quote render db mf <$> items) +:+ END_DUMP).
Proof.
  induction calls as [|calls IH]; intros iterator w log w' log' H; simpl in H;
    [done|].
  destruct (Next db fuel iterator log) as [[[it1 log1] r]|] eqn:HN; [|done].
  destruct (Next_any_log db fuel _ _ _ _ _ HN) as (ext & -> & Hall).
  rewrite drain_unfold, (Hall []).
  destruct r as [[v|]|e]; [| |done].
  - destruct (MakeDump_body quote render db mf v w (log ++ ext))
      as [[w1 log2] [e|]] eqn:Hb; [done|].
    apply MakeDump_body_written in Hb.
    apply IH in H as (items & m' & l & Hd & Hw).
    destruct (drain_any_log db fuel calls _ _ _ _ _ _ Hd ([] ++ ext))
      as [l' ->].
    exists (v :: items), m', l'. split; [done|].
    change (wrote w w'
              ((block quote render db mf v +:+
                concat_strings (block quote render db mf <$> items)) +:+
               END_DUMP)).
    rewrite append_assoc. by eapply wrote_trans.
  - inversion H; subst. exists [], it1, ([] ++ ext). split; [done|].
    apply wrote_Write.
Qed.

Lemma MakeDump_document quote render db mf w calls fuel w' log' :
  MakeDump quote render db mf w calls fuel = (w', log', Finished) ->
  exists items m' l,
    drain db calls fuel (NewManifestIterator mf) [] = (items, m', l, Finished) /\
    NoDup (Table <$> items) /\
    wrote w w' (document quote render db mf items).
Proof.
  unfold MakeDump. intros H.
  apply MakeDump_loop_document in H as (items & m' & l & Hd & Hw).
  exists items, m', l. split; [done|]. split.
  - by destruct (drain_spec db mf fuel calls _ _ _ _ _ _
                   (NewManifestIterator_Inv db mf) Hd) as (_ & Hnd & _).
  - unfold document. eapply wrote_trans; [apply wrote_Write|exact Hw].
Qed.

(** X8. The document of a successful run.  When [MakeDump] returns [nil],
    the successive calls of [Next] on a fresh iterator reach the end, and
    the bytes that [MakeDump] has written to the sink are the preamble, then
    one data block for each entry that the resolver returned, in the order
    of the resolver and with no table twice, then the postamble; a data
    block is the header with the columns of the entry as [strconv.Quote]
    gives them, the rows that the connection copied, the terminator, and
    the post-load statements of the entry in their order, each on a line of
    its own and followed by a semicolon.  A sink that takes every write
    holds this document after what it held before; [MakeDump] does not
    look at the outcome of its own writes, so that nothing is said of what
    another sink holds. *)
Theorem successful_run_document quote render db mf w calls fuel w' log' :
  MakeDump quote render db mf w calls fuel = (w', log', Finished) ->
  exists items m' l,
    drain db calls fuel (NewManifestIterator mf) [] = (items, m', l, Finished) /\
    NoDup (Table <$> items) /\
    asked w' = asked w +:+ document quote render db mf items /\
    (reliable w -> held w' = held w +:+ document quote render db mf items).
Proof.
  intros H.
  apply MakeDump_document in H as (items & m' & l & Hd & Hnd & _ & Ha & Hh).
  by exists items, m', l.
Qed.

Lemma successful_run_document_witness :
  exists w' log' items m' l,
    MakeDump sample_quote Render shop_db twice_manifest buffer 9 9 =
      (w', log', Finished) /\
    drain shop_db 9 9 (NewManifestIterator twice_manifest) [] =
      (items, m', l, Finished) /\
    NoDup (Table <$> items) /\
    asked w' =
      asked buffer +:+ document sample_quote Render shop_db twice_manifest
                         items /\
    held w' = document sample_quote Render shop_db twice_manifest items.
Proof.
  destruct (MakeDump sample_quote Render shop_db twice_manifest buffer 9 9)
    as [[w' log'] out] eqn:E.
  assert (Hout : out = Finished) by (by vm_compute in E; inversion E).
  subst out.
  destruct (successful_run_document sample_quote Render shop_db twice_manifest
              buffer 9 9 w' log' E) as (items & m' & l & Hd & Hnd & Ha & Hh).
  exists w', log', items, m', l. split; [reflexivity|].
  repeat (split; [done|]). exact (Hh buffer_reliable).
Defined.

(** X9. What a failing entry has written.  When the body of the loop of
    [MakeDump] returns an error for an entry, it has made no write when the
    column lookup failed; one write, of the header, when the rendering of
    the query failed; and the write of the header followed by the rows that
    the library copied so far when the export failed.  In no case has it
    written the terminator of the data block or a post-load statement of
    the entry.  What the sink holds of these writes is what it has taken of
    them. *)
Theorem failing_entry_output quote render db mf v w log w' log' e :
  MakeDump_body quote render db mf v w log = (w', log', Some e) ->
  (Columns v = [] /\ getTableCols db (Table v) = Err e /\ w' = w) \/
  (Query v <> EmptyString /\ render (Query v) (Vars mf) = Err e /\
   w' = Write w (table_header quote (Table v) (block_columns db v))) \/
  ((CopyTo db (block_statement render mf v)).2 = Some e /\
   wrote (Write w (table_header quote (Table v) (block_columns db v))) w'
     (CopyTo db (block_statement render mf v)).1).
Proof.
  unfold MakeDump_body. intros H.
  destruct (resolveColumns db v log) as [[cols|e0] log1] eqn:Hr.
  - apply resolveColumns_Ok in Hr as ->. rewrite beginTable_header in H.
    destruct (exportRows render db mf v
                (Write w (table_header quote (Table v) (block_columns db v)))
                log1)
      as [[w2 log2] [e2|]] eqn:HX; [|done].
    inversion H; subst. right.
    apply exportRows_written in HX as [(e1 & Hq & Hrender & He & ->)|(He & ->)].
    + left. by inversion He; subst.
    + right. split; [done|]. apply wrote_Write.
  - inversion H; subst. left. unfold resolveColumns in Hr.
    destruct (Columns v) as [|c cs]; simpl in Hr; [|done].
    by inversion Hr.
Qed.

Lemma failing_entry_output_witness :
  exists w' log',
    MakeDump_body sample_quote Render lost_at_export_db (mkManifest ∅ [])
      (plain "orders") buffer [] = (w', log', Some "connection lost") /\
    wrote (Write buffer (table_header sample_quote "orders" ["id"])) w'
      "1	".
Proof.
  destruct (MakeDump_body sample_quote Render lost_at_export_db
              (mkManifest ∅ []) (plain "orders") buffer [])
    as [[w' log'] err] eqn:E.
  assert (Herr : err = Some "connection lost")
    by (by vm_compute in E; inversion E).
  subst err. exists w', log'. split; [reflexivity|].
  destruct (failing_entry_output sample_quote Render lost_at_export_db
              (mkManifest ∅ []) (plain "orders") buffer [] w' log'
              "connection lost" E)
    as [(_ & Hc & _)|[(Hq & _)|(_ & Hw)]].
  - by vm_compute in Hc.
  - by destruct Hq.
  - exact Hw.
Defined.

(** ** The command *)

Lemma parseArgs_accepts os s options s' :
  parseArgs os s = Continue (Ok options) s' ->
  s' = s /\
  exists opts args,
    Parse os = Ok (opts, args) /\ flags.Help opts = false /\
    flags.ManifestFile opts <> EmptyString /\
    Atoi (flags.Port opts) = Some (Port options) /\
    length args <= 1 /\
    Host options = flags.Host opts /\
    NoPasswordPrompt options = flags.NoPasswordPrompt opts /\
    Password options = Getenv os "PGPASSWORD" /\
    ManifestFile options = flags.ManifestFile opts /\
    OutputFile options = flags.OutputFile opts /\
    UseTLS options = flags.UseTLS opts /\
    Database options = match args with
                       | [] => Getenv os "PGDATABASE"
                       | arg :: _ => arg
                       end /\
    (if bool_decide (flags.Username opts = EmptyString)
     then Current os = Ok (Username options)
     else Username options = flags.Username opts).
Proof.
  unfold parseArgs. intros H.
  destruct (Parse os) as [[opts args]|e] eqn:HP; [|done].
  destruct (flags.Help opts) eqn:Hh; [done|].
  case_bool_decide as Hm; [done|].
  destruct (if bool_decide (flags.Username opts = EmptyString)
            then Current os else Ok (flags.Username opts))
    as [username|e] eqn:Hu; [|done].
  destruct (Atoi (flags.Port opts)) as [port|] eqn:Hp; [|done].
  assert (Huser : if bool_decide (flags.Username opts = EmptyString)
                  then Current os = Ok username
                  else username = flags.Username opts).
  { case_bool_decide; [done|]. by inversion Hu. }
  destruct args as [|arg [|arg' args]]; [| |done].
  - inversion H; subst. split; [done|]. exists opts, [].
    repeat (split; [first [done | simpl; lia]|]). done.
  - inversion H; subst. split; [done|]. exists opts, [arg].
    repeat (split; [first [done | simpl; lia]|]). done.
Qed.

Lemma parseArgs_exits os s code s' :
  parseArgs os s = Exit code s' ->
  code = 0%Z /\ s' = to_stdout s (usage os) /\
  exists opts args, Parse os = Ok (opts, args) /\ flags.Help opts = true.
Proof.
  unfold parseArgs. intros H.
  destruct (Parse os) as [[opts args]|e] eqn:HP; [|done].
  destruct (flags.Help opts) eqn:Hh.
  { inversion H; subst. eauto 6. }
  case_bool_decide; [done|].
  destruct (if bool_decide (flags.Username opts = EmptyString)
            then Current os else Ok (flags.Username opts)); [|done].
  destruct (Atoi (flags.Port opts)); [|done].
  by destruct args as [|arg [|arg' args]].
Qed.

(** The runs of [main_dump]. *)
Lemma main_dump_cases os opts db s tried calls fuel code s' tried' :
  main_dump os opts db s tried calls fuel = Some (code, s', tried') ->
  tried' = tried /\
  (code = 1%Z \/
   (code = 0%Z /\ exists data manifest items m' l w,
      Open os (ManifestFile opts) = Ok (Ok data) /\
      manifest = (Unmarshal os data (mkManifest ∅ [])).1 /\
      drain db calls fuel (NewManifestIterator manifest) [] =
        (items, m', l, Finished) /\
      NoDup (Table <$> items) /\
      wrote (output opts s) w
        (document (strconv_Quote os) (mustache os) db manifest items) /\
      s' = output_write opts s w)).
Proof.
  unfold main_dump, NewManifest. intros H.
  destruct (Open os (ManifestFile opts)) as [[data|e]|e] eqn:HO; simpl in H.
  - destruct (MakeDump (strconv_Quote os) (mustache os) db
                (Unmarshal os data (mkManifest ∅ [])).1
                (output opts s) calls fuel) as [[w log] [|e|]] eqn:HM;
      [| |done].
    + inversion H; subst. split; [done|]. right. split; [done|].
      apply MakeDump_document in HM as (items & m' & l & Hd & Hnd & Hw).
      by exists data, (Unmarshal os data (mkManifest ∅ [])).1, items, m', l, w.
    + inversion H; subst. split; [done|]. by left.
  - inversion H; subst. split; [done|]. by left.
  - inversion H; subst. split; [done|]. by left.
Qed.

(** The runs of [main_connect]: connected at once; the password not read;
    or a second attempt, with the password typed or, with [-w], with the
    same password. *)
Lemma main_connect_cases os opts s calls fuel code s' tried :
  main_connect os opts s calls fuel = Some (code, s', tried) ->
  let first := connection opts (Password opts) in
  (select_1 os 0 first = None /\ tried = [first] /\
   main_dump os opts (Connect os 0 first) s [first] calls fuel =
     Some (code, s', tried)) \/
  (select_1 os 0 first <> None /\ NoPasswordPrompt opts = false /\
   tried = [first] /\ code = 1%Z /\
   exists err, (ReadPassword os).2 = Some err /\
     s' = report (readPassword os s (Username opts)).1 err) \/
  (exists password s1,
     let second := connection opts password in
     select_1 os 0 first <> None /\
     (if NoPasswordPrompt opts then password = Password opts /\ s1 = s
      else ReadPassword os = (password, None) /\
           s1 = (readPassword os s (Username opts)).1) /\
     tried = [first; second] /\
     ((exists err, select_1 os 1 second = Some err /\ code = 1%Z /\
         s' = report s1 err) \/
      (select_1 os 1 second = None /\
       main_dump os opts (Connect os 1 second) s1 [first; second] calls fuel =
         Some (code, s', tried)))).
Proof.
  intros H. cbv zeta. unfold main_connect, connectDB in H.
  cbv zeta in H.
  destruct (select_1 os 0 (connection opts (Password opts))) as [e0|] eqn:H0.
  2: { left. split; [done|].
       destruct (main_dump_cases _ _ _ _ _ _ _ _ _ _ H) as [-> _]. done. }
  right.
  destruct (NoPasswordPrompt opts) eqn:Hw.
  - right. exists (Password opts), s. simpl.
    split; [done|]. split; [done|].
    destruct (select_1 os 1 (connection opts (Password opts)))
      as [e1|] eqn:H1.
    + inversion H; subst. split; [done|]. left. eauto.
    + destruct (main_dump_cases _ _ _ _ _ _ _ _ _ _ H) as [-> _].
      split; [done|]. by right.
  - unfold readPassword in *.
    destruct (ReadPassword os) as [password [err|]] eqn:HR; simpl in *.
    + left. inversion H; subst. split; [done|].
      repeat (split; [done|]). eauto.
    + right. exists password, (readPassword os s (Username opts)).1. simpl.
      split; [done|]. split; [done|].
      destruct (select_1 os 1 (connection opts password)) as [e1|] eqn:H1.
      * inversion H; subst. split; [done|]. left. eauto.
      * destruct (main_dump_cases _ _ _ _ _ _ _ _ _ _ H) as [-> _].
        split; [done|]. by right.
Qed.

(** The runs of [main]: ended by [parseArgs], by the output file, or by
    [main_connect] on the streams as opened. *)
Lemma main_cases os calls fuel code s' tried :
  main os calls fuel = Some (code, s', tried) ->
  (tried = [] /\ code = 0%Z /\ s' = to_stdout (start os) (usage os) /\
   exists opts args, Parse os = Ok (opts, args) /\ flags.Help opts = true) \/
  (tried = [] /\ code = 1%Z /\
   exists err s, parseArgs os (start os) = Continue (Err err) s) \/
  (tried = [] /\ code = 1%Z /\
   exists opts err,
     parseArgs os (start os) = Continue (Ok opts) (start os) /\
     OutputFile opts <> EmptyString /\
     OpenFile os (OutputFile opts) = Some err /\
     s' = report (start os) err) \/
  (exists opts,
     parseArgs os (start os) = Continue (Ok opts) (start os) /\
     (OutputFile opts = EmptyString \/
      OpenFile os (OutputFile opts) = None) /\
     main_connect os opts (opened os opts) calls fuel =
       Some (code, s', tried)).
Proof.
  unfold main. intros H.
  destruct (parseArgs os (start os)) as [[opts|e] s|c s] eqn:HP.
  - destruct (parseArgs_accepts _ _ _ _ HP) as [-> _].
    case_bool_decide as Ho.
    + right. right. right. exists opts. split; [done|]. split; [by left|].
      unfold opened. by rewrite bool_decide_eq_true_2.
    + destruct (OpenFile os (OutputFile opts)) as [e|] eqn:HF.
      * right. right. left. inversion H; subst. split; [done|].
        split; [done|]. by exists opts, e.
      * right. right. right. exists opts. split; [done|].
        split; [by right|]. unfold opened. by rewrite bool_decide_eq_false_2.
  - right. left. inversion H; subst. eauto.
  - left. inversion H; subst.
    destruct (parseArgs_exits _ _ _ _ HP) as (-> & -> & Hx). done.
Qed.

Lemma wrote_fresh takes w text :
  wrote (fresh takes) w text ->
  asked w = text /\ (reliable (fresh takes) -> held w = text).
Proof. intros (_ & Ha & Hh). split; [exact Ha|]. intros Hr. by apply Hh. Qed.

(** What a successful [main_dump] leaves, on streams [s1] that come from
    the streams as opened by writes of [typed] to the standard output and
    of [prompt] to the standard error. *)
Lemma main_dump_output os opts db s1 tried calls fuel s' tried' typed prompt :
  main_dump os opts db s1 tried calls fuel = Some (0%Z, s', tried') ->
  file s1 = file (opened os opts) ->
  wrote (stdout (start os)) (stdout s1) typed ->
  wrote (stderr (start os)) (stderr s1) prompt ->
  exists data manifest items m' l,
    Open os (ManifestFile opts) = Ok (Ok data) /\
    manifest = (Unmarshal os data (mkManifest ∅ [])).1 /\
    drain db calls fuel (NewManifestIterator manifest) [] =
      (items, m', l, Finished) /\
    NoDup (Table <$> items) /\
    let doc := document (strconv_Quote os) (mustache os) db manifest items in
    asked (stderr s') = prompt /\
    if bool_decide (OutputFile opts = EmptyString)
    then file s' = None /\ asked (stdout s') = typed +:+ doc /\
         (reliable (stdout (start os)) -> held (stdout s') = typed +:+ doc)
    else asked (stdout s') = typed /\
         exists f, file s' = Some f /\ asked f = doc /\
           (reliable (fresh (file_takes os (OutputFile opts))) ->
            held f = doc).
Proof.
  intros H Hf Hout Herr.
  destruct (main_dump_cases _ _ _ _ _ _ _ _ _ _ H)
    as [_ [?|(_ & data & manifest & items & m' & l & w & HO & Hm & Hd & Hnd
               & Hw & ->)]]; [done|].
  exists data, manifest, items, m', l. repeat (split; [done|]). cbv zeta.
  unfold output_write, output, opened in *.
  case_bool_decide as Ho; simpl in *.
  - split; [by apply wrote_fresh in Herr as [-> _]|]. split; [done|].
    apply wrote_fresh. by eapply wrote_trans.
  - split; [by apply wrote_fresh in Herr as [-> _]|].
    split; [by apply wrote_fresh in Hout as [-> _]|].
    rewrite Hf in Hw. simpl in Hw. exists w. split; [done|].
    by apply wrote_fresh.
Qed.

(** X11. What a successful run of the command leaves.  A run of [main] that
    ends with status 0 has either printed the usage for [--help] and done
    nothing else, or it has parsed its options, connected at the last
    attempt it made, read the manifest file and decoded it, and written the
    document of the dump (the preamble, a data block for each entry that
    the resolver returned, no table twice, the postamble) to the output
    file, and nothing else to it, or to the standard output when no output
    file is given.  When the password has been prompted, the line break
    that [readPassword] prints has been written to the standard output
    first, so that a dump on the standard output then starts with that
    byte.  A sink that takes every write holds what has been written to it;
    the command does not look at the outcome of the writes of the framing,
    so that nothing is said of what another sink holds. *)
Theorem successful_command_output os calls fuel s tried :
  main os calls fuel = Some (0%Z, s, tried) ->
  (s = to_stdout (start os) (usage os) /\ tried = [] /\
   exists opts args, Parse os = Ok (opts, args) /\ flags.Help opts = true) \/
  (exists opts db data manifest items m' l,
     parseArgs os (start os) = Continue (Ok opts) (start os) /\
     (exists a, last tried = Some a /\
                connectDB os (length tried - 1) a = Ok db) /\
     Open os (ManifestFile opts) = Ok (Ok data) /\
     manifest = (Unmarshal os data (mkManifest ∅ [])).1 /\
     drain db calls fuel (NewManifestIterator manifest) [] =
       (items, m', l, Finished) /\
     NoDup (Table <$> items) /\
     let doc := document (strconv_Quote os) (mustache os) db manifest items in
     let typed := if prompted opts tried then newline else EmptyString in
     asked (stderr s) = (if prompted opts tried
                         then password_prompt (Username opts)
                         else EmptyString) /\
     if bool_decide (OutputFile opts = EmptyString)
     then file s = None /\ asked (stdout s) = typed +:+ doc /\
          (reliable (stdout (start os)) -> held (stdout s) = typed +:+ doc)
     else asked (stdout s) = typed /\
          exists f, file s = Some f /\ asked f = doc /\
            (reliable (fresh (file_takes os (OutputFile opts))) ->
             held f = doc)).
Proof.
  intros H.
  destruct (main_cases _ _ _ _ _ _ H)
    as [(-> & _ & -> & Hx)|[(_ & ? & _)|[(_ & ? & _)|(opts & HP & _ & Hc)]]];
    [by left|done|done|].
  right.
  destruct (main_connect_cases _ _ _ _ _ _ _ _ Hc)
    as [(H0 & -> & Hd)|[(_ & _ & _ & ? & _)|(password & s1 & H0 & Hpw & ->
                                               & [(? & _ & ? & _)|[H1 Hd]])]];
    [|done|done|].
  - destruct (main_dump_output _ _ _ _ _ _ _ _ _ EmptyString EmptyString Hd
                eq_refl)
      as (data & manifest & items & m' & l & HO & Hm & Hdr & Hnd & Hw).
    { unfold opened. case_bool_decide; apply wrote_refl. }
    { unfold opened. case_bool_decide; apply wrote_refl. }
    exists opts, (Connect os 0 (connection opts (Password opts))), data,
      manifest, items, m', l.
    split; [done|]. split.
    { eexists. split; [reflexivity|]. unfold connectDB. simpl.
      by rewrite H0. }
    repeat (split; [done|]). exact Hw.
  - destruct (NoPasswordPrompt opts) eqn:Hno.
    + destruct Hpw as [-> ->].
      destruct (main_dump_output _ _ _ _ _ _ _ _ _ EmptyString EmptyString Hd
                  eq_refl)
        as (data & manifest & items & m' & l & HO & Hm & Hdr & Hnd & Hw).
      { unfold opened. case_bool_decide; apply wrote_refl. }
      { unfold opened. case_bool_decide; apply wrote_refl. }
      exists opts, (Connect os 1 (connection opts (Password opts))), data,
        manifest, items, m', l.
      split; [done|]. split.
      { eexists. split; [reflexivity|]. unfold connectDB. simpl.
        by rewrite H1. }
      repeat (split; [done|]). unfold prompted. rewrite Hno. exact Hw.
    + destruct Hpw as [Hread ->].
      destruct (main_dump_output _ _ _ _ _ _ _ _ _ newline
                  (password_prompt (Username opts)) Hd)
        as (data & manifest & items & m' & l & HO & Hm & Hdr & Hnd & Hw).
      { unfold opened. by case_bool_decide. }
      { unfold opened. case_bool_decide; apply wrote_Write. }
      { unfold opened. case_bool_decide; apply wrote_Write. }
      exists opts, (Connect os 1 (connection opts password)), data,
        manifest, items, m', l.
      split; [done|]. split.
      { eexists. split; [reflexivity|]. unfold connectDB. simpl.
        by rewrite H1. }
      repeat (split; [done|]). unfold prompted. rewrite Hno. exact Hw.
Qed.

Lemma successful_command_output_witness :
  exists s tried,
    main prompting_os 9 9 = Some (0%Z, s, tried) /\
    asked (stderr s) = "Password for ada: " /\
    reliable (stdout (start prompting_os)) /\
    held (stdout s) = asked (stdout s) /\
    ((s = to_stdout (start prompting_os) (usage prompting_os) /\
      tried = [] /\
      exists opts args,
        Parse prompting_os = Ok (opts, args) /\ flags.Help opts = true) \/
     (exists opts db data manifest items m' l,
        parseArgs prompting_os (start prompting_os) =
          Continue (Ok opts) (start prompting_os) /\
        (exists a, last tried = Some a /\
                   connectDB prompting_os (length tried - 1) a = Ok db) /\
        Open prompting_os (ManifestFile opts) = Ok (Ok data) /\
        manifest = (Unmarshal prompting_os data (mkManifest ∅ [])).1 /\
        drain db 9 9 (NewManifestIterator manifest) [] =
          (items, m', l, Finished) /\
        NoDup (Table <$> items) /\
        let doc := document (strconv_Quote prompting_os)
                     (mustache prompting_os) db manifest items in
        let typed := if prompted opts tried then newline else EmptyString in
        asked (stderr s) = (if prompted opts tried
                            then password_prompt (Username opts)
                            else EmptyString) /\
        if bool_decide (OutputFile opts = EmptyString)
        then file s = None /\ asked (stdout s) = typed +:+ doc /\
             (reliable (stdout (start prompting_os)) ->
              held (stdout s) = typed +:+ doc)
        else asked (stdout s) = typed /\
             exists f, file s = Some f /\ asked f = doc /\
               (reliable (fresh (file_takes prompting_os (OutputFile opts))) ->
                held f = doc))).
Proof.
  destruct (main prompting_os 9 9) as [[[code s] tried]|] eqn:E;
    [|by vm_compute in E].
  pose proof E as E'. vm_compute in E'.
  assert (Hc : code = 0%Z) by (by inversion E').
  subst code. exists s, tried. split; [reflexivity|].
  split; [by inversion E'|]. split; [by intros before p|].
  split; [inversion E'; vm_compute; reflexivity|].
  exact (successful_command_output prompting_os 9 9 s tried E).
Defined.

(** X12. The command tries to connect at most twice.  A run of [main] that
    ends has tried no connection exactly when the arguments were not
    accepted (they were rejected, or the usage was asked for) or the output
    file that they name could not be opened; otherwise it has tried one
    connection, with the password of [PGPASSWORD], or two.  It tries a
    second one only after the first has failed, with the password typed at
    the prompt, or, under [--no-password], with the very options of the
    first attempt.  Only one attempt is made when the first succeeds or the
    password cannot be read. *)
Theorem connection_is_tried_at_most_twice os calls fuel code s tried :
  main os calls fuel = Some (code, s, tried) ->
  (tried = [] /\
   ((forall opts, parseArgs os (start os) <> Continue (Ok opts) (start os)) \/
    exists opts err,
      parseArgs os (start os) = Continue (Ok opts) (start os) /\
      OutputFile opts <> EmptyString /\
      OpenFile os (OutputFile opts) = Some err /\ code = 1%Z)) \/
  exists opts,
    parseArgs os (start os) = Continue (Ok opts) (start os) /\
    (OutputFile opts = EmptyString \/ OpenFile os (OutputFile opts) = None) /\
    let first := connection opts (Getenv os "PGPASSWORD") in
    (tried = [first] /\
     (select_1 os 0 first = None \/
      (NoPasswordPrompt opts = false /\ (ReadPassword os).2 <> None /\
       code = 1%Z))) \/
    (exists password,
       tried = [first; connection opts password] /\
       select_1 os 0 first <> None /\
       if NoPasswordPrompt opts then password = Getenv os "PGPASSWORD"
       else ReadPassword os = (password, None)).
Proof.
  intros H.
  destruct (main_cases _ _ _ _ _ _ H)
    as [(-> & _ & _ & opts & args & HP & Hh)|
        [(-> & _ & err & s0 & HP)|
         [(-> & -> & opts & err & HP & Ho & HF & _)|
          (opts & HP & Ho & Hc)]]].
  - left. split; [done|]. left. intros o Ha.
    destruct (parseArgs_accepts _ _ _ _ Ha) as (_ & o' & a' & HP' & Hh' & _).
    congruence.
  - left. split; [done|]. left. intros o Ha. congruence.
  - left. split; [done|]. right. by exists opts, err.
  - right. exists opts. split; [done|]. split; [done|]. cbv zeta.
    destruct (parseArgs_accepts _ _ _ _ HP)
      as (_ & o & args & _ & _ & _ & _ & _ & _ & _ & Hpw & _).
    rewrite <- Hpw.
    destruct (main_connect_cases _ _ _ _ _ _ _ _ Hc)
      as [(H0 & -> & _)|[(H0 & Hw & -> & -> & err & He & _)|
                         (password & s1 & H0 & Hpass & -> & _)]].
    + left. split; [done|]. by left.
    + left. split; [done|]. right. by rewrite He.
    + right. exists password. split; [done|]. split; [done|].
      destruct (NoPasswordPrompt opts); by destruct Hpass.
Qed.

Lemma connection_is_tried_at_most_twice_witness :
  exists code s tried,
    main prompting_os 9 9 = Some (code, s, tried) /\
    length tried = 2 /\
    ((tried = [] /\
      ((forall opts, parseArgs prompting_os (start prompting_os) <>
                       Continue (Ok opts) (start prompting_os)) \/
       exists opts err,
         parseArgs prompting_os (start prompting_os) =
           Continue (Ok opts) (start prompting_os) /\
         OutputFile opts <> EmptyString /\
         OpenFile prompting_os (OutputFile opts) = Some err /\
         code = 1%Z)) \/
     exists opts,
       parseArgs prompting_os (start prompting_os) =
         Continue (Ok opts) (start prompting_os) /\
       (OutputFile opts = EmptyString \/
        OpenFile prompting_os (OutputFile opts) = None) /\
       let first := connection opts (Getenv prompting_os "PGPASSWORD") in
       (tried = [first] /\
        (select_1 prompting_os 0 first = None \/
         (NoPasswordPrompt opts = false /\
          (ReadPassword prompting_os).2 <> None /\ code = 1%Z))) \/
       (exists password,
          tried = [first; connection opts password] /\
          select_1 prompting_os 0 first <> None /\
          if NoPasswordPrompt opts
          then password = Getenv prompting_os "PGPASSWORD"
          else ReadPassword prompting_os = (password, None))).
Proof.
  destruct (main prompting_os 9 9) as [[[code s] tried]|] eqn:E;
    [|by vm_compute in E].
  pose proof E as E'. vm_compute in E'.
  exists code, s, tried. split; [reflexivity|]. split.
  - by inversion E'.
  - exact (connection_is_tried_at_most_twice prompting_os 9 9 code s tried E).
Defined.





(** ** The port *)

Lemma digit_pretty_N_char (x : N) :
  (x < 10)%N -> digit (pretty_N_char x) = Some (Z.of_N x).
Proof.
  intros H.
  assert (Hx : (x = 0 \/ x = 1 \/ x = 2 \/ x = 3 \/ x = 4 \/ x = 5 \/
                x = 6 \/ x = 7 \/ x = 8 \/ x = 9)%N) by lia.
  destruct_or!; subst; reflexivity.
Qed.

(** Reading the digits that [pretty_N_go] has put before [s]. *)
Lemma digits_pretty_N_go (x : N) :
  exists k : Z, forall s n,
    digits n (pretty_N_go x s) = digits (n * k + Z.of_N x)%Z s.
Proof.
  induction (N.lt_wf_0 x) as [x _ IH].
  destruct (decide (0 < x)%N) as [Hx|Hx].
  - destruct (IH (x `div` 10)%N) as [k Hk].
    { apply N.div_lt; lia. }
    exists (k * 10)%Z. intros s n. rewrite pretty_N_go_step by done.
    rewrite Hk. simpl.
    rewrite digit_pretty_N_char by (apply N.mod_lt; lia).
    f_equal. pose proof (N.div_mod x 10). lia.
  - assert (x = 0%N) as -> by lia. exists 1%Z. intros s n.
    rewrite pretty_N_go_0. f_equal. lia.
Qed.

Lemma digits_pretty_positive (p : positive) :
  digits 0 (pretty p) = Some (Z.pos p) /\ pretty p <> EmptyString /\
  signed (pretty p) = false /\ negative (pretty p) = false.
Proof.
  unfold pretty, pretty_positive, pretty, pretty_N.
  destruct (decide (N.pos p = 0%N)) as [|_]; [done|].
  destruct (digits_pretty_N_go (N.pos p)) as [k Hk].
  specialize (Hk EmptyString 0%Z). simpl in Hk.
  destruct (pretty_N_go (N.pos p) EmptyString) as [|c r] eqn:E.
  { simpl in Hk. by inversion Hk. }
  split; [done|]. split; [done|].
  simpl in Hk. unfold signed, negative.
  destruct (digit c) eqn:Hc; [|done].
  assert (c <> "-"%char) by (by intros ->).
  assert (c <> "+"%char) by (by intros ->).
  by rewrite !bool_decide_eq_false_2.
Qed.

(** [Atoi] reads the decimal form of every [int]. *)
Lemma Atoi_pretty (n : Z) :
  (- 2 ^ 63 <= n <= 2 ^ 63 - 1)%Z -> Atoi (pretty n) = Some n.
Proof.
  intros Hn. destruct n as [|p|p].
  - reflexivity.
  - change (pretty (Z.pos p)) with (pretty p).
    destruct (digits_pretty_positive p) as (Hd & Hne & Hs & Hg).
    unfold Atoi. rewrite Hs, Hg, Hd.
    destruct (pretty p); [done|].
    destruct (_ && _)%Z eqn:Hr; [done|].
    apply andb_false_iff in Hr as [Hr|Hr]; apply Z.leb_gt in Hr; lia.
  - change (pretty (Z.neg p)) with (String "-" (pretty p)).
    destruct (digits_pretty_positive p) as (Hd & Hne & Hs & Hg).
    unfold Atoi.
    change (signed (String "-" (pretty p))) with true.
    change (negative (String "-" (pretty p))) with true.
    cbv iota. rewrite Hd.
    destruct (pretty p); [done|].
    change (- Z.pos p)%Z with (Z.neg p).
    destruct (_ && _)%Z eqn:Hr; [done|].
    apply andb_false_iff in Hr as [Hr|Hr]; apply Z.leb_gt in Hr; lia.
Qed.

(** X15. The port is not checked against 0-65535.  When the command line
    is otherwise in order (no [--help], a manifest file, a user name, at
    most one database), [parseArgs] accepts as port the decimal form of
    every number that an [int] holds, negative or beyond 65535 as well, in
    spite of the message it has for a port that is no number; the command
    then connects to the address made of the host, a colon and the port as
    it was given. *)
Theorem port_is_not_range_checked os s opts args (n : Z) :
  Parse os = Ok (opts, args) ->
  flags.Help opts = false ->
  flags.ManifestFile opts <> EmptyString ->
  flags.Username opts <> EmptyString ->
  length args <= 1 ->
  flags.Port opts = pretty n ->
  (- 2 ^ 63 <= n <= 2 ^ 63 - 1)%Z ->
  exists options,
    parseArgs os s = Continue (Ok options) s /\
    Port options = n /\
    forall password,
      pg.Addr (connection options password) =
        flags.Host opts +:+ ":" +:+ flags.Port opts.
Proof.
  intros HP Hh Hm Hu Ha Hp Hn. unfold parseArgs.
  rewrite HP, Hh, !bool_decide_eq_false_2 by done.
  rewrite Hp, Atoi_pretty by done.
  destruct args as [|arg [|arg' args]]; [| |simpl in Ha; lia].
  - eexists. split; [reflexivity|]. done.
  - eexists. split; [reflexivity|]. done.
Qed.

Lemma port_is_not_range_checked_witness :
  exists options,
    parseArgs wide_port_os (start wide_port_os) =
      Continue (Ok options) (start wide_port_os) /\
    Port options = 70000%Z /\
    forall password,
      pg.Addr (connection options password) = "localhost:70000".
Proof.
  apply (port_is_not_range_checked wide_port_os (start wide_port_os)
           (sample_flags "70000" EmptyString) ["shop"] 70000%Z).
  - reflexivity.
  - reflexivity.
  - done.
  - done.
  - simpl. lia.
  - reflexivity.
  - lia.
Defined.
